(** * BioSim: a shallow embedding of the island ecosystem simulation

    The development follows the Python package [biosim]: [Animal.py]
    (individual animals and the two species), [Cell.py] (one map location),
    [Map.py] (the island and its annual cycle), [simulation_nograph.py]
    (the top-level [BioSim] object) and, of [Graphics.py], the constructor
    that [BioSim] calls.

    Conventions of the embedding.
    - Numbers are real numbers ([R]): Python's integers are injected, and
      floating-point arithmetic is idealised as exact real arithmetic, so that
      [np.power(np.e, x)] is [exp x], [np.log] is [ln] and [** 0.5] is [sqrt].
      Comparisons of numbers are decisions on [R]; a run on concrete numbers
      is followed by deciding each comparison with [lra].
    - Python exceptions are values of [exn]; a computation that may raise
      returns a [result].
    - Lists and arrays have no size limit: [numpy.arange] returns as many
      elements as it is asked for.
    - The shared pseudo-random source of the [random] module is an explicit
      state; its primitive draws are the fields of [RandomSource].
    - Every Python object of class [Animal] carries its identity in the field
      [ident]; objects are allocated from the counter [next_id].
    - Class-level dictionaries ([Herbivores.parameter], [Carnivores.parameter],
      [Cell.ParamCell]) are finite maps with string keys, collected in
      [Config] and passed explicitly. *)

From Stdlib Require Import Reals Lra Lia ZArith Ascii Sorted.
From stdpp Require Import gmap strings list.

(** ** Exceptions and the two monads *)

Inductive exn :=
  | TypeError
  | ValueError
  | KeyError
  | IndexError
  | ZeroDivisionError.

Inductive result (A : Type) :=
  | Ok (a : A)
  | Raise (e : exn).
Arguments Ok {A} a.
Arguments Raise {A} e.

#[export] Instance result_ret : MRet result := fun A a => Ok a.
#[export] Instance result_bind : MBind result := fun A B f m =>
  match m with
  | Ok a => f a
  | Raise e => Raise e
  end.

(** Computations that read and advance a state [S] and may raise. *)
Definition M (S A : Type) : Type := S -> result (A * S).

#[export] Instance M_ret S : MRet (M S) := fun A a s => Ok (a, s).
#[export] Instance M_bind S : MBind (M S) := fun A B f m s =>
  match m s with
  | Ok (a, s') => f a s'
  | Raise e => Raise e
  end.

(** A pure computation that may raise, run inside [M]. *)
Definition lift {S A} (r : result A) : M S A := fun s =>
  match r with
  | Ok a => Ok (a, s)
  | Raise e => Raise e
  end.

(** [for x in l: acc = body(x, acc)], each element being replaced by its
    updated version. *)
Fixpoint for_each {S A B} (body : A -> B -> M S (A * B)) (l : list A) (acc : B)
  : M S (list A * B) :=
  match l with
  | [] => mret ([], acc)
  | x :: rest =>
      '(x', acc') ← body x acc;
      '(rest', acc'') ← for_each body rest acc';
      mret (x' :: rest', acc'')
  end.

(** A loop over a list of indices with the whole state as accumulator. *)
Fixpoint for_range {S B} (body : nat -> B -> M S B) (ks : list nat) (acc : B) : M S B :=
  match ks with
  | [] => mret acc
  | k :: rest => acc' ← body k acc; for_range body rest acc'
  end.

(** Comparisons of real numbers, as decisions. *)
#[export] Instance Rle_decision (x y : R) : Decision (x <= y)%R := Rle_dec x y.
#[export] Instance Rlt_decision (x y : R) : Decision (x < y)%R := Rlt_dec x y.
#[export] Instance Rge_decision (x y : R) : Decision (x >= y)%R := Rge_dec x y.
#[export] Instance Rgt_decision (x y : R) : Decision (x > y)%R := Rgt_dec x y.
#[export] Instance Req_decision : EqDecision R := Req_dec_T.

(** ** The random source *)

(** The draws of Python's [random] module that the simulation uses:
    [random.random()], [random.lognormvariate(mu, sigma)] and
    [random.shuffle(x)]. *)
Class RandomSource := {
  rng : Type;
  random : rng -> R * rng;
  lognormvariate : R -> R -> rng -> R * rng;
  shuffle : forall A : Type, list A -> rng -> list A * rng;
}.
Arguments shuffle {_ A} l g.

(** What the library guarantees: [random()] lies in the half-open unit
    interval and [shuffle] permutes its argument. *)
Class RandomLaws (RS : RandomSource) := {
  random_range : forall g, (0 <= (random g).1 < 1)%R;
  shuffle_perm : forall (A : Type) (l : list A) g, (shuffle l g).1 ≡ₚ l;
}.

(** The state every operation threads: the generator and the allocator of
    object identities. *)
Record sys `{RandomSource} := mkSys { gen : rng; next_id : nat }.

Section Model.
Context `{RS : RandomSource}.

Definition draw_random : M sys R := fun s =>
  let '(u, g) := random (gen s) in Ok (u, mkSys _ g (next_id s)).

Definition draw_lognormvariate (mu sigma : R) : M sys R := fun s =>
  let '(w, g) := lognormvariate mu sigma (gen s) in Ok (w, mkSys _ g (next_id s)).

Definition draw_shuffle {A} (l : list A) : M sys (list A) := fun s =>
  let '(l', g) := shuffle l (gen s) in Ok (l', mkSys _ g (next_id s)).

Definition fresh_id : M sys nat := fun s =>
  Ok (next_id s, mkSys _ (gen s) (S (next_id s))).

(** [random.choices([False, True], [w0, w1])[0]]: the cumulative weights are
    [[w0, w0 + w1]]; the library raises [ValueError] when their total is not
    positive and otherwise returns the entry at
    [bisect(cum_weights, random() * total, 0, 1)]. *)
Definition choices_bool (w0 w1 : R) : M sys bool :=
  let total := (w0 + w1)%R in
  if decide (total <= 0)%R then lift (Raise ValueError)
  else u ← draw_random;
       mret (if decide (u * total < w0)%R then false else true).

(** The coin flip written [random.choices([False, True], [1 - prob, prob])[0]]
    in the source. *)
Definition weighted_flip (prob : R) : M sys bool := choices_bool (1 - prob) prob.

(** [random.choices(population)[0]] without weights:
    [population[floor(random() * len(population))]]. *)
Definition choices_uniform {A} (population : list A) : M sys A :=
  u ← draw_random;
  match population !! Z.to_nat (Int_part (u * INR (length population))) with
  | Some x => mret x
  | None => lift (Raise IndexError)
  end.

(** ** Animal.py *)

(** An [Animal] object. [weight] is [None] when the constructor's default is
    used. The species is the class of the object; in the embedding it is the
    list the animal is kept in, and the class attribute [parameter] is the
    table passed to each method. *)
Record Animal := mkAnimal {
  ident : nat;
  age : Z;
  weight : option R;
  moved : bool;
}.

(** [Animal.__init__(self, age=0, weight=None)]. *)
Definition Animal_init (id : nat) (a : Z) (w : option R) : Animal :=
  mkAnimal id a w false.
Definition default_age : Z := 0.
Definition default_weight : option R := None.

Definition set_weight (w : R) (a : Animal) : Animal :=
  mkAnimal (ident a) (age a) (Some w) (moved a).
Definition set_age (n : Z) (a : Animal) : Animal :=
  mkAnimal (ident a) n (weight a) (moved a).
Definition set_moved (b : bool) (a : Animal) : Animal :=
  mkAnimal (ident a) (age a) (weight a) b.

(** Reading a dictionary entry: [parameter[k]]. *)
Definition param (par : gmap string R) (k : string) : result R :=
  match par !! k with
  | Some v => Ok v
  | None => Raise KeyError
  end.

(** Using a Python value as a number: [None] in arithmetic or in an
    ordering comparison is a [TypeError]. *)
Definition num (w : option R) : result R :=
  match w with
  | Some x => Ok x
  | None => Raise TypeError
  end.

(** Python's float division. *)
Definition pydiv (x y : R) : result R :=
  if decide (y = 0%R) then Raise ZeroDivisionError else Ok (x / y)%R.

(** [Animal.fitness_formula]. *)
Definition fitness_formula (plus_minus x x_half phi_x : R) : R :=
  (1 / (1 + exp (plus_minus * phi_x * (x - x_half))))%R.

(** [Animal.fitness_calculation]. *)
Definition fitness_calculation (a : Z) (w : R) (par : gmap string R) : result R :=
  a_half ← param par "a_half";
  phi_age ← param par "phi_age";
  w_half ← param par "w_half";
  phi_weight ← param par "phi_weight";
  mret (fitness_formula 1 (IZR a) a_half phi_age
        * fitness_formula (-1) w w_half phi_weight)%R.

(** The property [Animal.fitness]. *)
Definition fitness (par : gmap string R) (self : Animal) : result R :=
  w ← num (weight self);
  if decide (w <= 0)%R then mret 0%R
  else fitness_calculation (age self) w par.

(** [Animal.set_params]: [cls.parameter.update(params)]. The argument
    dictionary is the list of its items in insertion order. *)
Definition set_params (par : gmap string R) (params : list (string * R)) : gmap string R :=
  foldl (fun m kv => <[kv.1 := kv.2]> m) par params.

(** [Animal.update_para]. The first loop assigns each known key as it goes
    and raises at the first unknown one; the second loop then looks for a
    negative value. The table reached is returned together with the
    exception, if one was raised. *)
Fixpoint update_para_keys (par : gmap string R) (params : list (string * R))
  : gmap string R * option exn :=
  match params with
  | [] => (par, None)
  | (key, value) :: rest =>
      match par !! key with
      | None => (par, Some ValueError)
      | Some _ => update_para_keys (<[key := value]> par) rest
      end
  end.

Fixpoint update_para_values (values : list R) : option exn :=
  match values with
  | [] => None
  | value :: rest =>
      if decide (value < 0)%R then Some ValueError else update_para_values rest
  end.

Definition update_para (par : gmap string R) (params : list (string * R))
  : gmap string R * option exn :=
  match update_para_keys par params with
  | (par', Some e) => (par', Some e)
  | (par', None) => (par', update_para_values (params.*2))
  end.

(** [Animal.procreate]. Returns the mother as the call leaves her and the
    offspring, if any: [(True, baby)] is [Some baby] and [(False,)] is
    [None]. *)
Definition procreate (par : gmap string R) (self : Animal) (N : nat)
  : M sys (Animal * option Animal) :=
  w_birth ← lift (param par "w_birth");
  sigma_birth ← lift (param par "sigma_birth");
  q ← lift (pydiv (w_birth ^ 2) (sqrt (w_birth ^ 2 + sigma_birth ^ 2)));
  let log_mu := ln q in
  q' ← lift (pydiv (sigma_birth ^ 2) (w_birth ^ 2));
  let log_sigma := sqrt (ln (1 + q')) in
  gamma ← lift (param par "gamma");
  phi ← lift (fitness par self);
  let prob := Rmin 1 (gamma * phi * INR N) in
  zeta ← lift (param par "zeta");
  w ← lift (num (weight self));
  let heavy := bool_decide (w >= (w_birth + sigma_birth) * zeta)%R in
  let adult := bool_decide (1 < age self)%Z in
  coin ← weighted_flip prob;
  if heavy && adult && coin then
    baby_weight ← draw_lognormvariate log_mu log_sigma;
    xi ← lift (param par "xi");
    if decide (w - xi * baby_weight >= 0)%R then
      id ← fresh_id;
      mret (set_weight (w - xi * baby_weight) self,
            Some (Animal_init id 0 (Some baby_weight)))
    else mret (self, None)
  else mret (self, None).

(** [Animal.growth_per_year]. *)
Definition growth_per_year (self : Animal) : Animal :=
  set_age (age self + 1) self.

(** [Animal.weight_loss_per_year]. *)
Definition weight_loss_per_year (par : gmap string R) (self : Animal) : result Animal :=
  eta ← param par "eta";
  w ← num (weight self);
  let w' := (w - w * eta)%R in
  mret (set_weight (if decide (w' < 0)%R then 0%R else w') self).

(** [Animal.die]. [None == 0] is [False] in Python, so an animal without a
    weight reaches the second branch. *)
Definition weight_is_zero (self : Animal) : bool :=
  match weight self with
  | Some w => bool_decide (w = 0%R)
  | None => false
  end.

Definition die (par : gmap string R) (self : Animal) : M sys bool :=
  if weight_is_zero self then mret true
  else
    omega ← lift (param par "omega");
    phi ← lift (fitness par self);
    weighted_flip (omega * (1 - phi)).

(** [Animal.migrate]. The neighbours are the positions of the accessible
    cells; the result is [Some d] for a destination cell and [None] for the
    falsy results ([False], or [None] when a gate fails). *)
Definition migrate (par : gmap string R) (self : Animal) (neighbors : list nat)
  : M sys (option nat) :=
  self_fitness ← lift (fitness par self);
  mu ← lift (param par "mu");
  let prob := (self_fitness * mu)%R in
  let stay : M sys (option nat) := mret None in
  gate1 ← weighted_flip prob;
  if gate1 : bool then
    gate2 ← weighted_flip prob;
    if gate2 : bool then
      match length neighbors with
      | 4 => choices_uniform (Some <$> neighbors)
      | 3 => choices_uniform ((Some <$> neighbors) ++ [None])
      | 2 => choices_uniform ((Some <$> neighbors) ++ [None; None])
      | 1 => choices_uniform ((Some <$> neighbors) ++ [None; None; None])
      | _ => stay
      end
    else stay
  else stay.

(** [Herbivores.parameter] and [Carnivores.parameter] as the classes
    define them. *)
Definition Herbivores_parameter : gmap string R :=
  list_to_map
    [("w_birth", 8); ("sigma_birth", 3/2); ("beta", 9/10); ("eta", 5/100);
     ("a_half", 40); ("phi_age", 6/10); ("w_half", 10); ("phi_weight", 1/10);
     ("mu", 25/100); ("gamma", 2/10); ("zeta", 35/10); ("xi", 12/10);
     ("omega", 4/10); ("F", 10)]%R.

Definition Carnivores_parameter : gmap string R :=
  list_to_map
    [("w_birth", 6); ("sigma_birth", 1); ("beta", 75/100); ("eta", 125/1000);
     ("a_half", 40); ("phi_age", 3/10); ("w_half", 4); ("phi_weight", 4/10);
     ("mu", 4/10); ("gamma", 8/10); ("zeta", 35/10); ("xi", 11/10);
     ("omega", 8/10); ("F", 50); ("DeltaPhiMax", 10)]%R.

(** [Herbivores.eat]. *)
Definition Herbivores_eat (par : gmap string R) (self : Animal) : result Animal :=
  beta ← param par "beta";
  F ← param par "F";
  w ← num (weight self);
  mret (set_weight (w + beta * F) self).

(** [list[i]] for an index that the code computes. *)
Definition getitem {A} (l : list A) (i : nat) : result A :=
  match l !! i with
  | Some x => Ok x
  | None => Raise IndexError
  end.

(** The kill probability of [Carnivores.hunt] for one prey. The chained
    comparison [0 < fit - animal_fitness < DeltaPhiMax] reads the parameter
    only when its first half holds. *)
Definition kill_probability (par : gmap string R) (fit animal_fitness : R) : result R :=
  if decide (fit <= animal_fitness)%R then mret 0%R
  else if decide (0 < fit - animal_fitness)%R then
    delta ← param par "DeltaPhiMax";
    if decide (fit - animal_fitness < delta)%R
    then mret ((fit - animal_fitness) / delta)%R
    else mret 1%R
  else mret 1%R.

Fixpoint hunt_loop (par par_prey : gmap string R) (fit : R) (animal_list : list Animal)
  : M sys (list Animal) :=
  match animal_list with
  | [] => mret []
  | animal :: rest =>
      animal_fitness ← lift (fitness par_prey animal);
      prob ← lift (kill_probability par fit animal_fitness);
      coin ← weighted_flip prob;
      hunt_list ← hunt_loop par par_prey fit rest;
      mret (if coin : bool then animal :: hunt_list else hunt_list)
  end.

(** [Carnivores.hunt]. [par] is [Carnivores.parameter] and [par_prey] the
    parameter table of the class of the prey. *)
Definition hunt (par par_prey : gmap string R) (self : Animal) (animal_list : list Animal)
  : M sys (list Animal) :=
  fit ← lift (fitness par self);
  hunt_loop par par_prey fit animal_list.

(** [np.cumsum]. *)
Fixpoint cumsum_from (acc : R) (l : list R) : list R :=
  match l with
  | [] => []
  | x :: rest => (acc + x)%R :: cumsum_from (acc + x) rest
  end.
Definition cumsum (l : list R) : list R := cumsum_from 0 l.

(** Python's [sum]. *)
Definition py_sum (l : list R) : R := foldr Rplus 0%R l.

(** [np.searchsorted(arr, key, side='left')]: the binary search of numpy,
    [fuel] bounding the number of halvings. *)
Fixpoint binsearch_left (fuel : nat) (arr : list R) (key : R) (min_idx max_idx : nat) : nat :=
  match fuel with
  | O => min_idx
  | S fuel' =>
      if decide (min_idx < max_idx)%nat then
        let mid_idx := (min_idx + (max_idx - min_idx) / 2)%nat in
        match arr !! mid_idx with
        | Some mid_val =>
            if decide (mid_val < key)%R
            then binsearch_left fuel' arr key (mid_idx + 1) max_idx
            else binsearch_left fuel' arr key min_idx mid_idx
        | None => min_idx
        end
      else min_idx
  end.

Definition searchsorted_left (arr : list R) (key : R) : nat :=
  binsearch_left (length arr) arr key 0 (length arr).

(** [Carnivores.eat]: the carnivore as the call leaves it and the list of
    eaten herbivores. *)
Definition Carnivores_eat (par par_prey : gmap string R) (self : Animal)
    (animal_list : list Animal) : M sys (Animal * list Animal) :=
  hunt_list ← hunt par par_prey self animal_list;
  hunt_weight_list ← lift (mapM (fun animal => num (weight animal)) hunt_list);
  let cum_weight_list := cumsum hunt_weight_list in
  if decide (length cum_weight_list < 2)%nat then
    beta ← lift (param par "beta");
    w ← lift (num (weight self));
    mret (set_weight (w + beta * py_sum cum_weight_list) self, hunt_list)
  else
    F ← lift (param par "F");
    before_last ← lift (getitem cum_weight_list (length cum_weight_list - 2));
    if decide (F > before_last)%R then
      beta ← lift (param par "beta");
      last ← lift (getitem cum_weight_list (length cum_weight_list - 1));
      w ← lift (num (weight self));
      mret (set_weight (w + beta * last) self, hunt_list)
    else
      let stop_eat_index := searchsorted_left cum_weight_list F in
      beta ← lift (param par "beta");
      eaten ← lift (getitem cum_weight_list stop_eat_index);
      w ← lift (num (weight self));
      mret (set_weight (w + beta * eaten) self, take (stop_eat_index + 1) hunt_list).

(** ** Cell.py *)

Record Cell := mkCell {
  geography : ascii;
  fodder : R;
  animal_list : list Animal;
  Carnivores_list : list Animal;
}.

(** [Cell.__init__(geography)] with the defaults for the other arguments. *)
Definition Cell_init (geo : ascii) : Cell := mkCell geo 0 [] [].

Definition set_fodder (f : R) (c : Cell) : Cell :=
  mkCell (geography c) f (animal_list c) (Carnivores_list c).
Definition set_animal_list (l : list Animal) (c : Cell) : Cell :=
  mkCell (geography c) (fodder c) l (Carnivores_list c).
Definition set_Carnivores_list (l : list Animal) (c : Cell) : Cell :=
  mkCell (geography c) (fodder c) (animal_list c) l.

(** The class-level tables. *)
Record Config := mkConfig {
  par_H : gmap string R;
  par_C : gmap string R;
  ParamCell : gmap string R;
}.

Definition ParamCell_default : gmap string R :=
  list_to_map [("f_max_L", 800); ("f_max_H", 300)]%R.

Definition default_config : Config :=
  mkConfig Herbivores_parameter Carnivores_parameter ParamCell_default.

(** [Cell.update_cell_para]: the table reached and the exception raised, if
    any. [list(params.values())[0]] raises [IndexError] on an empty
    dictionary and [params['f_max']] raises [KeyError] when the key is
    absent. *)
Definition dict_get (params : list (string * R)) (k : string) : option R :=
  (list_to_map params : gmap string R) !! k.

Definition update_cell_para (tbl : gmap string R) (landscape : string)
    (params : list (string * R)) : gmap string R * option exn :=
  match params.*2 with
  | [] => (tbl, Some IndexError)
  | first :: _ =>
      if decide (first < 0)%R then (tbl, Some ValueError)
      else
        let step (code : string) (key : string) (st : gmap string R * option exn) :=
          match st with
          | (t, Some e) => (t, Some e)
          | (t, None) =>
              if decide (landscape = code) then
                match dict_get params "f_max" with
                | Some v => (<[key := v]> t, None)
                | None => (t, Some KeyError)
                end
              else (t, None)
          end in
        step "H" "f_max_H" (step "L" "f_max_L" (tbl, None))
  end.

(** [Cell.produce_fodder]. *)
Definition produce_fodder (cfg : Config) (self : Cell) : result Cell :=
  if decide (geography self = "W"%char \/ geography self = "D"%char) then
    mret (set_fodder (fodder self + 0) self)
  else if decide (geography self = "L"%char) then
    f_max ← param (ParamCell cfg) "f_max_L";
    mret (set_fodder (fodder self + f_max) self)
  else
    f_max ← param (ParamCell cfg) "f_max_H";
    mret (set_fodder (fodder self + f_max) self).

(** The body of the birth loops. The [i]-th resident is read from the list
    the cell holds at that moment, and so is the count handed to
    [procreate]; the mother is updated in place and the offspring goes to
    [baby_animal_list]. *)
Definition birth_step (par : gmap string R) (i : nat) (st : list Animal * list Animal)
  : M sys (list Animal * list Animal) :=
  let '(residents, baby_animal_list) := st in
  match residents !! i with
  | None => mret st
  | Some animal =>
      '(animal', baby) ← procreate par animal (length residents);
      mret (<[i := animal']> residents, baby_animal_list ++ option_list baby)
  end.

Definition birth_loop (par : gmap string R) (residents : list Animal)
  : M sys (list Animal * list Animal) :=
  for_range (birth_step par) (seq 0 (length residents)) (residents, []).

(** [Cell.herbivore_birth]: the cell and the returned list of babies. *)
Definition herbivore_birth (cfg : Config) (self : Cell) : M sys (Cell * list Animal) :=
  '(residents, baby_animal_list) ← birth_loop (par_H cfg) (animal_list self);
  mret (set_animal_list (residents ++ baby_animal_list) self, baby_animal_list).

(** [Cell.carnivore_birth]. *)
Definition carnivore_birth (cfg : Config) (self : Cell) : M sys (Cell * list Animal) :=
  '(residents, baby_animal_list) ← birth_loop (par_C cfg) (Carnivores_list self);
  mret (set_Carnivores_list (residents ++ baby_animal_list) self, baby_animal_list).

(** The loop of [Cell.feed_animals] over the shuffled list: the herbivores
    as the loop leaves them and the fodder that remains. [break] leaves the
    rest of the list untouched. *)
Fixpoint feed_loop (par : gmap string R) (l : list Animal) (stock : R)
  : result (list Animal * R) :=
  match l with
  | [] => mret ([], stock)
  | animal :: rest =>
      F ← param par "F";
      if decide (stock >= F)%R then
        animal' ← Herbivores_eat par animal;
        F' ← param par "F";
        '(rest', stock') ← feed_loop par rest (stock - F');
        mret (animal' :: rest', stock')
      else mret (l, stock)
  end.

(** [Cell.feed_animals]. *)
Definition feed_animals (cfg : Config) (self : Cell) : M sys Cell :=
  shuffled ← draw_shuffle (animal_list self);
  '(fed, stock) ← lift (feed_loop (par_H cfg) shuffled (fodder self));
  mret (set_fodder stock (set_animal_list fed self)).

(** The items of the dictionary [{animal: animal.weight for animal in l}]:
    one entry for each distinct object, in order of first occurrence. *)
Fixpoint dict_items (l : list Animal) (seen : list nat) : list Animal :=
  match l with
  | [] => []
  | a :: rest =>
      if decide (ident a ∈ seen) then dict_items rest seen
      else a :: dict_items rest (ident a :: seen)
  end.

(** [sorted(items, key=weight)] and [sorted(items, key=weight, reverse=True)]:
    a stable sort. Two or more keys are compared with [<], which raises
    [TypeError] on [None]. *)
Definition weight_key (a : Animal) : R := default 0%R (weight a).

Fixpoint insert_sorted (desc : bool) (a : Animal) (l : list Animal) : list Animal :=
  match l with
  | [] => [a]
  | b :: rest =>
      let goes_after :=
        if desc then bool_decide (weight_key a < weight_key b)%R
        else bool_decide (weight_key b < weight_key a)%R in
      if goes_after then b :: insert_sorted desc a rest else a :: b :: rest
  end.

Definition sorted_by_weight (desc : bool) (l : list Animal) : result (list Animal) :=
  match l with
  | [] | [_] => mret l
  | _ =>
      _ ← mapM (fun a => num (weight a)) l;
      mret (foldr (insert_sorted desc) [] l)
  end.

(** [list.remove(x)] for an object [x]: the first occurrence goes;
    [ValueError] when there is none. *)
Fixpoint list_remove (x : Animal) (l : list Animal) : result (list Animal) :=
  match l with
  | [] => Raise ValueError
  | a :: rest =>
      if decide (ident a = ident x) then mret rest
      else rest' ← list_remove x rest; mret (a :: rest')
  end.

Fixpoint remove_all (xs : list Animal) (l : list Animal) : result (list Animal) :=
  match xs with
  | [] => mret l
  | x :: rest => l' ← list_remove x l; remove_all rest l'
  end.

(** The body of the loop of [Cell.feed_carnivores]: the accumulator is the
    cell's herbivore list. *)
Definition feed_carnivore_step (cfg : Config) (animal : Animal) (herbivores : list Animal)
  : M sys (Animal * list Animal) :=
  herbivores ← lift (sorted_by_weight false (dict_items herbivores []));
  '(animal', eaten_herbivores) ← Carnivores_eat (par_C cfg) (par_H cfg) animal herbivores;
  herbivores ← lift (remove_all eaten_herbivores herbivores);
  mret (animal', herbivores).

(** [Cell.feed_carnivores]. *)
Definition feed_carnivores (cfg : Config) (self : Cell) : M sys Cell :=
  if decide (0 < length (Carnivores_list self))%nat then
    order ← lift (sorted_by_weight true (dict_items (Carnivores_list self) []));
    '(carnivores, herbivores) ← for_each (feed_carnivore_step cfg) order (animal_list self);
    mret (set_animal_list herbivores (set_Carnivores_list carnivores self))
  else mret self.

(** [growth_per_year] followed by [weight_loss_per_year], for each animal
    of a list. *)
Definition grow_and_loose_weight (par : gmap string R) (l : list Animal)
  : result (list Animal) :=
  mapM (fun animal => weight_loss_per_year par (growth_per_year animal)) l.

(** [Cell.grow_and_loose_weight_herbivore]. *)
Definition grow_and_loose_weight_herbivore (cfg : Config) (self : Cell) : result Cell :=
  l ← grow_and_loose_weight (par_H cfg) (animal_list self);
  mret (set_animal_list l self).

(** [Cell.grow_and_loose_weight_carnivore]. *)
Definition grow_and_loose_weight_carnivore (cfg : Config) (self : Cell) : result Cell :=
  l ← grow_and_loose_weight (par_C cfg) (Carnivores_list self);
  mret (set_Carnivores_list l self).

(** The first loop of the death methods: the animals for which [die()]
    returned true. *)
Fixpoint death_loop (par : gmap string R) (l : list Animal) : M sys (list Animal) :=
  match l with
  | [] => mret []
  | animal :: rest =>
      dies ← die par animal;
      died ← death_loop par rest;
      mret (if dies : bool then animal :: died else died)
  end.

(** [Cell.herbivore_death]. *)
Definition herbivore_death (cfg : Config) (self : Cell) : M sys (Cell * list Animal) :=
  died_animal_list ← death_loop (par_H cfg) (animal_list self);
  l ← lift (remove_all died_animal_list (animal_list self));
  mret (set_animal_list l self, died_animal_list).

(** [Cell.carnivore_death]. *)
Definition carnivore_death (cfg : Config) (self : Cell) : M sys (Cell * list Animal) :=
  died_carnivores_list ← death_loop (par_C cfg) (Carnivores_list self);
  l ← lift (remove_all died_carnivores_list (Carnivores_list self));
  mret (set_Carnivores_list l self, died_carnivores_list).

(** One of the two loops of [Cell.animal_migration]. The cells of the map
    are the objects the destinations point to, so the loop runs on the array
    of cells: an animal that leaves is appended, with [moved] set, to the
    list of its destination by [arrive]; the others are collected in the
    stay list. *)
Fixpoint migration_loop (par : gmap string R) (arrive : Animal -> Cell -> Cell)
    (neighbors : list nat) (residents : list Animal)
    (cells : list Cell) (stay : list Animal) : M sys (list Cell * list Animal) :=
  match residents with
  | [] => mret (cells, stay)
  | animal :: rest =>
      if moved animal then
        migration_loop par arrive neighbors rest cells (stay ++ [animal])
      else
        destination ← migrate par animal neighbors;
        match destination with
        | Some d =>
            migration_loop par arrive neighbors rest
              (alter (arrive (set_moved true animal)) d cells) stay
        | None =>
            migration_loop par arrive neighbors rest cells (stay ++ [animal])
        end
  end.

Definition arrive_herbivore (animal : Animal) (destination : Cell) : Cell :=
  set_animal_list (animal_list destination ++ [animal]) destination.
Definition arrive_carnivore (animal : Animal) (destination : Cell) : Cell :=
  set_Carnivores_list (Carnivores_list destination ++ [animal]) destination.

(** [Cell.animal_migration] for the cell at position [k] of the array. *)
Definition animal_migration (cfg : Config) (k : nat) (neighbors : list nat)
    (cells : list Cell) : M sys (list Cell) :=
  match cells !! k with
  | None => mret cells
  | Some self =>
      '(cells, stay_animal_list) ←
        migration_loop (par_H cfg) arrive_herbivore neighbors (animal_list self) cells [];
      let cells := alter (set_animal_list stay_animal_list) k cells in
      match cells !! k with
      | None => mret cells
      | Some self =>
          '(cells, stay_carnivores_list) ←
            migration_loop (par_C cfg) arrive_carnivore neighbors
              (Carnivores_list self) cells [];
          mret (alter (set_Carnivores_list stay_carnivores_list) k cells)
      end
  end.

(** ** Map.py *)

(** The island: [cells_array] is numpy's two-dimensional object array, a
    row-major buffer of cells with its [shape]. [init_cells_array] gives each
    cell the letter found at its position of [island_map_array], and no
    method assigns [geography] afterwards, so the array of letters is read
    off the cells. *)
Record Map := mkMap {
  shape : nat * nat;
  cells_array : list Cell;
}.

Definition island_map_array (m : Map) : list ascii := geography <$> cells_array m.

Definition with_cells (m : Map) (cells : list Cell) : Map := mkMap (shape m) cells.

(** [island_map.split('\n')], each line as the list of its letters. *)
Fixpoint split_lines (l : list ascii) (line : list ascii) : list (list ascii) :=
  match l with
  | [] => [reverse line]
  | c :: rest =>
      if decide (c = "010"%char) then reverse line :: split_lines rest []
      else split_lines rest (c :: line)
  end.

Definition lines_of (island_map : string) : list (list ascii) :=
  split_lines (String.list_ascii_of_string island_map) [].

(** [Map.__init__] with [init_cells_array], for a rectangular map. numpy
    refuses to build a two-dimensional array from rows of unequal length. A
    letter outside [geography_dict] would leave its slot empty; [BioSim]
    rejects such a map before it builds the [Map]. *)
Definition Map_init (island_map : string) : result Map :=
  let rows := lines_of island_map in
  let width := length (default [] (head rows)) in
  if decide (Forall (fun row => length row = width) rows) then
    mret (mkMap (length rows, width) (Cell_init <$> concat rows))
  else Raise ValueError.

(** numpy's index normalisation along an axis of length [n]. *)
Definition np_index (n : nat) (i : Z) : result nat :=
  if decide (0 <= i < Z.of_nat n)%Z then mret (Z.to_nat i)
  else if decide (- Z.of_nat n <= i < 0)%Z then mret (Z.to_nat (i + Z.of_nat n))
  else Raise IndexError.

(** The position in the buffer of [cells_array[loc]]. *)
Definition flat_index (m : Map) (loc : Z * Z) : result nat :=
  r ← np_index (shape m).1 loc.1;
  c ← np_index (shape m).2 loc.2;
  mret (r * (shape m).2 + c)%nat.

(** The population specification handed to [add_fauna]. *)
Record fauna := mkFauna {
  species : string;
  fauna_age : Z;
  fauna_weight : option R;
}.

Record placement := mkPlacement {
  loc : Z * Z;
  pop : list fauna;
}.

(** The inner loop of [Map.add_fauna] over [dict['pop']]: the two counters
    and the two lists of new objects. *)
Fixpoint add_fauna_pop (l : list fauna)
    (acc : nat * nat * list Animal * list Animal)
  : M sys (nat * nat * list Animal * list Animal) :=
  match l with
  | [] => mret acc
  | fauna_dict :: rest =>
      let '(animal_num, Carnivores_num, animals, carnivores) := acc in
      '(animal_num, animals) ←
        (if decide (species fauna_dict = "Herbivore") then
           id ← fresh_id;
           mret (S animal_num,
                 animals ++ [Animal_init id (fauna_age fauna_dict) (fauna_weight fauna_dict)])
         else mret (animal_num, animals)) : M sys (nat * list Animal);
      '(Carnivores_num, carnivores) ←
        (if decide (species fauna_dict = "Carnivore") then
           id ← fresh_id;
           mret (S Carnivores_num,
                 carnivores ++ [Animal_init id (fauna_age fauna_dict) (fauna_weight fauna_dict)])
         else mret (Carnivores_num, carnivores)) : M sys (nat * list Animal);
      add_fauna_pop rest (animal_num, Carnivores_num, animals, carnivores)
  end.

(** The outer loop of [Map.add_fauna]: the counters are set to zero at the
    start of every record, and their last values are what the loop leaves
    behind. *)
Fixpoint add_fauna_loop (population : list placement) (m : Map) (counts : nat * nat)
  : M sys (Map * (nat * nat)) :=
  match population with
  | [] => mret (m, counts)
  | dict :: rest =>
      let loc := ((loc dict).1 - 1, (loc dict).2 - 1)%Z in
      '(animal_num, Carnivores_num, animals, carnivores) ←
        add_fauna_pop (pop dict) (0, 0, [], [])%nat;
      k ← lift (flat_index m loc);
      let cells :=
        alter (fun c => set_animal_list (animal_list c ++ animals) c) k (cells_array m) in
      let cells :=
        alter (fun c => set_Carnivores_list (Carnivores_list c ++ carnivores) c) k cells in
      add_fauna_loop rest (with_cells m cells) (animal_num, Carnivores_num)
  end.

(** [Map.add_fauna]. *)
Definition add_fauna (m : Map) (population : list placement) : M sys (Map * (nat * nat)) :=
  if decide (length population = 0)%nat then mret (m, (0, 0)%nat)
  else add_fauna_loop population m (0, 0)%nat.

(** The positions selected by a boolean mask on [island_map_array], in the
    order of the buffer; [i] is the position of the first letter. *)
Fixpoint mask_positions (mask : ascii -> bool) (i : nat) (letters : list ascii)
  : list nat :=
  match letters with
  | [] => []
  | c :: rest =>
      if mask c then i :: mask_positions mask (S i) rest
      else mask_positions mask (S i) rest
  end.

Definition mask_indices (mask : ascii -> bool) (m : Map) : list nat :=
  mask_positions mask 0 (island_map_array m).

(** [for cell in self.cells_array[mask]: body(cell)]. *)
Definition cell_step (body : Cell -> M sys Cell) (k : nat) (cells : list Cell)
  : M sys (list Cell) :=
  match cells !! k with
  | None => mret cells
  | Some cell => cell' ← body cell; mret (<[k := cell']> cells)
  end.

Definition for_cells (mask : ascii -> bool) (body : Cell -> M sys Cell) (m : Map)
  : M sys Map :=
  cells ← for_range (cell_step body) (mask_indices mask m) (cells_array m);
  mret (with_cells m cells).

Definition is_L_or_H (c : ascii) : bool :=
  bool_decide (c = "L"%char) || bool_decide (c = "H"%char).
Definition not_W (c : ascii) : bool := bool_decide (c ≠ "W"%char).

(** [Map.produce]. *)
Definition produce (cfg : Config) (m : Map) : M sys Map :=
  for_cells is_L_or_H (fun cell => lift (produce_fodder cfg cell)) m.





(** [Map.get_neighbors]: the positions in the buffer of the accessible
    cells around [(i, j)]. *)
Definition cell_at (m : Map) (i j : nat) : nat := (i * (shape m).2 + j)%nat.

Definition accessible (m : Map) (k : nat) : list nat :=
  match cells_array m !! k with
  | Some cell => if decide (geography cell ≠ "W"%char) then [k] else []
  | None => []
  end.

Definition get_neighbors (m : Map) (i j : nat) : list nat :=
  let island_shape := shape m in
  let map_shape := (Z.of_nat island_shape.1 - 1, Z.of_nat island_shape.2 - 1)%Z in
  (if decide (Z.of_nat i > 0)%Z then accessible m (cell_at m (i - 1) j) else [])
  ++ (if decide (Z.of_nat i < map_shape.1)%Z then accessible m (cell_at m (i + 1) j) else [])
  ++ (if decide (Z.of_nat j > 0)%Z then accessible m (cell_at m i (j - 1)) else [])
  ++ (if decide (Z.of_nat j < map_shape.2)%Z then accessible m (cell_at m i (j + 1)) else []).

(** The body of the loop of [Map.migrate]; [np.ndenumerate] visits the
    buffer in order, and position [k] is row [k / width], column
    [k mod width]. *)
Definition migrate_step (cfg : Config) (shp : nat * nat) (k : nat) (cells : list Cell)
  : M sys (list Cell) :=
  match cells !! k with
  | None => mret cells
  | Some cell =>
      if decide (geography cell ≠ "W"%char) then
        let neighbors := get_neighbors (mkMap shp cells) (k / shp.2) (k mod shp.2) in
        animal_migration cfg k neighbors cells
      else mret cells
  end.

(** [Map.migrate]. *)
Definition Map_migrate (cfg : Config) (m : Map) : M sys Map :=
  cells ← for_range (migrate_step cfg (shape m)) (seq 0 (length (cells_array m)))
             (cells_array m);
  mret (with_cells m cells).


(** [Map.reset_fodder]. *)
Definition reset_fodder (m : Map) : M sys Map :=
  for_cells not_W (fun cell => mret (set_fodder 0 cell)) m.







(** ** Graphics.py *)

(** Of the class [Graphics] the simulation runs the constructor only; the
    calls that draw are commented out in [simulate]. The constructor sets
    the bins of the three histograms and the colours of the map, and both
    can raise. The file names ([img_dir], [img_base], [img_fmt]) and
    [ymax_animals] are strings and numbers that it joins and stores. *)

(** [numpy.arange(start, stop, step)] on Python numbers: the quotient
    [(stop - start) / step] is Python's division, and the array has as many
    elements as the ceiling of the quotient says. *)
Definition ceil (x : R) : Z := (- Int_part (- x))%Z.

Definition np_arange (start stop step : R) : result (list R) :=
  q ← pydiv (stop - start) step;
  mret ((fun i => start + INR i * step)%R <$> seq 0 (Z.to_nat (ceil q))).

Definition bin_max_default : gmap string R :=
  list_to_map [("fitness", 1); ("age", 60); ("weight", 60)]%R.
Definition bin_width_default : gmap string R :=
  list_to_map [("fitness", 1 / 2); ("age", 2); ("weight", 2)]%R.

(** The loop over [hist_specs.keys()]; the argument is the list of the
    items of the dictionary, each value a dictionary of numbers. *)
Fixpoint hist_bins (items : list (string * list (string * R)))
    (bin_max bin_width : gmap string R) : result (gmap string R * gmap string R) :=
  match items with
  | [] => mret (bin_max, bin_width)
  | (key, spec) :: rest =>
      hi ← param (list_to_map spec) "max";
      let bin_max := <[key := hi]> bin_max in
      delta ← param (list_to_map spec) "delta";
      let bin_width := <[key := delta]> bin_width in
      hist_bins rest bin_max bin_width
  end.

(** [np.arange(0, bin_max[k] + bin_width[k] / 2, bin_width[k])]. *)
Definition bin_edges (bin_max bin_width : gmap string R) (k : string) : result (list R) :=
  hi ← param bin_max k;
  half ← param bin_width k;
  step ← param bin_width k;
  np_arange 0 (hi + half / 2) step.

(** [Graphics.rgb_value[column]]. *)
Definition rgb_value (column : ascii) : result (R * R * R) :=
  if decide (column = "W"%char) then mret (0, 0, 1)%R
  else if decide (column = "L"%char) then mret (0, 6 / 10, 0)%R
  else if decide (column = "H"%char) then mret (1 / 2, 1, 1 / 2)%R
  else if decide (column = "D"%char) then mret (1, 1, 1 / 2)%R
  else Raise KeyError.

Record Graphics := mkGraphics {
  bin_edges_fitness : list R;
  bin_edges_age : list R;
  bin_edges_weight : list R;
  map_rgb : list (list (R * R * R));
}.

(** [Graphics.__init__]. [BioSim] hands it the text of a map that has
    passed its checks: letters of the four terrains in rows of one length,
    on which [textwrap.dedent] changes nothing and [splitlines] is
    [split('\n')]. *)
Definition Graphics_init (island_map : string)
    (hist_specs : option (list (string * list (string * R)))) : result Graphics :=
  '(bin_max, bin_width) ← hist_bins (default [] hist_specs) bin_max_default bin_width_default;
  fitness_edges ← bin_edges bin_max bin_width "fitness";
  age_edges ← bin_edges bin_max bin_width "age";
  weight_edges ← bin_edges bin_max bin_width "weight";
  rgb ← mapM (mapM rgb_value) (lines_of island_map);
  mret (mkGraphics fitness_edges age_edges weight_edges rgb).

(** ** simulation_nograph.py *)

(** The keyword arguments of [BioSim] that reach code that runs:
    [vis_years], [hist_specs] and [img_years]. Of the others,
    [ymax_animals] and [cmax_animals] are stored and never read, the file
    names go to [Graphics], which stores them, and [log_file] is ignored. *)
Record options := mkOptions {
  opt_vis_years : Z;
  opt_hist_specs : option (list (string * list (string * R)));
  opt_img_years : option Z;
}.

(** The defaults of the signature: [vis_years=1], [hist_specs=None],
    [img_years=None]. *)
Definition default_options : options := mkOptions 1 None None.

(** The [BioSim] object with the attributes that its methods read. *)
Record BioSim := mkBioSim {
  _year : nat;
  _map_instance : Map;
  _herbivores_num : nat;
  _carnivores_num : nat;
  _herbivores_agelist : list Z;
  _herbivores_weightlist : list (option R);
  _carnivores_agelist : list Z;
  _carnivores_weightlist : list (option R);
  vis_years : Z;
  img_years : option Z;
}.

Definition geography_dict_keys : list ascii := ["W"; "L"; "H"; "D"]%char.

(** The checks that open [BioSim.__init__]. *)
Definition check_island_map (island_map : string) : result unit :=
  let rows := lines_of island_map in
  if decide (1 < length (remove_dups (length <$> rows)))%nat then Raise ValueError
  else
    let first_row := default [] (head rows) in
    let last_row := default [] (last rows) in
    first_column ← mapM (fun row => getitem row 0) rows;
    last_column ← mapM (fun row => getitem row (length row - 1)) rows;
    if decide (Exists (fun c => c ≠ "W"%char)
                 (first_row ++ last_row ++ first_column ++ last_column))
    then Raise ValueError
    else if decide (Forall (fun c => c ∈ geography_dict_keys) (concat rows))
    then mret ()
    else Raise ValueError.

(** [BioSim.add_population]. *)
Definition add_population (self : BioSim) (population : list placement)
  : M sys (BioSim * (nat * nat)) :=
  '(m, (animal_num, carnivores_num)) ← add_fauna (_map_instance self) population;
  let '(h, c) :=
    if decide (_year self ≠ 0)%nat
    then (_herbivores_num self + animal_num, _carnivores_num self + carnivores_num)%nat
    else (_herbivores_num self, _carnivores_num self) in
  mret (mkBioSim (_year self) m h c
          (_herbivores_agelist self) (_herbivores_weightlist self)
          (_carnivores_agelist self) (_carnivores_weightlist self)
          (vis_years self) (img_years self),
        (animal_num, carnivores_num)).

(** [BioSim.__init__]; the state it starts from is the one [random.seed]
    leaves. The population is added before the [Graphics] object is built,
    so an error of the population is raised first. *)
Definition BioSim_init (island_map : string) (ini_pop : list placement) (opts : options)
  : M sys BioSim :=
  _ ← lift (check_island_map island_map);
  m ← lift (Map_init island_map);
  let self := mkBioSim 0 m 0 0 [] [] [] [] (opt_vis_years opts) (opt_img_years opts) in
  '(self, (h, c)) ← add_population self ini_pop;
  _ ← lift (Graphics_init island_map (opt_hist_specs opts));
  mret (mkBioSim (_year self) (_map_instance self) h c [] [] [] []
          (opt_vis_years opts) (opt_img_years opts)).

(** The properties [year] and [num_animals]. *)
Definition year (self : BioSim) : nat := _year self.
Definition num_animals (self : BioSim) : nat :=
  (_herbivores_num self + _carnivores_num self)%nat.






(** [BioSim.set_animal_parameters]: the class tables as the call leaves them
    and the exception raised, if any. *)
Definition set_animal_parameters (cfg : Config) (species : string)
    (params : list (string * R)) : Config * option exn :=
  if decide (species = "Herbivore" \/ species = "Carnivore") then
    let '(cfg, e) :=
      if decide (species = "Herbivore") then
        let '(t, e) := update_para (par_H cfg) params in
        (mkConfig t (par_C cfg) (ParamCell cfg), e)
      else (cfg, None) in
    match e with
    | Some _ => (cfg, e)
    | None =>
        if decide (species = "Carnivore") then
          let '(t, e) := update_para (par_C cfg) params in
          (mkConfig (par_H cfg) t (ParamCell cfg), e)
        else (cfg, None)
    end
  else (cfg, Some TypeError).

(** [BioSim.set_landscape_parameters]. *)
Definition set_landscape_parameters (cfg : Config) (landscape : string)
    (params : list (string * R)) : Config * option exn :=
  if decide (landscape = "L" \/ landscape = "H") then
    let '(t, e) := update_cell_para (ParamCell cfg) landscape params in
    (mkConfig (par_H cfg) (par_C cfg) t, e)
  else (cfg, Some TypeError).

(** ** The phases as the specification words them *)

(** The birth phase: every resident attempts [procreate] once, with the
    count [N] taken before the phase; the offspring are kept apart. *)
Fixpoint birth_attempts (par : gmap string R) (N : nat) (residents : list Animal)
  : M sys (list Animal * list Animal) :=
  match residents with
  | [] => mret ([], [])
  | animal :: rest =>
      '(animal', baby) ← procreate par animal N;
      '(rest', babies) ← birth_attempts par N rest;
      mret (animal' :: rest', option_list baby ++ babies)
  end.

Definition birth_phase (par : gmap string R) (residents : list Animal)
  : M sys (list Animal * list Animal) :=
  '(mothers, babies) ← birth_attempts par (length residents) residents;
  mret (mothers ++ babies, babies).











(** A sweep that tests the terrain of each cell as it reaches it. *)
Definition sweep_with (mask : ascii -> bool) (body : Cell -> M sys Cell) (k : nat)
    (cells : list Cell) : M sys (list Cell) :=
  match cells !! k with
  | Some cell => if mask (geography cell) then cell_step body k cells else mret cells
  | None => mret cells
  end.

(** ** Vocabulary of the statements *)

(** The buffer has as many cells as the shape says. *)
Definition Map_wf (m : Map) : Prop :=
  length (cells_array m) = ((shape m).1 * (shape m).2)%nat.

Definition residents_of (c : Cell) : list Animal := animal_list c ++ Carnivores_list c.
Definition herbivores_of (cells : list Cell) : list Animal :=
  concat (animal_list <$> cells).
Definition carnivores_of (cells : list Cell) : list Animal :=
  concat (Carnivores_list <$> cells).
Definition animals_of (cells : list Cell) : list Animal :=
  concat (residents_of <$> cells).

(** An animal without regard to its [moved] flag. *)
Definition unmark (a : Animal) : Animal := set_moved false a.

(** The cells that [Map.migrate] hands to the cell at position [k]. *)
Definition neighbors_of (m : Map) (k : nat) : list nat :=
  get_neighbors m (k / (shape m).2) (k mod (shape m).2).

(** The animal object [x] is a resident of the cell at position [k]. *)
Definition lives_in (cells : list Cell) (k : nat) (x : nat) : Prop :=
  exists c, cells !! k = Some c /\ x ∈ ident <$> residents_of c.

(** What holds of the grid while [Map.migrate] sweeps it, relative to the
    grid [cells0] it started from. *)
Definition migrating (shp : nat * nat) (cells0 cells : list Cell) : Prop :=
  geography <$> cells = geography <$> cells0
  /\ unmark <$> herbivores_of cells ≡ₚ unmark <$> herbivores_of cells0
  /\ unmark <$> carnivores_of cells ≡ₚ unmark <$> carnivores_of cells0
  /\ forall k c a, cells !! k = Some c -> a ∈ residents_of c ->
       exists k0, lives_in cells0 k0 (ident a)
         /\ (k = k0 \/ (k ∈ neighbors_of (mkMap shp cells0) k0 /\ moved a = true)).

(** Every animal has a number for a weight. *)
Definition numeric (l : list Animal) : Prop := Forall (fun a => is_Some (weight a)) l.

(** A weight that is a number and not negative. *)
Definition nonneg_weight (a : Animal) : Prop :=
  exists w, weight a = Some w /\ (0 <= w)%R.

(** The table has every key that the methods of [Animal] read. *)
Definition animal_keys : list string :=
  ["w_birth"; "sigma_birth"; "beta"; "eta"; "a_half"; "phi_age"; "w_half";
   "phi_weight"; "mu"; "gamma"; "zeta"; "xi"; "omega"; "F"].

Definition complete (par : gmap string R) : Prop :=
  Forall (fun k => is_Some (par !! k)) animal_keys.

(** The two parameters [procreate] hands to [lognormvariate]. *)
Definition log_mu (w_birth sigma_birth : R) : R :=
  ln (w_birth ^ 2 / sqrt (w_birth ^ 2 + sigma_birth ^ 2)).
Definition log_sigma (w_birth sigma_birth : R) : R :=
  sqrt (ln (1 + sigma_birth ^ 2 / w_birth ^ 2)).

(** A nondecreasing array. *)
Definition nondecreasing (arr : list R) : Prop :=
  forall i j x y, (i <= j)%nat -> arr !! i = Some x -> arr !! j = Some y -> (x <= y)%R.

(** The total weight of a list of prey. *)
Definition total_weight (l : list Animal) : R := py_sum (weight_key <$> l).

End Model.

(** ** A concrete random source *)

(** A source that replays a fixed tape of uniform draws; it hands out [baby]
    for every log-normal draw and shuffles by reversing. *)
Definition replay (tape : nat -> R) (baby : R) : RandomSource :=
  {| rng := nat;
     random := fun n => (tape n, S n);
     lognormvariate := fun _ _ n => (baby, S n);
     shuffle := fun A l n => (reverse l, S n) |}.

(** The source that draws one half every time, and a state of it. *)
Definition sample_source : RandomSource := replay (fun _ => 1 / 2)%R 1.
Definition sample_sys : @sys sample_source := @mkSys sample_source 0%nat 0%nat.

(** The source that draws 0.99 every time: every hunt with a kill
    probability of at least one in a hundred succeeds. *)
Definition lucky_source : RandomSource := replay (fun _ => 99 / 100)%R 1.
Definition lucky_sys : @sys lucky_source := @mkSys lucky_source 0%nat 0%nat.

(** The island of the tests: one Lowland cell surrounded by Water. *)
Definition small_island : string := "WWW
WLW
WWW".

(** The map of that island with three herbivores and a carnivore on the
    Lowland cell. *)
Definition small_map : Map :=
  mkMap (3, 3)%nat
    ((Cell_init <$> ["W"; "W"; "W"; "W"]%char)
     ++ [mkCell "L" 0
           [Animal_init 0 5 (Some 20%R); Animal_init 1 5 (Some 20%R);
            Animal_init 2 3 (Some 10%R)]
           [Animal_init 3 5 (Some 20%R)]]
     ++ (Cell_init <$> ["W"; "W"; "W"; "W"]%char)).

(** The island of the tests of [Map], four by four, with three herbivores
    and a carnivore on its Lowland cell. *)
Definition test_map : Map :=
  mkMap (4, 4)%nat
    ((Cell_init <$> ["W"; "W"; "W"; "W"; "W"]%char)
     ++ [mkCell "L" 0
           [Animal_init 0 5 (Some 20%R); Animal_init 1 5 (Some 20%R);
            Animal_init 2 3 (Some 10%R)]
           [Animal_init 3 5 (Some 20%R)]]
     ++ (Cell_init <$> ["D"; "W"; "W"; "H"; "H"; "W"; "W"; "W"; "W"; "W"]%char)).

(** Two records for the Lowland cell, one herbivore each. *)
Definition two_records : list placement :=
  [mkPlacement (2, 2)%Z [mkFauna "Herbivore" 5 (Some 20%R)];
   mkPlacement (2, 2)%Z [mkFauna "Herbivore" 5 (Some 20%R)]].

(** ** Vocabulary of the further properties *)

(** A histogram specification that [Graphics] accepts: it has both keys,
    its bin width is positive and it asks for at most a million bins. *)
Definition complete_spec (item : string * list (string * R)) : Prop :=
  exists hi delta,
    dict_get item.2 "max" = Some hi /\ dict_get item.2 "delta" = Some delta
    /\ (0 < delta)%R /\ (hi <= 1000000 * delta)%R.

(** A histogram specification without ['max'] or without ['delta']. *)
Definition lacking_spec (item : string * list (string * R)) : Prop :=
  dict_get item.2 "max" = None \/ dict_get item.2 "delta" = None.

(** An animal one year on: a year older, its weight reduced by the share
    [eta] and not below zero. *)
Definition aged (eta : R) (a a' : Animal) : Prop :=
  ident a' = ident a /\ moved a' = moved a /\ age a' = (age a + 1)%Z
  /\ exists w, weight a = Some w /\ weight a' = Some (Rmax 0 (w - w * eta)).

(** The key of [ParamCell] that belongs to a landscape letter. *)
Definition f_max_key (landscape : string) : string :=
  if decide (landscape = "L") then "f_max_L" else "f_max_H".

(** The fodder a cell is given by [produce], and a cell after
    [reset_fodder]. *)
Definition supplied (f_max_L f_max_H : R) (c : Cell) : Cell :=
  if decide (geography c = "L"%char) then set_fodder (fodder c + f_max_L) c
  else if decide (geography c = "H"%char) then set_fodder (fodder c + f_max_H) c
  else c.

Definition cleared (c : Cell) : Cell :=
  if decide (geography c = "W"%char) then c else set_fodder 0 c.

(** What the death of a cell leaves of the list [l]: the dead [died] and the
    survivors [l']. *)
Definition buried (l died l' : list Animal) : Prop :=
  died `sublist_of` l /\ l' `sublist_of` l /\ l ≡ₚ died ++ l'
  /\ (forall a, a ∈ l -> weight a = Some 0%R -> a ∈ died)
  /\ Forall (fun a => weight a ≠ Some 0%R) l'.

(** A carnivore after its meal: the same object, heavier by [beta] times a
    weight that is not negative. *)
Definition fed (beta : R) (c c' : Animal) : Prop :=
  ident c' = ident c /\ age c' = age c /\ moved c' = moved c
  /\ exists w x, weight c = Some w /\ (0 <= x)%R /\ weight c' = Some (w + beta * x)%R.

(** From the heaviest to the lightest. *)
Definition heaviest_first (l : list Animal) : Prop :=
  StronglySorted (fun a b => (weight_key b <= weight_key a)%R) l.

(** From the lightest to the heaviest. *)
Definition lightest_first (l : list Animal) : Prop :=
  StronglySorted (fun a b => (weight_key a <= weight_key b)%R) l.

(** The cell of an accepted map: one of the four terrains, bare. *)
Definition bare (c : Cell) : Prop :=
  geography c ∈ geography_dict_keys /\ fodder c = 0%R
  /\ animal_list c = [] /\ Carnivores_list c = [].

(** The number of entries of a species in a population list. *)
Definition count_species (sp : string) (l : list fauna) : nat :=
  length (filter (fun f => species f = sp) l).

(** The total over the records of a population. *)
Definition count_population (sp : string) (population : list placement) : nat :=
  sum_list_with (fun d => count_species sp (pop d)) population.

(** A location that numpy accepts on the grid, after [add_fauna] has
    taken one off each coordinate. *)
Definition valid_loc (m : Map) (d : placement) : Prop :=
  (- Z.of_nat (shape m).1 <= (loc d).1 - 1 < Z.of_nat (shape m).1)%Z
  /\ (- Z.of_nat (shape m).2 <= (loc d).2 - 1 < Z.of_nat (shape m).2)%Z.

(** The animal that [add_fauna] makes from an entry. *)
Definition made_from (f : fauna) (a : Animal) : Prop :=
  age a = fauna_age f /\ weight a = fauna_weight f /\ moved a = false.

(** The objects created between two states of the allocator. *)
Definition created (n n' : nat) (l : list Animal) : Prop :=
  Forall (fun a => n <= ident a < n')%nat l /\ NoDup (ident <$> l).

(** The counts [add_fauna] returns: those of the last record. *)
Definition last_counts (population : list placement) (counts : nat * nat) : nat * nat :=
  match last population with
  | Some d => (count_species "Herbivore" (pop d), count_species "Carnivore" (pop d))
  | None => counts
  end.







(** Every entry of the population has a weight that is a number and not
    negative. *)
Definition weighed (population : list placement) : Prop :=
  Forall (fun d => Forall (fun f => exists w, fauna_weight f = Some w /\ (0 <= w)%R) (pop d))
    population.

Section Soundness.
Context `{RS : RandomSource}.


(** The animals of a grid are sound: no weight is missing or negative, no
    object occurs twice, and every object was handed out by the allocator. *)
Definition herd_ok (cells : list Cell) (s : sys) : Prop :=
  Forall nonneg_weight (animals_of cells)
  /\ NoDup (ident <$> animals_of cells)
  /\ Forall (fun a => (ident a < next_id s)%nat) (animals_of cells).



End Soundness.

(** * Properties *)

(** ** Reasoning about the monads *)

Lemma result_bind_Ok {A B} (m : result A) (f : A -> result B) (b : B) :
  m ≫= f = Ok b -> exists a, m = Ok a /\ f a = Ok b.
Proof. destruct m as [a|e]; simpl; [eauto | discriminate]. Qed.

Lemma M_bind_Ok {S A B} (m : M S A) (f : A -> M S B) (s : S) (r : B * S) :
  (m ≫= f) s = Ok r -> exists a s1, m s = Ok (a, s1) /\ f a s1 = Ok r.
Proof.
  unfold mbind, M_bind. destruct (m s) as [[a s1]|e]; [eauto | discriminate].
Qed.

Lemma M_bind_run {S A B} (m : M S A) (f : A -> M S B) (s s1 : S) (a : A) :
  m s = Ok (a, s1) -> (m ≫= f) s = f a s1.
Proof. unfold mbind, M_bind. by intros ->. Qed.

Lemma M_bind_raise {S A B} (m : M S A) (f : A -> M S B) (s : S) (e : exn) :
  m s = Raise e -> (m ≫= f) s = Raise e.
Proof. unfold mbind, M_bind. by intros ->. Qed.

Lemma lift_Ok_inv {S A} (r : result A) (s s' : S) (a : A) :
  lift r s = Ok (a, s') -> r = Ok a /\ s' = s.
Proof. destruct r; simpl; [|discriminate]. intros [= -> ->]. done. Qed.

Lemma lift_run {S A} (a : A) (s : S) : lift (Ok a) s = Ok (a, s).
Proof. done. Qed.

Lemma lift_bind_run {S A B} (r : result A) (a : A) (f : A -> M S B) (s : S) :
  r = Ok a -> (lift r ≫= f) s = f a s.
Proof. by intros ->. Qed.

Lemma param_Some (par : gmap string R) (k : string) (v : R) :
  par !! k = Some v -> param par k = Ok v.
Proof. unfold param. by intros ->. Qed.

Lemma param_Ok_inv (par : gmap string R) (k : string) (v : R) :
  param par k = Ok v -> par !! k = Some v.
Proof. unfold param. destruct (par !! k); [|discriminate]. by intros [= ->]. Qed.

Lemma complete_lookup (par : gmap string R) (k : string) :
  complete par -> k ∈ animal_keys -> exists v, param par k = Ok v.
Proof.
  intros Hc Hk. unfold complete in Hc. rewrite Forall_forall in Hc.
  destruct (Hc k Hk) as [v Hv]. exists v. by apply param_Some.
Qed.

Lemma lift_bind_Ok {S A B} (r : result A) (f : A -> M S B) (s : S) (x : B * S) :
  (lift r ≫= f) s = Ok x -> exists a, r = Ok a /\ f a s = Ok x.
Proof. destruct r as [a|e]; [eauto | discriminate]. Qed.

Lemma mret_Ok_inv {S A} (a b : A) (s s' : S) :
  (mret a : M S A) s = Ok (b, s') -> a = b /\ s = s'.
Proof. intros [= -> ->]. done. Qed.

(** Breaking up a hypothesis that a monadic computation returned. *)
Tactic Notation "inv_bind" hyp(H) "as" ident(a) ident(s) ident(Hm) :=
  apply M_bind_Ok in H as (a & s & Hm & H).
Tactic Notation "inv_rbind" hyp(H) "as" ident(a) ident(Hm) :=
  apply result_bind_Ok in H as (a & Hm & H).
Tactic Notation "inv_lift" hyp(H) "as" ident(a) ident(Hm) :=
  apply lift_bind_Ok in H as (a & Hm & H).
Tactic Notation "inv_ret" hyp(H) :=
  apply mret_Ok_inv in H as [H ?]; simplify_eq.

(** The keys of a complete table, one by one. *)
Ltac get_param Hc k v Hv :=
  destruct (complete_lookup _ k Hc ltac:(unfold animal_keys; set_solver)) as [v Hv].

Section Proofs.
Context `{RS : RandomSource}.

(** ** The weighted coin *)

Lemma weighted_flip_run (prob : R) (s : sys) :
  weighted_flip prob s =
    Ok (if decide ((random (gen s)).1 < 1 - prob)%R then false else true,
        mkSys _ (random (gen s)).2 (next_id s)).
Proof.
  unfold weighted_flip, choices_bool.
  destruct (decide (1 - prob + prob <= 0)%R) as [H|_]; [lra|].
  unfold mbind, M_bind, draw_random. destruct (random (gen s)) as [u g]; simpl.
  unfold mret, M_ret. do 2 f_equal.
  replace (u * (1 - prob + prob))%R with u by lra. done.
Qed.

Lemma weighted_flip_state (prob : R) (s s' : sys) (b : bool) :
  weighted_flip prob s = Ok (b, s') -> next_id s' = next_id s.
Proof. rewrite weighted_flip_run. by intros [= _ <-]. Qed.

(** ** Fitness *)

Lemma fitness_formula_range (pm x xh phi : R) :
  (0 < fitness_formula pm x xh phi < 1)%R.
Proof.
  unfold fitness_formula.
  pose proof (exp_pos (pm * phi * (x - xh))) as He.
  unfold Rdiv. rewrite Rmult_1_l. split.
  - apply Rinv_0_lt_compat. lra.
  - rewrite <- Rinv_1 at 2. apply Rinv_lt_contravar; lra.
Qed.

Lemma fitness_total (par : gmap string R) (a : Animal) :
  complete par -> is_Some (weight a) -> exists phi, fitness par a = Ok phi.
Proof.
  intros Hc [w Hw]. unfold fitness. rewrite Hw. simpl.
  destruct (decide (w <= 0)%R); [by eexists|].
  unfold fitness_calculation.
  get_param Hc "a_half" v1 H1. get_param Hc "phi_age" v2 H2.
  get_param Hc "w_half" v3 H3. get_param Hc "phi_weight" v4 H4.
  rewrite H1, H2, H3, H4. simpl. by eexists.
Qed.

Lemma fitness_range (par : gmap string R) (a : Animal) (phi : R) :
  fitness par a = Ok phi -> (0 <= phi < 1)%R.
Proof.
  unfold fitness. intros H. inv_rbind H as w Hw.
  destruct (decide (w <= 0)%R).
  - injection H as <-. lra.
  - unfold fitness_calculation in H.
    inv_rbind H as a_half H1. inv_rbind H as phi_age H2.
    inv_rbind H as w_half H3. inv_rbind H as phi_weight H4.
    injection H as <-.
    pose proof (fitness_formula_range 1 (IZR (age a)) a_half phi_age).
    pose proof (fitness_formula_range (-1) w w_half phi_weight). nra.
Qed.

Lemma fitness_None (par : gmap string R) (a : Animal) :
  weight a = None -> fitness par a = Raise TypeError.
Proof. unfold fitness. by intros ->. Qed.

End Proofs.

Section Procreate.
Context `{RS : RandomSource}.


(** ** [procreate] *)


Lemma birth_divisions (w_birth sigma_birth : R) :
  w_birth ≠ 0%R ->
  pydiv (w_birth ^ 2) (sqrt (w_birth ^ 2 + sigma_birth ^ 2))
    = Ok (w_birth ^ 2 / sqrt (w_birth ^ 2 + sigma_birth ^ 2))%R
  /\ pydiv (sigma_birth ^ 2) (w_birth ^ 2) = Ok (sigma_birth ^ 2 / w_birth ^ 2)%R.
Proof.
  intros Hw. unfold pydiv.
  assert (0 < w_birth ^ 2)%R as Hp.
  { simpl. destruct (Rdichotomy _ _ Hw); nra. }
  assert (0 <= sigma_birth ^ 2)%R as Hs by apply pow2_ge_0.
  assert (0 < sqrt (w_birth ^ 2 + sigma_birth ^ 2))%R by (apply sqrt_lt_R0; lra).
  split; case_decide; try done; lra.
Qed.

(** What a call of [procreate] that returns has done. *)
Lemma procreate_inv (par : gmap string R) (self self' : Animal) (N : nat)
    (baby : option Animal) (s s' : sys) :
  procreate par self N s = Ok ((self', baby), s') ->
  exists w w_birth sigma_birth zeta gamma phi coin s1,
    weight self = Some w
    /\ param par "w_birth" = Ok w_birth
    /\ param par "sigma_birth" = Ok sigma_birth
    /\ param par "zeta" = Ok zeta
    /\ param par "gamma" = Ok gamma
    /\ fitness par self = Ok phi
    /\ weighted_flip (Rmin 1 (gamma * phi * INR N)) s = Ok (coin, s1)
    /\ if bool_decide (w >= (w_birth + sigma_birth) * zeta)%R
          && bool_decide (1 < age self)%Z && coin
       then exists xi baby_weight s2,
         param par "xi" = Ok xi
         /\ draw_lognormvariate (log_mu w_birth sigma_birth)
              (log_sigma w_birth sigma_birth) s1 = Ok (baby_weight, s2)
         /\ if decide (w - xi * baby_weight >= 0)%R
            then self' = set_weight (w - xi * baby_weight) self
                 /\ baby = Some (Animal_init (next_id s2) 0 (Some baby_weight))
                 /\ s' = mkSys _ (gen s2) (S (next_id s2))
            else self' = self /\ baby = None /\ s' = s2
       else self' = self /\ baby = None /\ s' = s1.
Proof.
  unfold procreate. intros H.
  inv_lift H as wb Ewb. inv_lift H as sb Esb.
  inv_lift H as q Eq. inv_lift H as q' Eq'.
  inv_lift H as gamma Egamma. inv_lift H as phi Ephi.
  inv_lift H as zeta Ezeta. inv_lift H as w Ew.
  inv_bind H as coin s1 Hcoin.
  assert (weight self = Some w) as Hw.
  { destruct (weight self); simpl in Ew; congruence. }
  unfold pydiv in Eq, Eq'.
  destruct (decide (sqrt _ = 0)%R); [discriminate Eq|].
  destruct (decide (wb ^ 2 = 0)%R); [discriminate Eq'|].
  injection Eq as <-. injection Eq' as <-.
  exists w, wb, sb, zeta, gamma, phi, coin, s1.
  repeat (split; [done|]).
  destruct (bool_decide (w >= (wb + sb) * zeta)%R && bool_decide (1 < age self)%Z && coin).
  - inv_bind H as bw s2 Hbw. inv_lift H as xi Hxi. exists xi, bw, s2.
    split; [done|]. split; [done|].
    case_decide.
    + inv_bind H as id s3 Hid. unfold fresh_id in Hid. injection Hid as <- <-.
      inv_ret H. done.
    + inv_ret H. done.
  - inv_ret H. done.
Qed.

(** [procreate] returns for an animal with a weight, a complete table and
    a birth weight that is not zero. *)
Lemma procreate_total (par : gmap string R) (self : Animal) (N : nat) (s : sys)
    (w_birth : R) :
  complete par -> par !! "w_birth" = Some w_birth -> w_birth ≠ 0%R ->
  is_Some (weight self) ->
  exists r, procreate par self N s = Ok r.
Proof.
  intros Hc Hwb Hne [w Hw]. unfold procreate.
  get_param Hc "sigma_birth" sb Hsb. get_param Hc "gamma" gamma Hgamma.
  get_param Hc "zeta" zeta Hzeta. get_param Hc "xi" xi Hxi.
  destruct (fitness_total par self Hc) as [phi Hphi]; [by eexists|].
  destruct (birth_divisions w_birth sb Hne) as [E1 E2].
  erewrite lift_bind_run; [|by apply param_Some].
  erewrite lift_bind_run; [|done].
  erewrite lift_bind_run; [|done].
  erewrite lift_bind_run; [|done].
  erewrite lift_bind_run; [|done].
  erewrite lift_bind_run; [|done].
  erewrite lift_bind_run; [|done].
  erewrite lift_bind_run; [|by rewrite Hw].
  erewrite M_bind_run; [|apply weighted_flip_run].
  destruct (_ && _ && _); [|by eexists].
  unfold mbind at 1, M_bind at 1, draw_lognormvariate.
  destruct (lognormvariate _ _ _) as [bw g].
  erewrite lift_bind_run; [|done].
  case_decide; by eexists.
Qed.

(** C6: [procreate] grants a birth only to a mother that is heavy enough and
    older than one year and wins the coin flip of probability
    [min(1, gamma * fitness * N)]; it never grants one at age one or below;
    and when the mother cannot pay [xi] times the drawn birth weight the birth
    is retracted, leaving no offspring and the mother as she was. *)
Theorem procreate_birth_conditions (par : gmap string R) (self : Animal) (N : nat)
    (s : sys) (w_birth : R) :
  complete par -> par !! "w_birth" = Some w_birth -> w_birth ≠ 0%R ->
  is_Some (weight self) ->
  exists self' baby s' w sigma_birth zeta gamma xi phi coin s1,
    procreate par self N s = Ok ((self', baby), s')
    /\ weight self = Some w
    /\ par !! "sigma_birth" = Some sigma_birth /\ par !! "zeta" = Some zeta
    /\ par !! "gamma" = Some gamma /\ par !! "xi" = Some xi
    /\ fitness par self = Ok phi
    /\ weighted_flip (Rmin 1 (gamma * phi * INR N)) s = Ok (coin, s1)
    /\ (is_Some baby ->
          (w >= zeta * (w_birth + sigma_birth))%R /\ (age self > 1)%Z /\ coin = true)
    /\ ((age self <= 1)%Z -> baby = None)
    /\ ((w >= zeta * (w_birth + sigma_birth))%R -> (age self > 1)%Z -> coin = true ->
          exists baby_weight s2,
            draw_lognormvariate (log_mu w_birth sigma_birth)
              (log_sigma w_birth sigma_birth) s1 = Ok (baby_weight, s2)
            /\ ((w - xi * baby_weight >= 0)%R ->
                  baby = Some (Animal_init (next_id s2) 0 (Some baby_weight))
                  /\ self' = set_weight (w - xi * baby_weight) self)
            /\ ((w - xi * baby_weight < 0)%R -> baby = None /\ self' = self))
    /\ (baby = None -> self' = self).
Proof.
  intros Hc Hwb Hne Hnum.
  destruct (procreate_total par self N s w_birth Hc Hwb Hne Hnum) as [[[self' baby] s'] Hrun].
  destruct (procreate_inv _ _ _ _ _ _ _ Hrun)
    as (w & wb & sb & zeta & gamma & phi & coin & s1
        & Hw & Ewb & Esb & Ezeta & Egamma & Ephi & Hcoin & Hrest).
  apply param_Ok_inv in Ewb, Esb, Ezeta, Egamma.
  assert (wb = w_birth) as -> by congruence.
  get_param Hc "xi" xi Hxi. apply param_Ok_inv in Hxi.
  exists self', baby, s', w, sb, zeta, gamma, xi, phi, coin, s1.
  repeat (split; [done|]).
  destruct (bool_decide (w >= (w_birth + sb) * zeta)%R) eqn:Hheavy;
    destruct (bool_decide (1 < age self)%Z) eqn:Hadult;
    destruct coin; simpl in Hrest;
    try apply bool_decide_eq_true in Hheavy; try apply bool_decide_eq_false in Hheavy;
    try apply bool_decide_eq_true in Hadult; try apply bool_decide_eq_false in Hadult.
  2-8: destruct Hrest as (-> & -> & ->);
       (split; [by intros [? ?]|]); (split; [done|]);
       (split; [intros; first [lra | lia | done]|done]).
  destruct Hrest as (xi' & bw & s2 & Exi & Hbw & Hrest).
  apply param_Ok_inv in Exi. assert (xi' = xi) as -> by congruence.
  split; [intros _; split; [lra|split; [lia|done]]|].
  split; [lia|].
  destruct (decide (w - xi * bw >= 0)%R) as [Hpay|Hpay].
  - destruct Hrest as (-> & -> & ->).
    split; [|done]. intros _ _ _. exists bw, s2. split; [done|].
    split; [done|]. intros. lra.
  - destruct Hrest as (-> & -> & ->).
    split; [|done]. intros _ _ _. exists bw, s2. split; [done|].
    split; [intros; lra|done].
Qed.

End Procreate.

Lemma Herbivores_parameter_complete : complete Herbivores_parameter.
Proof. unfold complete, animal_keys. repeat constructor; by eexists. Qed.

Lemma procreate_birth_conditions_witness :
  exists self' baby s',
    procreate (RS := sample_source) Herbivores_parameter
      (Animal_init 0 5 (Some 50%R)) 10 sample_sys = Ok ((self', baby), s').
Proof.
  destruct (procreate_birth_conditions (RS := sample_source) Herbivores_parameter
              (Animal_init 0 5 (Some 50%R)) 10 sample_sys 8
              Herbivores_parameter_complete eq_refl ltac:(lra) ltac:(by eexists))
    as (self' & baby & s' & _ & _ & _ & _ & _ & _ & _ & _ & H & _).
  exists self', baby, s'. exact H.
Defined.

Section Death.
Context `{RS : RandomSource}.

(** ** [die], [weight_loss_per_year] and the missing weight *)

Lemma weight_is_zero_true (self : Animal) :
  weight_is_zero self = true <-> weight self = Some 0%R.
Proof.
  unfold weight_is_zero. destruct (weight self) as [w|]; [|done].
  rewrite bool_decide_eq_true. split; congruence.
Qed.

Lemma die_flip (par : gmap string R) (self : Animal) (s : sys) (omega phi : R) :
  weight_is_zero self = false ->
  par !! "omega" = Some omega -> fitness par self = Ok phi ->
  die par self s = weighted_flip (omega * (1 - phi)) s.
Proof.
  intros Hz Ho Hphi. unfold die. rewrite Hz.
  erewrite lift_bind_run; [|by apply param_Some].
  erewrite lift_bind_run; done.
Qed.

Lemma die_total (par : gmap string R) (self : Animal) (s : sys) :
  complete par -> is_Some (weight self) -> exists r, die par self s = Ok r.
Proof.
  intros Hc Hw. destruct (weight_is_zero self) eqn:Hz.
  - unfold die. rewrite Hz. by eexists.
  - get_param Hc "omega" omega Ho. apply param_Ok_inv in Ho.
    destruct (fitness_total par self Hc Hw) as [phi Hphi].
    rewrite (die_flip par self s omega phi Hz Ho Hphi), weighted_flip_run. by eexists.
Qed.

Lemma weight_loss_total (par : gmap string R) (self : Animal) :
  complete par -> is_Some (weight self) ->
  exists self', weight_loss_per_year par self = Ok self'.
Proof.
  intros Hc [w Hw]. unfold weight_loss_per_year.
  get_param Hc "eta" eta He. rewrite He, Hw. simpl. by eexists.
Qed.

(** C10: an animal built with the default weight has no weight, and
    [fitness], [weight_loss_per_year], [procreate] and [die] raise a type
    error on it; with a number for a weight each of them returns. *)
Theorem default_weight_type_error (par : gmap string R) (id : nat) (a : Z) (N : nat)
    (s : sys) (w_birth : R) :
  complete par -> par !! "w_birth" = Some w_birth -> w_birth ≠ 0%R ->
  weight (Animal_init id a default_weight) = None
  /\ fitness par (Animal_init id a default_weight) = Raise TypeError
  /\ weight_loss_per_year par (Animal_init id a default_weight) = Raise TypeError
  /\ procreate par (Animal_init id a default_weight) N s = Raise TypeError
  /\ die par (Animal_init id a default_weight) s = Raise TypeError
  /\ forall w : R,
       (exists phi, fitness par (Animal_init id a (Some w)) = Ok phi)
       /\ (exists self', weight_loss_per_year par (Animal_init id a (Some w)) = Ok self')
       /\ (exists r, procreate par (Animal_init id a (Some w)) N s = Ok r)
       /\ (exists r, die par (Animal_init id a (Some w)) s = Ok r).
Proof.
  intros Hc Hwb Hne.
  split; [done|]. split; [done|]. split; [|split; [|split]].
  - unfold weight_loss_per_year. get_param Hc "eta" eta He. by rewrite He.
  - unfold procreate.
    get_param Hc "sigma_birth" sb Hsb. get_param Hc "gamma" gamma Hgamma.
    destruct (birth_divisions w_birth sb Hne) as [E1 E2].
    erewrite lift_bind_run; [|by apply param_Some].
    erewrite lift_bind_run; [|done].
    erewrite lift_bind_run; [|done].
    erewrite lift_bind_run; [|done].
    erewrite lift_bind_run; [|done].
    done.
  - unfold die. simpl. get_param Hc "omega" omega Ho.
    erewrite lift_bind_run; [|done]. done.
  - intros w.
    assert (is_Some (weight (Animal_init id a (Some w)))) as Hw by (by eexists).
    split; [by apply fitness_total|]. split; [by apply weight_loss_total|].
    split; [by eapply procreate_total|by apply die_total].
Qed.

(** C8, as the code has it: an animal of weight zero dies whatever the
    source draws; otherwise [die] is the coin flip of probability
    [omega * (1 - fitness)], which never succeeds for [omega = 0] and always
    succeeds for [omega = 10] when the fitness is at most nine tenths. *)
Theorem die_cases {HL : RandomLaws RS} (par : gmap string R) (self : Animal) (s : sys)
    (w omega phi : R) :
  weight self = Some w -> par !! "omega" = Some omega -> fitness par self = Ok phi ->
  (w = 0%R -> die par self s = Ok (true, s))
  /\ (w ≠ 0%R -> die par self s = weighted_flip (omega * (1 - phi)) s)
  /\ ((w > 0)%R -> omega = 0%R -> exists s', die par self s = Ok (false, s'))
  /\ ((w > 0)%R -> omega = 10%R -> (phi <= 9 / 10)%R ->
        exists s', die par self s = Ok (true, s')).
Proof.
  intros Hw Ho Hphi.
  assert (w ≠ 0%R -> weight_is_zero self = false) as Hnz.
  { intros Hne. unfold weight_is_zero. rewrite Hw. by apply bool_decide_eq_false. }
  pose proof (random_range (gen s)) as Hu.
  split; [|split; [|split]].
  - intros ->. unfold die. by rewrite (proj2 (weight_is_zero_true self) Hw).
  - intros Hne. apply die_flip; [by apply Hnz|done|done].
  - intros Hpos ->. rewrite (die_flip par self s 0 phi); [|apply Hnz; lra|done|done].
    rewrite weighted_flip_run. case_decide; [by eexists|lra].
  - intros Hpos -> Hfit. rewrite (die_flip par self s 10 phi); [|apply Hnz; lra|done|done].
    rewrite weighted_flip_run. case_decide; [lra|by eexists].
Qed.

End Death.

(** The fitness of a new-born herbivore of weight 1000 exceeds 0.95. *)
Lemma exp_neg_bound (x : R) : (0 < x)%R -> (exp (- x) < / (1 + x))%R.
Proof.
  intros Hx. rewrite exp_Ropp. apply Rinv_lt_contravar.
  - pose proof (exp_pos x). nra.
  - apply exp_ineq1. lra.
Qed.

Lemma logistic_lower (e b : R) :
  (0 < e < b)%R -> (1 / (1 + b) < 1 / (1 + e))%R.
Proof.
  intros [He Hb]. unfold Rdiv. rewrite !Rmult_1_l.
  apply Rinv_lt_contravar; nra.
Qed.

Lemma fat_herbivore_fitness :
  exists phi, fitness (<["omega" := 10%R]> Herbivores_parameter)
                (Animal_init 0 0 (Some 1000%R)) = Ok phi /\ (95 / 100 < phi)%R.
Proof.
  eexists. split.
  - unfold fitness. simpl. destruct (decide (1000 <= 0)%R); [lra|]. reflexivity.
  - unfold fitness_formula. cbn [snd].
    replace (1 * (6 / 10) * (0 - 40))%R with (- (24))%R by lra.
    replace (-1 * (1 / 10) * (1000 - 10))%R with (- (99))%R by lra.
    pose proof (exp_neg_bound 24 ltac:(lra)) as H1.
    pose proof (exp_neg_bound 99 ltac:(lra)) as H2.
    pose proof (logistic_lower (exp (- (24))) (/ (1 + 24))
                  (conj (exp_pos _) H1)) as L1.
    pose proof (logistic_lower (exp (- (99))) (/ (1 + 99))
                  (conj (exp_pos _) H2)) as L2.
    replace (1 / (1 + / (1 + 24)))%R with (25 / 26)%R in L1 by (field; lra).
    replace (1 / (1 + / (1 + 99)))%R with (100 / 101)%R in L2 by (field; lra).
    nra.
Qed.

(** With [omega = 10] a fit animal can survive: [die] returns false for a
    new-born herbivore of weight 1000 when the source draws one half. *)
Lemma die_omega_10_may_return_false :
  die (RS := sample_source) (<["omega" := 10%R]> Herbivores_parameter)
    (Animal_init 0 0 (Some 1000%R)) sample_sys
  = Ok (false, @mkSys sample_source 1%nat 0%nat).
Proof.
  destruct fat_herbivore_fitness as (phi & Hphi & Hbound).
  rewrite (die_flip _ _ _ 10 phi); [| |done|done].
  - rewrite weighted_flip_run. simpl. case_decide; [done|lra].
  - unfold weight_is_zero. simpl. apply bool_decide_eq_false. lra.
Qed.

Lemma sample_source_laws : RandomLaws sample_source.
Proof.
  split.
  - intros g. simpl. lra.
  - intros A l g. simpl. apply reverse_Permutation.
Qed.

Lemma starved_fitness :
  fitness Herbivores_parameter (Animal_init 0 5 (Some 0%R)) = Ok 0%R.
Proof. unfold fitness. simpl. case_decide; [done|lra]. Qed.

Lemma die_cases_witness :
  die (RS := sample_source) Herbivores_parameter (Animal_init 0 5 (Some 0%R)) sample_sys
  = Ok (true, sample_sys).
Proof.
  exact (proj1 (die_cases (RS := sample_source) (HL := sample_source_laws)
                  Herbivores_parameter
                  (Animal_init 0 5 (Some 0%R)) sample_sys 0 (4 / 10) 0
                  eq_refl eq_refl starved_fitness) eq_refl).
Defined.

Lemma default_weight_type_error_witness :
  procreate (RS := sample_source) Herbivores_parameter
    (Animal_init 0 default_age default_weight) 10 sample_sys = Raise TypeError
  /\ die (RS := sample_source) Herbivores_parameter
       (Animal_init 0 default_age default_weight) sample_sys = Raise TypeError.
Proof.
  destruct (default_weight_type_error (RS := sample_source) Herbivores_parameter
              0 default_age 10 sample_sys 8
              Herbivores_parameter_complete eq_refl ltac:(lra))
    as (_ & _ & _ & Hp & Hd & _).
  exact (conj Hp Hd).
Defined.

(** ** Cumulative sums and the binary search *)

Lemma cumsum_from_length (acc : R) (l : list R) :
  length (cumsum_from acc l) = length l.
Proof. revert acc. induction l as [|x l IH]; intros acc; simpl; [done|]. by rewrite IH. Qed.

Lemma py_sum_app (l1 l2 : list R) :
  py_sum (l1 ++ l2) = (py_sum l1 + py_sum l2)%R.
Proof. induction l1 as [|x l1 IH]; simpl; [lra|]. rewrite IH. lra. Qed.

Lemma py_sum_nonneg (l : list R) :
  Forall (fun x => 0 <= x)%R l -> (0 <= py_sum l)%R.
Proof. induction 1; simpl; lra. Qed.

Lemma cumsum_from_lookup (acc : R) (l : list R) (i : nat) :
  (i < length l)%nat ->
  cumsum_from acc l !! i = Some (acc + py_sum (take (S i) l))%R.
Proof.
  revert acc i. induction l as [|x l IH]; intros acc i Hi; simpl in *; [lia|].
  destruct i as [|i]; simpl.
  - f_equal. lra.
  - rewrite IH by lia. f_equal. simpl. lra.
Qed.

Lemma cumsum_lookup (l : list R) (i : nat) :
  (i < length l)%nat -> cumsum l !! i = Some (py_sum (take (S i) l)).
Proof.
  intros Hi. unfold cumsum. rewrite cumsum_from_lookup by done. f_equal. lra.
Qed.

Lemma cumsum_lookup_inv (l : list R) (i : nat) (x : R) :
  cumsum l !! i = Some x -> (i < length l)%nat /\ x = py_sum (take (S i) l).
Proof.
  intros H. assert (i < length l)%nat as Hi.
  { apply lookup_lt_Some in H. unfold cumsum in H. by rewrite cumsum_from_length in H. }
  rewrite cumsum_lookup in H by done. split; congruence.
Qed.

Lemma py_sum_take_mono (l : list R) (i j : nat) :
  Forall (fun x => 0 <= x)%R l -> (i <= j)%nat ->
  (py_sum (take i l) <= py_sum (take j l))%R.
Proof.
  intros Hl Hij.
  replace j with (i + (j - i))%nat by lia.
  rewrite <- take_take_drop. rewrite py_sum_app.
  assert (0 <= py_sum (take (j - i) (drop i l)))%R; [|lra].
  apply py_sum_nonneg. apply Forall_take, Forall_drop. done.
Qed.

Lemma cumsum_nondecreasing (l : list R) :
  Forall (fun x => 0 <= x)%R l -> nondecreasing (cumsum l).
Proof.
  intros Hl i j x y Hij Hx Hy.
  apply cumsum_lookup_inv in Hx as [_ ->]. apply cumsum_lookup_inv in Hy as [_ ->].
  apply py_sum_take_mono; [done|lia].
Qed.

(** On a nondecreasing array the binary search ends on the first entry
    that is not below the key. *)
Lemma binsearch_left_spec (fuel : nat) (arr : list R) (key : R) (lo hi : nat) :
  nondecreasing arr ->
  (lo <= hi <= length arr)%nat -> (hi - lo <= fuel)%nat ->
  (forall i x, (i < lo)%nat -> arr !! i = Some x -> (x < key)%R) ->
  (forall i x, (hi <= i)%nat -> arr !! i = Some x -> (key <= x)%R) ->
  let r := binsearch_left fuel arr key lo hi in
  (r <= length arr)%nat
  /\ (forall i x, (i < r)%nat -> arr !! i = Some x -> (x < key)%R)
  /\ (forall i x, (r <= i)%nat -> arr !! i = Some x -> (key <= x)%R).
Proof.
  intros Hsorted. revert lo hi.
  induction fuel as [|fuel IH]; intros lo hi Hrange Hfuel Hlo Hhi; cbn [binsearch_left].
  - assert (lo = hi) as -> by lia. split; [lia|]. split; eauto.
  - destruct (decide (lo < hi)%nat) as [Hlt|Hge].
    + set (mid := (lo + (hi - lo) / 2)%nat).
      assert (lo <= mid < hi /\ hi - (mid + 1) <= fuel /\ mid - lo <= fuel)%nat
        as (Hmid & Hf1 & Hf2).
      { unfold mid. pose proof (Nat.div_mod_eq (hi - lo) 2).
        pose proof (Nat.mod_upper_bound (hi - lo) 2). lia. }
      destruct (lookup_lt_is_Some_2 arr mid ltac:(lia)) as [v Hv].
      rewrite Hv. destruct (decide (v < key)%R) as [Hvk|Hvk].
      * apply IH; [lia|lia| |done].
        intros i x Hi Hx. pose proof (Hsorted i mid x v ltac:(lia) Hx Hv). lra.
      * apply IH; [lia|lia|done|].
        intros i x Hi Hx. pose proof (Hsorted mid i v x ltac:(lia) Hv Hx). lra.
    + assert (lo = hi) as -> by lia. split; [lia|]. split; eauto.
Qed.

Lemma searchsorted_left_spec (arr : list R) (key : R) :
  nondecreasing arr ->
  let r := searchsorted_left arr key in
  (r <= length arr)%nat
  /\ (forall i x, (i < r)%nat -> arr !! i = Some x -> (x < key)%R)
  /\ (forall i x, (r <= i)%nat -> arr !! i = Some x -> (key <= x)%R).
Proof.
  intros Hs. apply binsearch_left_spec; [done|lia|lia| |].
  - intros i x Hi. lia.
  - intros i x Hi Hx. apply lookup_lt_Some in Hx. lia.
Qed.

Section Hunting.
Context `{RS : RandomSource}.

(** ** [hunt] and [eat] *)

Lemma numeric_weights (l : list Animal) :
  numeric l -> mapM (fun animal => num (weight animal)) l = Ok (weight_key <$> l).
Proof.
  induction 1 as [|a l [w Hw] _ IH]; [done|].
  cbn [mapM]. rewrite Hw. cbn. rewrite IH. cbn. unfold weight_key. by rewrite Hw.
Qed.

Lemma nonneg_numeric (l : list Animal) : Forall nonneg_weight l -> numeric l.
Proof.
  intros H. eapply Forall_impl; [done|]. intros a (w & Hw & _). by eexists.
Qed.

Lemma nonneg_keys (l : list Animal) :
  Forall nonneg_weight l -> Forall (fun x => 0 <= x)%R (weight_key <$> l).
Proof.
  intros H. apply Forall_fmap. eapply Forall_impl; [done|].
  intros a (w & Hw & Hpos). simpl. unfold weight_key. by rewrite Hw.
Qed.

Lemma kill_probability_total (par : gmap string R) (fit af delta : R) :
  par !! "DeltaPhiMax" = Some delta -> exists p, kill_probability par fit af = Ok p.
Proof.
  intros Hd. unfold kill_probability. rewrite (param_Some _ _ _ Hd).
  cbn. repeat case_decide; eexists; reflexivity.
Qed.

Lemma hunt_loop_run (par par_prey : gmap string R) (fit delta : R)
    (animal_list : list Animal) (s : sys) :
  par !! "DeltaPhiMax" = Some delta -> complete par_prey -> numeric animal_list ->
  exists hunt_list s',
    hunt_loop par par_prey fit animal_list s = Ok (hunt_list, s')
    /\ hunt_list `sublist_of` animal_list.
Proof.
  intros Hd Hc Hnum. revert s.
  induction Hnum as [|a l Ha _ IH]; intros s.
  - exists [], s. done.
  - cbn [hunt_loop].
    destruct (fitness_total par_prey a Hc Ha) as [af Haf].
    destruct (kill_probability_total par fit af delta Hd) as [p Hp].
    erewrite lift_bind_run; [|done]. erewrite lift_bind_run; [|done].
    erewrite M_bind_run; [|apply weighted_flip_run].
    set (s1 := mkSys _ _ _).
    destruct (IH s1) as (hl & s' & Hrun & Hsub).
    erewrite M_bind_run; [|done].
    eexists _, s'. split; [done|].
    case_decide; [by apply sublist_cons|by apply sublist_skip].
Qed.

Lemma total_weight_take (l : list Animal) (k : nat) :
  total_weight (take k l) = py_sum (take k (weight_key <$> l)).
Proof. unfold total_weight. by rewrite fmap_take. Qed.

Lemma total_weight_all (l : list Animal) :
  total_weight l = py_sum (take (length l) (weight_key <$> l)).
Proof. rewrite <- total_weight_take. by rewrite firstn_all. Qed.

(** C1, as the code has it: [eat] consumes a prefix of the list chosen by
    [hunt]; the victims before the last one eaten weigh less than [F]
    together, the last one may carry the total to [F] or beyond, and the
    meal stops there; when the whole list weighs less than [F] all of it is
    eaten; the carnivore gains [beta] times the weight eaten. *)
Theorem carnivore_eat_prefix (par par_prey : gmap string R) (self : Animal)
    (animal_list : list Animal) (s : sys) (F beta w delta : R) :
  complete par -> par !! "DeltaPhiMax" = Some delta ->
  par !! "F" = Some F -> par !! "beta" = Some beta ->
  complete par_prey -> weight self = Some w -> Forall nonneg_weight animal_list ->
  exists hunt_list eaten self' s',
    hunt par par_prey self animal_list s = Ok (hunt_list, s')
    /\ Carnivores_eat par par_prey self animal_list s = Ok ((self', eaten), s')
    /\ hunt_list `sublist_of` animal_list
    /\ eaten `prefix_of` hunt_list
    /\ (length eaten <= length hunt_list)%nat
    /\ (forall k, (0 < k < length eaten)%nat -> (total_weight (take k eaten) < F)%R)
    /\ (eaten = hunt_list \/ (F <= total_weight eaten)%R)
    /\ ((total_weight hunt_list < F)%R -> eaten = hunt_list)
    /\ self' = set_weight (w + beta * total_weight eaten) self.
Proof.
  intros Hc Hd HF Hbeta Hcp Hw Hprey.
  destruct (fitness_total par self Hc) as [fit Hfit]; [by eexists|].
  destruct (hunt_loop_run par par_prey fit delta animal_list s Hd Hcp
              (nonneg_numeric _ Hprey)) as (hl & s' & Hloop & Hsub).
  assert (hunt par par_prey self animal_list s = Ok (hl, s')) as Hhunt.
  { unfold hunt. erewrite lift_bind_run; done. }
  assert (Forall nonneg_weight hl) as Hhl.
  { rewrite Forall_forall in Hprey |- *. intros a Ha. apply Hprey.
    by eapply elem_of_sublist. }
  pose proof (nonneg_keys hl Hhl) as Hkeys.
  pose proof (cumsum_nondecreasing _ Hkeys) as Hmono.
  set (ws := weight_key <$> hl) in *.
  assert (length (cumsum ws) = length hl) as Hlen.
  { unfold cumsum. rewrite cumsum_from_length. unfold ws. by rewrite length_fmap. }
  assert (forall i, (i < length hl)%nat ->
            getitem (cumsum ws) i = Ok (total_weight (take (S i) hl))) as Hcum.
  { intros i Hi. unfold getitem. rewrite cumsum_lookup.
    - by rewrite total_weight_take.
    - unfold ws. by rewrite length_fmap. }
  exists hl.
  unfold Carnivores_eat. erewrite M_bind_run; [|done].
  erewrite lift_bind_run; [|by apply numeric_weights, nonneg_numeric].
  fold ws. cbv zeta. rewrite Hlen.
  destruct (decide (length hl < 2)%nat) as [Hshort|Hlong].
  - erewrite lift_bind_run; [|by apply param_Some].
    erewrite lift_bind_run; [|by rewrite Hw].
    assert (py_sum (cumsum ws) = total_weight hl) as ->.
    { clear -Hshort. unfold ws, total_weight, cumsum.
      destruct hl as [|a [|b hl']]; simpl in *; [done|lra|lia]. }
    eexists hl, _, s'. split; [done|]. split; [reflexivity|].
    split; [done|]. split; [done|]. split; [done|].
    split; [intros k Hk; lia|]. split; [by left|]. done.
  - erewrite lift_bind_run; [|by apply param_Some].
    erewrite lift_bind_run; [|apply Hcum; lia].
    replace (S (length hl - 2)) with (length hl - 1)%nat by lia.
    destruct (decide (F > total_weight (take (length hl - 1) hl))%R) as [Hunder|Hover].
    + erewrite lift_bind_run; [|by apply param_Some].
      erewrite lift_bind_run; [|apply Hcum; lia].
      erewrite lift_bind_run; [|by rewrite Hw].
      replace (S (length hl - 1)) with (length hl) by lia. rewrite firstn_all.
      eexists hl, _, s'. split; [done|]. split; [reflexivity|].
      split; [done|]. split; [done|]. split; [done|].
      split; [|split; [by left|done]].
      intros k Hk. rewrite !total_weight_take in *. fold ws in Hunder |- *.
      pose proof (py_sum_take_mono ws k (length hl - 1) Hkeys ltac:(lia)). lra.
    + destruct (searchsorted_left_spec (cumsum ws) F Hmono) as (Hr & Hbelow & Habove).
      set (r := searchsorted_left (cumsum ws) F) in *.
      assert (r <= length hl - 2)%nat as Hrle.
      { destruct (decide (r <= length hl - 2)%nat) as [|Hgt]; [done|].
        exfalso. apply Hover.
        assert (cumsum ws !! (length hl - 2)%nat
                = Some (total_weight (take (length hl - 1) hl))) as Hl.
        { specialize (Hcum (length hl - 2)%nat ltac:(lia)).
          unfold getitem in Hcum. destruct (cumsum ws !! _); [|done].
          replace (S (length hl - 2)) with (length hl - 1)%nat in Hcum by lia.
          congruence. }
        pose proof (Hbelow (length hl - 2)%nat _ ltac:(lia) Hl). lra. }
      erewrite lift_bind_run; [|by apply param_Some].
      erewrite lift_bind_run; [|apply Hcum; lia].
      erewrite lift_bind_run; [|by rewrite Hw].
      replace (r + 1)%nat with (S r) by lia.
      assert (forall i, (i < length hl)%nat ->
                cumsum ws !! i = Some (total_weight (take (S i) hl))) as Hcum'.
      { intros i Hi. specialize (Hcum i Hi). unfold getitem in Hcum.
        destruct (cumsum ws !! i); [congruence|done]. }
      eexists (take (S r) hl), _, s'. split; [done|]. split; [reflexivity|].
      split; [done|]. split; [apply prefix_take|].
      rewrite length_take. split; [lia|].
      split; [|split; [|split; [|done]]].
      * intros k Hk. rewrite take_take. replace (k `min` S r)%nat with k by lia.
        destruct k as [|k]; [lia|].
        apply (Hbelow k); [lia|]. apply Hcum'. lia.
      * right. apply (Habove r); [lia|]. apply Hcum'. lia.
      * intros Htot. exfalso.
        pose proof (Habove r _ ltac:(lia) (Hcum' r ltac:(lia))) as Hge.
        rewrite total_weight_take in Hge. rewrite total_weight_all in Htot.
        fold ws in Hge, Htot.
        pose proof (py_sum_take_mono ws (S r) (length hl) Hkeys ltac:(lia)). lra.
Qed.

End Hunting.

Lemma logistic_range (e : R) : (0 < e)%R -> (0 < 1 / (1 + e) < 1)%R.
Proof.
  intros He. unfold Rdiv. rewrite Rmult_1_l. split.
  - apply Rinv_0_lt_compat. lra.
  - rewrite <- Rinv_1 at 2. apply Rinv_lt_contravar; lra.
Qed.

(** A carnivore of age 5 and weight 40 and an old herbivore of age 100
    and weight 60, with the parameters of the classes. *)
Lemma hunter_fitness :
  exists fit, fitness Carnivores_parameter (Animal_init 0 5 (Some 40%R)) = Ok fit
              /\ (86 / 100 < fit < 1)%R.
Proof.
  eexists. split.
  - unfold fitness. simpl. destruct (decide (40 <= 0)%R); [lra|]. reflexivity.
  - unfold fitness_formula. cbn [snd].
    replace (1 * (3 / 10) * (5 - 40))%R with (- (21 / 2))%R by lra.
    replace (-1 * (4 / 10) * (40 - 4))%R with (- (72 / 5))%R by lra.
    pose proof (exp_neg_bound (21 / 2) ltac:(lra)) as H1.
    pose proof (exp_neg_bound (72 / 5) ltac:(lra)) as H2.
    pose proof (exp_pos (- (21 / 2))) as P1. pose proof (exp_pos (- (72 / 5))) as P2.
    pose proof (logistic_lower _ _ (conj P1 H1)) as L1.
    pose proof (logistic_lower _ _ (conj P2 H2)) as L2.
    replace (1 / (1 + / (1 + 21 / 2)))%R with (23 / 25)%R in L1 by (field; lra).
    replace (1 / (1 + / (1 + 72 / 5)))%R with (77 / 82)%R in L2 by (field; lra).
    pose proof (logistic_range _ P1) as U1.
    pose proof (logistic_range _ P2) as U2.
    nra.
Qed.

Lemma old_prey_fitness :
  exists af, fitness Herbivores_parameter (Animal_init 1 100 (Some 60%R)) = Ok af
             /\ (0 < af < 1 / 37)%R.
Proof.
  eexists. split.
  - unfold fitness. simpl. destruct (decide (60 <= 0)%R); [lra|]. reflexivity.
  - unfold fitness_formula. cbn [snd].
    replace (1 * (6 / 10) * (100 - 40))%R with 36%R by lra.
    replace (-1 * (1 / 10) * (60 - 10))%R with (- (5))%R by lra.
    pose proof (exp_ineq1 36 ltac:(lra)) as H1.
    pose proof (exp_pos (- (5))) as P2.
    pose proof (logistic_lower 37 (exp 36) ltac:(lra)) as L1.
    pose proof (logistic_range _ P2) as U2.
    pose proof (logistic_range (exp 36) (exp_pos _)) as U1.
    assert (1 / (1 + 37) < 1 / 37)%R by lra.
    nra.
Qed.

(** The meal of a carnivore can exceed [F]: the lucky carnivore kills the
    only herbivore in sight, which weighs 60, and eats all of it although
    [F] is 50. *)
Lemma carnivore_eat_exceeds_F :
  exists self',
    Carnivores_eat (RS := lucky_source) Carnivores_parameter Herbivores_parameter
      (Animal_init 0 5 (Some 40%R)) [Animal_init 1 100 (Some 60%R)] lucky_sys
    = Ok ((self', [Animal_init 1 100 (Some 60%R)]), @mkSys lucky_source 1%nat 0%nat)
    /\ Carnivores_parameter !! "F" = Some 50%R
    /\ (total_weight [Animal_init 1 100 (Some 60%R)] > 50)%R.
Proof.
  destruct hunter_fitness as (fit & Hfit & Hfb).
  destruct old_prey_fitness as (af & Haf & Hab).
  eexists. split; [|split; [reflexivity|unfold total_weight, py_sum, weight_key; simpl; lra]].
  assert (kill_probability Carnivores_parameter fit af = Ok ((fit - af) / 10)%R) as Hkill.
  { unfold kill_probability.
    destruct (decide (fit <= af)%R); [exfalso; lra|].
    destruct (decide (0 < fit - af)%R); [|exfalso; lra].
    replace (param Carnivores_parameter "DeltaPhiMax") with (Ok 10%R) by reflexivity.
    cbn. destruct (decide (fit - af < 10)%R); [done|exfalso; lra]. }
  unfold Carnivores_eat, hunt.
  erewrite M_bind_run.
  2:{ erewrite lift_bind_run; [|exact Hfit]. cbn [hunt_loop].
      erewrite lift_bind_run; [|exact Haf].
      erewrite lift_bind_run; [|exact Hkill].
      erewrite M_bind_run; [|apply weighted_flip_run].
      cbn. destruct (decide (99 / 100 < 1 - (fit - af) / 10)%R); [exfalso; lra|].
      reflexivity. }
  cbn. destruct (decide (1 < 2)%nat); [|lia]. reflexivity.
Qed.

Lemma Carnivores_parameter_complete : complete Carnivores_parameter.
Proof. unfold complete, animal_keys. repeat constructor; by eexists. Qed.

Lemma carnivore_eat_prefix_witness :
  exists hunt_list eaten self' s',
    Carnivores_eat (RS := lucky_source) Carnivores_parameter Herbivores_parameter
      (Animal_init 0 5 (Some 40%R)) [Animal_init 1 100 (Some 60%R)] lucky_sys
    = Ok ((self', eaten), s')
    /\ eaten `prefix_of` hunt_list.
Proof.
  destruct (carnivore_eat_prefix (RS := lucky_source)
              Carnivores_parameter Herbivores_parameter
              (Animal_init 0 5 (Some 40%R)) [Animal_init 1 100 (Some 60%R)] lucky_sys
              50 (75 / 100) 40 10
              Carnivores_parameter_complete eq_refl eq_refl eq_refl
              Herbivores_parameter_complete eq_refl
              ltac:(repeat constructor; exists 60%R; split; [reflexivity|lra]))
    as (hunt_list & eaten & self' & s' & _ & Heat & _ & Hpre & _).
  exists hunt_list, eaten, self', s'. exact (conj Heat Hpre).
Defined.

Section Feeding.
Context `{RS : RandomSource}.

(** ** [feed_animals] *)

Lemma Herbivores_eat_run (par : gmap string R) (a : Animal) (F beta w : R) :
  par !! "F" = Some F -> par !! "beta" = Some beta -> weight a = Some w ->
  Herbivores_eat par a = Ok (set_weight (w + beta * F) a).
Proof.
  intros HF Hb Hw. unfold Herbivores_eat.
  rewrite (param_Some _ _ _ HF), (param_Some _ _ _ Hb), Hw. done.
Qed.

(** The loop feeds the first [n] herbivores of the list and stops. *)
Lemma feed_loop_spec (par : gmap string R) (l : list Animal) (stock F beta : R) :
  par !! "F" = Some F -> par !! "beta" = Some beta -> numeric l ->
  exists n fed stock',
    feed_loop par l stock = Ok (fed ++ drop n l, stock')
    /\ (n <= length l)%nat
    /\ Forall2 (fun a a' => Herbivores_eat par a = Ok a') (take n l) fed
    /\ stock' = (stock - INR n * F)%R
    /\ (forall i, (i < n)%nat -> (F <= stock - INR i * F)%R)
    /\ ((n < length l)%nat -> (stock' < F)%R).
Proof.
  intros HF Hb Hnum. revert stock.
  induction Hnum as [|a l [w Hw] _ IH]; intros stock.
  - exists 0%nat, [], stock. simpl. repeat split; try done; try lia; try lra.
  - cbn [feed_loop]. rewrite (param_Some _ _ _ HF). cbn.
    destruct (decide (stock >= F)%R) as [Hge|Hlt].
    + rewrite (Herbivores_eat_run par a F beta w HF Hb Hw). cbn.
      destruct (IH (stock - F)%R) as (n & fed & stock' & Hrun & Hn & Hfed & -> & Hi & Hstop).
      rewrite Hrun. cbn.
      exists (S n), (set_weight (w + beta * F) a :: fed), (stock - F - INR n * F)%R.
      split; [done|]. split; [simpl; lia|].
      split; [constructor; [by apply Herbivores_eat_run|done]|].
      split; [rewrite S_INR; lra|].
      split.
      * intros [|i] Hlt; [simpl; lra|].
        specialize (Hi i ltac:(lia)). rewrite S_INR. lra.
      * intros Hlt. simpl in Hlt. apply Hstop. lia.
    + exists 0%nat, [], stock. simpl.
      split; [done|]. split; [lia|]. split; [done|]. split; [lra|].
      split; [intros i Hi; lia|]. intros _. lra.
Qed.

(** C7: the herbivores are fed in the shuffled order; each of the first
    [n] eats while the stock holds at least [F] and takes exactly [F]; the
    feeding stops at the first that cannot be fed and the rest get nothing;
    the stock never runs negative and no more than the stock is eaten. *)
Theorem feed_animals_fodder {HL : RandomLaws RS} (cfg : Config) (self : Cell) (s : sys)
    (F beta : R) :
  par_H cfg !! "F" = Some F -> par_H cfg !! "beta" = Some beta ->
  (0 <= F)%R -> (0 <= fodder self)%R -> numeric (animal_list self) ->
  exists order n fed self' s',
    draw_shuffle (animal_list self) s = Ok (order, s')
    /\ order ≡ₚ animal_list self
    /\ feed_animals cfg self s = Ok (self', s')
    /\ (n <= length order)%nat
    /\ animal_list self' = fed ++ drop n order
    /\ Forall2 (fun a a' => Herbivores_eat (par_H cfg) a = Ok a') (take n order) fed
    /\ fodder self' = (fodder self - INR n * F)%R
    /\ (forall i, (i < n)%nat -> (F <= fodder self - INR i * F)%R)
    /\ ((n < length order)%nat -> (fodder self' < F)%R)
    /\ (forall i, (i <= n)%nat -> (0 <= fodder self - INR i * F)%R)
    /\ (INR n * F <= fodder self)%R.
Proof.
  intros HF Hb HF0 Hstock Hnum.
  pose proof (shuffle_perm Animal (animal_list self) (gen s)) as Hperm.
  unfold feed_animals, draw_shuffle.
  destruct (shuffle (animal_list self) (gen s)) as [order g] eqn:Hsh.
  simpl in Hperm.
  assert (numeric order) as Hnum'.
  { unfold numeric. by rewrite Hperm. }
  destruct (feed_loop_spec (par_H cfg) order (fodder self) F beta HF Hb Hnum')
    as (n & fed & stock' & Hrun & Hn & Hfed & -> & Hi & Hstop).
  exists order, n, fed. eexists _, _.
  split; [reflexivity|]. split; [done|].
  unfold mbind at 1, M_bind at 1. rewrite Hsh.
  erewrite lift_bind_run; [|exact Hrun].
  split; [reflexivity|]. simpl.
  split; [done|]. split; [done|]. split; [done|]. split; [done|].
  split; [done|]. split; [done|].
  assert (forall i, (i <= n)%nat -> (0 <= fodder self - INR i * F)%R) as Hpos.
  { intros [|i] Hle; [simpl; lra|].
    specialize (Hi i ltac:(lia)). rewrite S_INR. lra. }
  split; [done|]. specialize (Hpos n ltac:(lia)). lra.
Qed.

End Feeding.

Lemma feed_animals_fodder_witness :
  exists self' s',
    feed_animals (RS := sample_source) default_config
      (mkCell "L" 15 [Animal_init 0 5 (Some 20%R); Animal_init 1 3 (Some 10%R)] [])
      sample_sys = Ok (self', s')
    /\ (0 <= fodder self')%R.
Proof.
  destruct (feed_animals_fodder (RS := sample_source) (HL := sample_source_laws)
              default_config
              (mkCell "L" 15 [Animal_init 0 5 (Some 20%R); Animal_init 1 3 (Some 10%R)] [])
              sample_sys 10 (9 / 10) eq_refl eq_refl ltac:(lra) ltac:(simpl; lra)
              ltac:(repeat constructor; by eexists))
    as (order & n & fed & self' & s' & _ & _ & Hrun & _ & _ & _ & Hf & _ & _ & Hpos & _).
  exists self', s'. split; [exact Hrun|]. rewrite Hf. apply Hpos. lia.
Defined.

Section Births.
Context `{RS : RandomSource}.

(** ** The birth phase of a cell *)

(** The loop over the positions of the resident list, started in the
    middle: [processed] holds the residents already visited. *)
Lemma birth_loop_from (par : gmap string R) (processed todo babies : list Animal)
    (s : sys) :
  for_range (birth_step par) (seq (length processed) (length todo))
    (processed ++ todo, babies) s
  = match birth_attempts par (length (processed ++ todo)) todo s with
    | Ok ((todo', born), s') => Ok ((processed ++ todo', babies ++ born), s')
    | Raise e => Raise e
    end.
Proof.
  revert processed babies s.
  induction todo as [|a todo IH]; intros processed babies s.
  - simpl. unfold mret, M_ret. by rewrite !app_nil_r.
  - cbn [length seq for_range birth_attempts].
    assert (birth_step par (length processed) (processed ++ a :: todo, babies) s
            = match procreate par a (length (processed ++ a :: todo)) s with
              | Ok ((a', baby), s1) =>
                  Ok (((processed ++ [a']) ++ todo, babies ++ option_list baby), s1)
              | Raise e => Raise e
              end) as Hstep.
    { unfold birth_step. rewrite lookup_app_r by lia. rewrite Nat.sub_diag.
      cbn [lookup list_lookup]. unfold mbind, M_bind.
      destruct (procreate par a _ s) as [[[a' baby] s1]|e]; [|done].
      unfold mret, M_ret. rewrite insert_app_r_alt by lia. rewrite Nat.sub_diag.
      simpl. by rewrite <- app_assoc. }
    destruct (procreate par a (length (processed ++ a :: todo)) s)
      as [[[a' baby] s1]|e] eqn:Hp.
    + erewrite M_bind_run; [|exact Hstep]. erewrite (M_bind_run (procreate _ _ _)); [|exact Hp].
      specialize (IH (processed ++ [a']) (babies ++ option_list baby) s1).
      rewrite length_app in IH. simpl in IH.
      replace (length processed + 1)%nat with (S (length processed)) in IH by lia.
      rewrite IH.
      replace (length ((processed ++ [a']) ++ todo))
        with (length (processed ++ a :: todo)).
      2:{ rewrite !length_app. simpl. lia. }
      unfold mbind, M_bind.
      destruct (birth_attempts par (length (processed ++ a :: todo)) todo s1)
        as [[[todo' born] s2]|e]; [|done].
      unfold mret, M_ret. rewrite <- !app_assoc. done.
    + erewrite M_bind_raise; [|exact Hstep]. erewrite M_bind_raise; [done|exact Hp].
Qed.

Lemma birth_loop_phase (par : gmap string R) (residents : list Animal) (s : sys) :
  ('(l, babies) ← birth_loop par residents; mret (l ++ babies, babies)) s
  = birth_phase par residents s.
Proof.
  unfold birth_loop, birth_phase.
  pose proof (birth_loop_from par [] residents [] s) as H. simpl in H.
  unfold mbind, M_bind. rewrite H.
  destruct (birth_attempts par (length residents) residents s)
    as [[[mothers born] s']|e]; done.
Qed.

(** What the attempts leave: the residents themselves, one for one, and
    new-born animals that have not moved. *)
Lemma birth_attempts_residents (par : gmap string R) (N : nat) (residents : list Animal)
    (s s' : sys) (mothers babies : list Animal) :
  birth_attempts par N residents s = Ok ((mothers, babies), s') ->
  ident <$> mothers = ident <$> residents
  /\ Forall (fun b => age b = 0%Z /\ moved b = false) babies.
Proof.
  revert s mothers babies.
  induction residents as [|a l IH]; intros s mothers babies H.
  - inv_ret H. done.
  - cbn [birth_attempts] in H.
    inv_bind H as r1 s1 H1. destruct r1 as [a' baby].
    inv_bind H as r2 s2 H2. destruct r2 as [l' born].
    inv_ret H. destruct (IH _ _ _ H2) as [Hid Hb].
    apply procreate_inv in H1
      as (w & wb & sb & zeta & gamma & phi & coin & s1' & _ & _ & _ & _ & _ & _ & _ & Hcase).
    assert (ident a' = ident a
            /\ Forall (fun b => age b = 0%Z /\ moved b = false) (option_list baby))
      as [Ha Hbaby].
    { destruct (_ && _ && _).
      - destruct Hcase as (xi & bw & s2' & _ & _ & Hcase).
        case_decide.
        + destruct Hcase as (-> & -> & _). split; [done|]. by repeat constructor.
        + destruct Hcase as (-> & -> & _). split; [done|]. constructor.
      - destruct Hcase as (-> & -> & _). split; [done|]. constructor. }
    split; [by rewrite !fmap_cons, Ha, Hid|]. by apply Forall_app.
Qed.

(** C9: in [herbivore_birth] and [carnivore_birth] every resident attempts
    [procreate] once with the count of residents taken before the phase; the
    offspring are appended after the last attempt, so they neither count
    nor attempt a birth themselves. *)
Theorem birth_uses_original_count (cfg : Config) (self : Cell) (s : sys) :
  herbivore_birth cfg self s
    = ('(l, babies) ← birth_phase (par_H cfg) (animal_list self);
       mret (set_animal_list l self, babies)) s
  /\ carnivore_birth cfg self s
    = ('(l, babies) ← birth_phase (par_C cfg) (Carnivores_list self);
       mret (set_Carnivores_list l self, babies)) s
  /\ (forall (par : gmap string R) (residents l babies : list Animal) (s1 s2 : sys),
        birth_phase par residents s1 = Ok ((l, babies), s2) ->
        exists mothers,
          birth_attempts par (length residents) residents s1 = Ok ((mothers, babies), s2)
          /\ l = mothers ++ babies
          /\ ident <$> mothers = ident <$> residents
          /\ Forall (fun b => age b = 0%Z /\ moved b = false) babies).
Proof.
  split; [|split].
  - unfold herbivore_birth, mbind, M_bind.
    rewrite <- (birth_loop_phase (par_H cfg) (animal_list self)).
    unfold mbind, M_bind.
    destruct (birth_loop (par_H cfg) (animal_list self) s) as [[[l babies] s']|e]; done.
  - unfold carnivore_birth, mbind, M_bind.
    rewrite <- (birth_loop_phase (par_C cfg) (Carnivores_list self)).
    unfold mbind, M_bind.
    destruct (birth_loop (par_C cfg) (Carnivores_list self) s) as [[[l babies] s']|e]; done.
  - intros par residents l babies s1 s2 H. unfold birth_phase in H.
    inv_bind H as r s' Hm. destruct r as [mothers born]. inv_ret H.
    exists mothers. split; [done|]. split; [done|].
    by eapply birth_attempts_residents.
Qed.

End Births.

(** ** Setting parameters *)

Lemma update_para_values_negative (values : list R) :
  update_para_values values = Some ValueError <-> Exists (fun v => v < 0)%R values.
Proof.
  induction values as [|v l IH]; simpl.
  - split; [done|]. intros H. inversion H.
  - destruct (decide (v < 0)%R) as [Hv|Hv].
    + split; [|done]. intros _. by left.
    + rewrite IH. split; [by right|]. intros Hex. inversion Hex; [lra|done].
Qed.

Lemma update_para_keys_unknown (par : gmap string R) (params : list (string * R)) :
  (update_para_keys par params).2 = Some ValueError
  <-> Exists (fun kv => par !! kv.1 = None) params.
Proof.
  revert par. induction params as [|[k v] l IH]; intros par; simpl.
  - split; [done|]. intros H. inversion H.
  - destruct (par !! k) as [x|] eqn:Hk.
    + rewrite IH. split.
      * intros H. right. eapply Exists_impl; [done|]. simpl. intros [k' v'] Hn.
        simpl in *. destruct (decide (k = k')) as [->|Hne].
        -- by rewrite lookup_insert_eq in Hn.
        -- by rewrite lookup_insert_ne in Hn.
      * intros H. inversion H as [? ? Hh|? ? Ht]; subst; simpl in *; [congruence|].
        eapply Exists_impl; [done|]. simpl. intros [k' v'] Hn. simpl in *.
        destruct (decide (k = k')) as [->|Hne]; [congruence|].
        by rewrite lookup_insert_ne.
    + split; [|done]. intros _. by left.
Qed.

Lemma update_para_keys_error (par : gmap string R) (params : list (string * R)) (e : exn) :
  (update_para_keys par params).2 = Some e -> e = ValueError.
Proof.
  revert par. induction params as [|[k v] l IH]; intros par; simpl; [done|].
  destruct (par !! k); [apply IH|]. simpl. congruence.
Qed.

(** [update_para] does raise on every dictionary with an unknown key or a
    negative value. *)
Lemma update_para_rejects (par : gmap string R) (params : list (string * R)) :
  (update_para par params).2 = Some ValueError
  <-> Exists (fun kv => par !! kv.1 = None \/ (kv.2 < 0)%R) params.
Proof.
  unfold update_para.
  pose proof (update_para_keys_unknown par params) as Hk.
  pose proof (update_para_keys_error par params) as He.
  destruct (update_para_keys par params) as [par' [e|]]; simpl in *.
  - rewrite (He e eq_refl) in Hk |- *.
    split; [|done]. intros _.
    eapply Exists_impl; [by apply Hk|]. tauto.
  - rewrite update_para_values_negative, Exists_fmap.
    split.
    + intros Hex. eapply Exists_impl; [done|]. simpl. tauto.
    + intros Hex. apply Exists_exists in Hex as ([k v] & Hin & [Hn|Hv]).
      * assert (Exists (fun kv => par !! kv.1 = None) params) as Hex.
        { apply Exists_exists. by exists (k, v). }
        apply Hk in Hex. done.
      * apply Exists_exists. by exists (k, v).
Qed.

(** C3 fails on the code: [update_para] assigns before it validates. The
    call [set_animal_parameters('Herbivore', {'beta': -1})] raises the value
    error and leaves [beta] at [-1]; [{'beta': 5, 'X': 100}] raises and
    leaves [beta] at [5]. In [update_cell_para] an unknown key is a
    [KeyError], and a negative value that is not the first goes through. *)
Theorem update_para_assigns_before_rejecting :
  (exists cfg,
     set_animal_parameters default_config "Herbivore" [("beta", (-1)%R)]
       = (cfg, Some ValueError)
     /\ par_H cfg !! "beta" = Some (-1)%R
     /\ par_H default_config !! "beta" = Some (9 / 10)%R)
  /\ (exists cfg,
        set_animal_parameters default_config "Herbivore" [("beta", 5%R); ("X", 100%R)]
          = (cfg, Some ValueError)
        /\ par_H cfg !! "beta" = Some 5%R)
  /\ set_landscape_parameters default_config "L" [("F_max", 10%R)]
       = (default_config, Some KeyError)
  /\ (exists cfg,
        set_landscape_parameters default_config "L" [("a", 1%R); ("f_max", (-5)%R)]
          = (cfg, None)
        /\ ParamCell cfg !! "f_max_L" = Some (-5)%R).
Proof.
  split; [|split; [|split]].
  - eexists. split; [|split; [|reflexivity]].
    + unfold set_animal_parameters, update_para, update_para_keys. cbn.
      destruct (decide (-1 < 0)%R); [|lra]. reflexivity.
    + reflexivity.
  - eexists. split.
    + unfold set_animal_parameters, update_para, update_para_keys. cbn. reflexivity.
    + reflexivity.
  - unfold set_landscape_parameters, update_cell_para. cbn.
    destruct (decide (10 < 0)%R); [lra|]. reflexivity.
  - eexists. split.
    + unfold set_landscape_parameters, update_cell_para. cbn.
      destruct (decide (1 < 0)%R); [lra|]. reflexivity.
    + reflexivity.
Qed.

(** ** Seeding the island *)

(** *** The [Graphics] object *)

Lemma mapM_returns {A B} (f : A -> result B) (l : list A) :
  Forall (fun a => exists y, f a = Ok y) l -> exists k, mapM f l = Ok k.
Proof.
  induction 1 as [|a l [y Hy] _ [k Hk]]; [by exists []|].
  exists (y :: k). cbn [mapM]. rewrite Hy. simpl. by rewrite Hk.
Qed.

Lemma rgb_value_returns (c : ascii) :
  c ∈ geography_dict_keys -> exists v, rgb_value c = Ok v.
Proof.
  unfold geography_dict_keys, rgb_value. intros Hc.
  repeat (apply elem_of_cons in Hc as [->|Hc]; [repeat case_decide; try done; by eexists|]).
  by apply elem_of_nil in Hc.
Qed.

Lemma map_rgb_returns (rows : list (list ascii)) :
  Forall (fun c => c ∈ geography_dict_keys) (concat rows) ->
  exists rgb, mapM (mapM rgb_value) rows = Ok rgb.
Proof.
  intros Hall. apply mapM_returns. rewrite Forall_concat in Hall.
  eapply Forall_impl; [exact Hall|]. intros row Hrow. apply mapM_returns.
  eapply Forall_impl; [exact Hrow|]. intros c. apply rgb_value_returns.
Qed.

Lemma bin_edges_run (bin_max bin_width : gmap string R) (k : string) :
  is_Some (bin_max !! k) -> (exists w, bin_width !! k = Some w /\ w ≠ 0%R) ->
  exists l, bin_edges bin_max bin_width k = Ok l.
Proof.
  intros [hi Hhi] (w & Hw & Hne). unfold bin_edges, param, np_arange, pydiv.
  rewrite Hhi, Hw. simpl. destruct (decide (w = 0%R)); [done|]. by eexists.
Qed.

(** The bins of the three histograms are there and no width is zero. *)
Lemma hist_bins_run (items : list (string * list (string * R)))
    (bin_max bin_width : gmap string R) (keys : list string) :
  Forall complete_spec items ->
  Forall (fun k => is_Some (bin_max !! k)
                   /\ exists w, bin_width !! k = Some w /\ w ≠ 0%R) keys ->
  exists bin_max' bin_width',
    hist_bins items bin_max bin_width = Ok (bin_max', bin_width')
    /\ Forall (fun k => is_Some (bin_max' !! k)
                        /\ exists w, bin_width' !! k = Some w /\ w ≠ 0%R) keys.
Proof.
  intros Hitems. revert bin_max bin_width.
  induction Hitems as [|[key spec] rest (hi & d & Hhi & Hd & Hpos & _) _ IH];
    intros bin_max bin_width Hkeys.
  - by exists bin_max, bin_width.
  - cbn [hist_bins]. unfold param. unfold dict_get in Hhi, Hd. simpl in Hhi, Hd.
    rewrite Hhi. simpl. rewrite Hd. simpl. apply IH.
    eapply Forall_impl; [exact Hkeys|]. intros k [Hmax (w & Hw & Hw0)].
    destruct (decide (key = k)) as [->|Hk].
    + rewrite !lookup_insert_eq. split; [by eexists|]. exists d. split; [done|lra].
    + rewrite !lookup_insert_ne by done. split; [done|]. by exists w.
Qed.

Lemma hist_bins_lacking (items : list (string * list (string * R)))
    (bin_max bin_width : gmap string R) :
  Exists lacking_spec items -> hist_bins items bin_max bin_width = Raise KeyError.
Proof.
  revert bin_max bin_width.
  induction items as [|[key spec] rest IH]; intros bin_max bin_width Hbad.
  - by apply Exists_nil in Hbad.
  - cbn [hist_bins]. unfold param.
    destruct ((list_to_map spec : gmap string R) !! "max") as [hi|] eqn:Hhi; [|done].
    simpl.
    destruct ((list_to_map spec : gmap string R) !! "delta") as [d|] eqn:Hd; [|done].
    simpl. apply IH. apply Exists_cons in Hbad as [[H|H]|H]; [..|done];
      unfold dict_get in H; simpl in H; congruence.
Qed.

Lemma bins_default :
  Forall (fun k => is_Some (bin_max_default !! k)
                   /\ exists w, bin_width_default !! k = Some w /\ w ≠ 0%R)
    ["fitness"; "age"; "weight"].
Proof.
  repeat (constructor;
            [split; [by eexists|eexists; split; [reflexivity|simpl; lra]]|]).
  constructor.
Qed.

Lemma Graphics_init_run (island_map : string)
    (hist_specs : option (list (string * list (string * R)))) :
  Forall (fun c => c ∈ geography_dict_keys) (concat (lines_of island_map)) ->
  Forall complete_spec (default [] hist_specs) ->
  exists g, Graphics_init island_map hist_specs = Ok g.
Proof.
  intros Hletters Hspecs. unfold Graphics_init.
  destruct (hist_bins_run _ bin_max_default bin_width_default _ Hspecs bins_default)
    as (bm & bw & -> & Hbins).
  apply Forall_cons in Hbins as [[H1 H1'] Hbins].
  apply Forall_cons in Hbins as [[H2 H2'] Hbins].
  apply Forall_cons in Hbins as [[H3 H3'] _].
  destruct (bin_edges_run bm bw "fitness" H1 H1') as [l1 Hl1].
  destruct (bin_edges_run bm bw "age" H2 H2') as [l2 Hl2].
  destruct (bin_edges_run bm bw "weight" H3 H3') as [l3 Hl3].
  destruct (map_rgb_returns _ Hletters) as [rgb Hrgb].
  cbn [mbind result_bind]. rewrite Hl1. cbn [mbind result_bind].
  rewrite Hl2. cbn [mbind result_bind]. rewrite Hl3. cbn [mbind result_bind].
  rewrite Hrgb. by eexists.
Qed.

Lemma Graphics_init_lacking (island_map : string)
    (hist_specs : option (list (string * list (string * R)))) :
  Exists lacking_spec (default [] hist_specs) ->
  Graphics_init island_map hist_specs = Raise KeyError.
Proof.
  intros Hbad. unfold Graphics_init. by rewrite hist_bins_lacking.
Qed.

Lemma mapM_raises {A B} (f : A -> result B) (l : list A) (e : exn) :
  mapM f l = Raise e -> exists x, x ∈ l /\ f x = Raise e.
Proof.
  induction l as [|a l IH]; [done|]. cbn [mapM]. intros H.
  destruct (f a) as [y|e'] eqn:Hy.
  - simpl in H. destruct (mapM f l) as [k|e'] eqn:Hk; [done|].
    simpl in H. injection H as ->. destruct (IH eq_refl) as (x & Hx & Hfx).
    exists x. split; [by right|done].
  - simpl in H. injection H as ->. exists a. split; [by left|done].
Qed.

Lemma small_island_graphics :
  exists g, Graphics_init small_island (opt_hist_specs default_options) = Ok g.
Proof.
  apply Graphics_init_run; [|by constructor].
  apply (bool_decide_unpack _). by vm_compute.
Qed.

(** C2 fails on the code: [add_fauna] sets its counters to zero for every
    record, so it returns the counts of the last record only. With two
    records of one herbivore each, two animals are placed, [add_fauna]
    returns [(1, 0)] and the new [BioSim] reports one animal. A call of
    [add_population] on a [BioSim] of year 0 places its animals and leaves
    the totals as they were. *)
Theorem add_fauna_counts_last_record :
  (exists sim s',
     BioSim_init (RS := sample_source) small_island two_records default_options sample_sys
     = Ok (sim, s')
     /\ _year sim = 0%nat
     /\ num_animals sim = 1%nat
     /\ length (animals_of (cells_array (_map_instance sim))) = 2%nat
     /\ exists m, Map_init small_island = Ok m
          /\ exists m', add_fauna (RS := sample_source) m two_records sample_sys
                          = Ok ((m', (1, 0)%nat), s'))
  /\ (exists sim0 s0 sim1 counts s1,
        BioSim_init (RS := sample_source) small_island [] default_options sample_sys
        = Ok (sim0, s0)
        /\ add_population (RS := sample_source) sim0 (take 1 two_records) s0
             = Ok ((sim1, counts), s1)
        /\ counts = (1, 0)%nat
        /\ _year sim1 = 0%nat
        /\ num_animals sim1 = 0%nat
        /\ length (animals_of (cells_array (_map_instance sim1))) = 1%nat).
Proof.
  destruct small_island_graphics as [g Hg].
  assert (forall ini_pop self counts s',
            add_population (RS := sample_source)
              (mkBioSim 0 (mkMap (3, 3)%nat (Cell_init <$> concat (lines_of small_island)))
                 0 0 [] [] [] [] 1 None) ini_pop sample_sys
            = Ok ((self, counts), s') ->
            BioSim_init (RS := sample_source) small_island ini_pop default_options sample_sys
            = Ok (mkBioSim (_year self) (_map_instance self) counts.1 counts.2
                    [] [] [] [] 1 None, s')) as Hinit.
  { intros ini_pop self [h c] s' Hadd. unfold BioSim_init.
    erewrite lift_bind_run; [|vm_compute; reflexivity].
    erewrite lift_bind_run; [|vm_compute; reflexivity].
    unfold mbind at 1, M_bind at 1.
    change (add_population _ ini_pop sample_sys) with
      (add_population (RS := sample_source)
         (mkBioSim 0 (mkMap (3, 3)%nat (Cell_init <$> concat (lines_of small_island)))
            0 0 [] [] [] [] 1 None) ini_pop sample_sys).
    rewrite Hadd. erewrite lift_bind_run; [|exact Hg]. done. }
  split.
  - eexists _, _. split; [apply Hinit; vm_compute; reflexivity|].
    split; [reflexivity|]. split; [reflexivity|]. split; [reflexivity|].
    eexists. split; [vm_compute; reflexivity|].
    eexists. vm_compute. reflexivity.
  - eexists _, _, _, _, _. split; [apply Hinit; vm_compute; reflexivity|].
    split; [vm_compute; reflexivity|]. done.
Qed.

(** ** Loops over the grid *)

Lemma M_bind_cong {S A B} (m1 m2 : M S A) (f g : A -> M S B) (s : S) :
  m1 s = m2 s ->
  (forall a s1, m1 s = Ok (a, s1) -> f a s1 = g a s1) ->
  (m1 ≫= f) s = (m2 ≫= g) s.
Proof.
  intros Hm Hf. unfold mbind, M_bind. rewrite <- Hm.
  destruct (m1 s) as [[a s1]|e]; [by apply Hf|done].
Qed.

Lemma for_range_inv {S B} (I : B -> Prop) (f : nat -> B -> M S B) (ks : list nat)
    (acc acc' : B) (s s' : S) :
  (forall k b s b' s', k ∈ ks -> I b -> f k b s = Ok (b', s') -> I b') ->
  I acc -> for_range f ks acc s = Ok (acc', s') -> I acc'.
Proof.
  revert acc s. induction ks as [|k ks IH]; intros acc s Hf Hacc H.
  - inv_ret H. done.
  - cbn [for_range] in H. inv_bind H as b s1 Hb.
    eapply (IH b s1); [|by eapply Hf; [left|..]|done].
    intros k' b0 s0 b' s0' Hk. apply Hf. by right.
Qed.


Section Cycle.
Context `{RS : RandomSource}.

Lemma sweep_mask_from (mask : ascii -> bool) (body : Cell -> M sys Cell)
    (pre rest : list Cell) (s : sys) :
  for_range (sweep_with mask body) (seq (length pre) (length rest)) (pre ++ rest) s
  = for_range (cell_step body) (mask_positions mask (length pre) (geography <$> rest))
      (pre ++ rest) s.
Proof.
  revert pre s. induction rest as [|c rest IH]; intros pre s; [done|].
  cbn [length seq for_range fmap list_fmap mask_positions].
  assert ((pre ++ c :: rest) !! length pre = Some c) as Hk.
  { rewrite lookup_app_r by lia. by rewrite Nat.sub_diag. }
  assert (forall c', (pre ++ [c']) ++ rest = pre ++ c' :: rest) as Happ.
  { intros c'. by rewrite <- app_assoc. }
  assert (forall c', <[length pre := c']> (pre ++ c :: rest) = (pre ++ [c']) ++ rest)
    as Hins.
  { intros c'. rewrite insert_app_r_alt by lia. rewrite Nat.sub_diag. simpl.
    by rewrite Happ. }
  specialize (IH (pre ++ [c])) as IHc.
  rewrite length_app in IHc. simpl in IHc.
  replace (length pre + 1)%nat with (S (length pre)) in IHc by lia.
  destruct (mask (geography c)) eqn:Hm.
  - cbn [for_range]. apply M_bind_cong.
    + unfold sweep_with. by rewrite Hk, Hm.
    + intros cells1 s1 H1. unfold sweep_with, cell_step in H1. rewrite Hk, Hm in H1.
      inv_bind H1 as c' s1' Hc'. inv_ret H1. rewrite Hins.
      specialize (IH (pre ++ [c']) s1).
      rewrite length_app in IH. simpl in IH.
      replace (length pre + 1)%nat with (S (length pre)) in IH by lia. done.
  - erewrite M_bind_run.
    2:{ unfold sweep_with. rewrite Hk, Hm. reflexivity. }
    rewrite <- Happ. apply IHc.
Qed.

Lemma for_cells_sweep (mask : ascii -> bool) (body : Cell -> M sys Cell) (m : Map)
    (s : sys) :
  for_cells mask body m s
  = (cells ← for_range (sweep_with mask body) (seq 0 (length (cells_array m)))
               (cells_array m);
     mret (with_cells m cells)) s.
Proof.
  unfold for_cells, mask_indices, island_map_array.
  apply M_bind_cong; [|done].
  symmetry. apply (sweep_mask_from mask body [] (cells_array m) s).
Qed.



(** ** Neighbours *)

Lemma grid_coordinates (rows cols k : nat) :
  (k < rows * cols)%nat -> (k / cols < rows)%nat /\ (k mod cols < cols)%nat.
Proof.
  intros Hk. assert (cols ≠ 0)%nat as Hc by lia. split.
  - apply Nat.Div0.div_lt_upper_bound. lia.
  - by apply Nat.mod_upper_bound.
Qed.




Lemma accessible_land (m : Map) (k d : nat) :
  d ∈ accessible m k ->
  d = k /\ exists c, cells_array m !! d = Some c /\ geography c ≠ "W"%char.
Proof.
  unfold accessible. destruct (cells_array m !! k) as [c|] eqn:Hc; [|set_solver].
  case_decide; [|set_solver]. intros ->%list_elem_of_singleton. eauto.
Qed.



(** ** Lengths are kept by the migration of a cell *)



(** ** The phases of the cycle *)










End Cycle.


(** ** Migration *)

Lemma unmark_set_moved (b : bool) (a : Animal) : unmark (set_moved b a) = unmark a.
Proof. done. Qed.

Lemma concat_alter (f : Cell -> list Animal) (g : Cell -> Cell) (d : nat)
    (cells : list Cell) (c : Cell) :
  cells !! d = Some c ->
  concat (f <$> alter g d cells) ++ f c ≡ₚ concat (f <$> cells) ++ f (g c).
Proof.
  intros Hd. pose proof (take_drop_middle cells d c Hd) as Hsplit.
  pose proof (lookup_lt_Some _ _ _ Hd) as Hlt.
  rewrite <- Hsplit at 1 2.
  rewrite alter_app_r_alt by (rewrite length_take; lia).
  replace (d - length (take d cells))%nat with 0%nat by (rewrite length_take; lia).
  cbn [alter list_alter].
  rewrite !fmap_app, !fmap_cons, !concat_app, !concat_cons.
  rewrite <- !app_assoc. apply Permutation_app_head.
  etransitivity; [apply Permutation_app_comm|].
  rewrite (Permutation_app_comm (concat _) (f c)).
  by rewrite <- app_assoc.
Qed.

Lemma fmap_alter_same {B} (f : Cell -> B) (g : Cell -> Cell) (d : nat) (cells : list Cell) :
  (forall c, f (g c) = f c) -> f <$> alter g d cells = f <$> cells.
Proof.
  intros Hfg. rewrite (list_fmap_alter f g (fun x => x)).
  - apply list_eq. intros i. rewrite list_lookup_alter.
    case_decide; [subst|done]. by destruct (_ !! _).
  - apply Forall_forall. intros c _. apply Hfg.
Qed.

Section Migration.
Context `{RS : RandomSource}.

Lemma choices_uniform_elem {A} (population : list A) (x : A) (s s' : sys) :
  choices_uniform population s = Ok (x, s') -> x ∈ population.
Proof.
  unfold choices_uniform. intros H. inv_bind H as u s1 Hu.
  destruct (population !! _) as [y|] eqn:Hy; [|done].
  inv_ret H. by eapply list_elem_of_lookup_2.
Qed.

Lemma migrate_destination (par : gmap string R) (a : Animal) (neighbors : list nat)
    (d : nat) (s s' : sys) :
  migrate par a neighbors s = Ok (Some d, s') -> d ∈ neighbors.
Proof.
  unfold migrate. intros H.
  inv_lift H as phi Hphi. inv_lift H as mu Hmu.
  inv_bind H as gate1 s1 H1. destruct gate1; [|by inv_ret H].
  inv_bind H as gate2 s2 H2. destruct gate2; [|by inv_ret H].
  assert (forall pad, Some d ∈ (Some <$> neighbors) ++ replicate pad None ->
            d ∈ neighbors) as Hin.
  { intros pad Hd. apply elem_of_app in Hd as [Hd|Hd].
    - apply list_elem_of_fmap in Hd as (d' & [= ->] & Hd'). done.
    - by apply elem_of_replicate in Hd as [? _]. }
  destruct (length neighbors) as [|[|[|[|[|n]]]]]; try (by inv_ret H);
    apply choices_uniform_elem in H.
  - by apply (Hin 3%nat).
  - by apply (Hin 2%nat).
  - by apply (Hin 1%nat).
  - apply (Hin 0%nat). by rewrite app_nil_r.
Qed.

(** One loop of [animal_migration], for either species: [get] is the list
    the loop works on and [other] the list of the other species. *)
Section Species.
Variables (get other : Cell -> list Animal) (arrive : Animal -> Cell -> Cell).
Hypothesis get_arrive : forall a c, get (arrive a c) = get c ++ [a].
Hypothesis other_arrive : forall a c, other (arrive a c) = other c.
Hypothesis geography_arrive : forall a c, geography (arrive a c) = geography c.

Lemma migration_loop_spec (par : gmap string R) (neighbors : list nat)
    (residents : list Animal) (cells cells' : list Cell) (stay stay' : list Animal)
    (s s' : sys) :
  migration_loop par arrive neighbors residents cells stay s = Ok ((cells', stay'), s') ->
  (forall d, d ∈ neighbors -> (d < length cells)%nat) ->
  other <$> cells' = other <$> cells
  /\ geography <$> cells' = geography <$> cells
  /\ unmark <$> (concat (get <$> cells') ++ stay')
       ≡ₚ unmark <$> (concat (get <$> cells) ++ stay ++ residents)
  /\ (forall k c' a, cells' !! k = Some c' -> a ∈ get c' ->
        (exists c0, cells !! k = Some c0 /\ a ∈ get c0)
        \/ (exists a0, a0 ∈ residents /\ moved a0 = false
                       /\ a = set_moved true a0 /\ k ∈ neighbors))
  /\ (forall a, a ∈ stay' -> a ∈ stay \/ a ∈ residents)
  /\ (forall k, k ∉ neighbors -> cells' !! k = cells !! k).
Proof.
  revert cells stay s. induction residents as [|a rest IH]; intros cells stay s H Hns.
  - inv_ret H. rewrite app_nil_r. repeat split; try done.
    + intros k c' a Hk Ha. left. eauto.
    + intros a Ha. by left.
  - cbn [migration_loop] in H.
    assert (forall st,
      migration_loop par arrive neighbors rest cells (stay ++ [a]) st
        = Ok (cells', stay', s') ->
      other <$> cells' = other <$> cells
      /\ geography <$> cells' = geography <$> cells
      /\ unmark <$> (concat (get <$> cells') ++ stay')
           ≡ₚ unmark <$> (concat (get <$> cells) ++ stay ++ a :: rest)
      /\ (forall k c' a', cells' !! k = Some c' -> a' ∈ get c' ->
            (exists c0, cells !! k = Some c0 /\ a' ∈ get c0)
            \/ (exists a0, a0 ∈ a :: rest /\ moved a0 = false
                           /\ a' = set_moved true a0 /\ k ∈ neighbors))
      /\ (forall a', a' ∈ stay' -> a' ∈ stay \/ a' ∈ a :: rest)
      /\ (forall k, k ∉ neighbors -> cells' !! k = cells !! k)) as Hstay.
    { intros st Hst. destruct (IH _ _ _ Hst Hns) as (Ho & Hg & Hp & Hm & Hs & Hk).
      split; [done|]. split; [done|]. split; [|split; [|split; [|done]]].
      - rewrite Hp. by rewrite <- !app_assoc.
      - intros k c' a' Hc' Ha'. destruct (Hm k c' a' Hc' Ha') as [?|(a0 & ? & ?)];
          [by left|right]. exists a0. split; [by right|done].
      - intros a' Ha'. destruct (Hs a' Ha') as [Hin|Hin].
        + apply elem_of_app in Hin as [?|Hin]; [by left|right].
          apply list_elem_of_singleton in Hin as ->. by left.
        + right. by right. }
    destruct (moved a) eqn:Hmoved; [by eapply Hstay|].
    inv_bind H as dest s1 Hdest. destruct dest as [d|]; [|by eapply Hstay].
    clear Hstay. pose proof (migrate_destination _ _ _ _ _ _ Hdest) as Hd.
    pose proof (Hns d Hd) as Hlt.
    destruct (lookup_lt_is_Some_2 cells d Hlt) as [cd Hcd].
    destruct (IH _ _ _ H) as (Ho & Hg & Hp & Hm & Hs & Hk).
    { intros d' Hd'. rewrite length_alter. by apply Hns. }
    split; [|split; [|split; [|split; [|split]]]].
    + rewrite Ho. by apply fmap_alter_same.
    + rewrite Hg. by apply fmap_alter_same.
    + rewrite Hp. rewrite !fmap_app.
      assert (concat (get <$> alter (arrive (set_moved true a)) d cells)
              ≡ₚ concat (get <$> cells) ++ [set_moved true a]) as Hc.
      { apply (Permutation_app_inv_r (get cd)).
        rewrite (concat_alter get (arrive (set_moved true a)) d cells cd Hcd).
        rewrite get_arrive, <- !app_assoc.
        apply Permutation_app_head, Permutation_app_comm. }
      rewrite Hc, !fmap_app, !fmap_cons, unmark_set_moved.
      rewrite <- !app_assoc. apply Permutation_app_head.
      rewrite fmap_nil. simpl. apply Permutation_middle.
    + intros k c' a' Hc' Ha'. destruct (Hm k c' a' Hc' Ha') as [(c0 & Hc0 & Hin)|(a0 & ? & ?)].
      * destruct (decide (k = d)) as [->|Hne].
        -- rewrite list_lookup_alter_eq, Hcd in Hc0. simpl in Hc0.
           injection Hc0 as <-. rewrite get_arrive in Hin.
           apply elem_of_app in Hin as [Hin|Hin]; [left; eauto|].
           apply list_elem_of_singleton in Hin as ->.
           right. exists a. split; [by left|done].
        -- rewrite list_lookup_alter_ne in Hc0 by done. left. eauto.
      * right. exists a0. split; [by right|done].
    + intros a' Ha'. destruct (Hs a' Ha') as [?|?]; [by left|right; by right].
    + intros k Hk'. rewrite Hk by done. apply list_lookup_alter_ne.
      intros ->. done.
Qed.

End Species.

Lemma fmap_length_eq {B} (f : Cell -> B) (l1 l2 : list Cell) :
  f <$> l1 = f <$> l2 -> length l1 = length l2.
Proof. intros H. apply (f_equal length) in H. by rewrite !length_fmap in H. Qed.

(** What the migration of the cell at position [t] does to the grid. *)
Lemma animal_migration_spec (cfg : Config) (t : nat) (neighbors : list nat)
    (cells cells' : list Cell) (c : Cell) (s s' : sys) :
  cells !! t = Some c ->
  (forall d, d ∈ neighbors -> (d < length cells)%nat /\ d ≠ t) ->
  animal_migration cfg t neighbors cells s = Ok (cells', s') ->
  geography <$> cells' = geography <$> cells
  /\ unmark <$> herbivores_of cells' ≡ₚ unmark <$> herbivores_of cells
  /\ unmark <$> carnivores_of cells' ≡ₚ unmark <$> carnivores_of cells
  /\ (forall k c' a, cells' !! k = Some c' -> a ∈ residents_of c' ->
        (exists c0, cells !! k = Some c0 /\ a ∈ residents_of c0)
        \/ (exists a0, a0 ∈ residents_of c /\ moved a0 = false
                       /\ a = set_moved true a0 /\ k ∈ neighbors)).
Proof.
  intros Hc Hns H. unfold animal_migration in H. rewrite Hc in H.
  assert (t ∉ neighbors) as Ht by (intros Hin; by destruct (Hns t Hin)).
  inv_bind H as r1 s1 H1. destruct r1 as [cells1 stay1].
  apply (migration_loop_spec animal_list Carnivores_list) in H1
    as (Ho1 & Hg1 & Hp1 & Hm1 & Hs1 & Hk1); [|done|done|done|intros d Hd; by destruct (Hns d Hd)].
  pose proof (fmap_length_eq _ _ _ Hg1) as Hlen1.
  assert (cells1 !! t = Some c) as Hc1.
  { rewrite Hk1; [exact Hc|exact Ht]. }
  rewrite list_lookup_alter_eq, Hc1 in H. cbn [fmap option_fmap option_map] in H.
  inv_bind H as r2 s2 H2. destruct r2 as [cells3 stay3]. inv_ret H.
  set (cells2 := alter (set_animal_list stay1) t cells1) in *.
  assert (cells2 !! t = Some (set_animal_list stay1 c)) as Hc2.
  { unfold cells2. by rewrite list_lookup_alter_eq, Hc1. }
  apply (migration_loop_spec Carnivores_list animal_list) in H2
    as (Ho2 & Hg2 & Hp2 & Hm2 & Hs2 & Hk2); [|done|done|done|].
  2:{ intros d Hd. unfold cells2. rewrite length_alter, Hlen1. by destruct (Hns d Hd). }
  assert (cells3 !! t = Some (set_animal_list stay1 c)) as Hc3.
  { rewrite Hk2; [exact Hc2|exact Ht]. }
  split; [|split; [|split]].
  - rewrite fmap_alter_same by done. rewrite Hg2. unfold cells2.
    rewrite fmap_alter_same by done. done.
  - unfold herbivores_of. rewrite fmap_alter_same by done. rewrite Ho2.
    apply (Permutation_app_inv_r (unmark <$> animal_list c)).
    rewrite <- !fmap_app. unfold cells2.
    rewrite (concat_alter animal_list (set_animal_list stay1) t cells1 c Hc1).
    simpl. rewrite Hp1. done.
  - unfold carnivores_of.
    apply (Permutation_app_inv_r (unmark <$> Carnivores_list c)).
    rewrite <- !fmap_app.
    pose proof (concat_alter Carnivores_list (set_Carnivores_list stay3) t cells3 _ Hc3)
      as Hcat.
    simpl in Hcat. rewrite Hcat, Hp2. simpl.
    unfold cells2. rewrite fmap_alter_same by done. by rewrite Ho1.
  - intros k c' a Hk Ha.
    (* the cell before the carnivores' stay list was stored *)
    assert (exists c3, cells3 !! k = Some c3
              /\ (a ∈ animal_list c3
                  \/ a ∈ Carnivores_list c3
                  \/ (k = t /\ a ∈ stay3))) as (c3 & Hk3 & Ha3).
    { destruct (decide (k = t)) as [->|Hne].
      - rewrite list_lookup_alter_eq, Hc3 in Hk. injection Hk as <-.
        eexists. split; [done|]. unfold residents_of in Ha. simpl in Ha.
        apply elem_of_app in Ha as [?|?]; [by left|right; right; done].
      - rewrite list_lookup_alter_ne in Hk by done.
        eexists. split; [done|]. unfold residents_of in Ha.
        apply elem_of_app in Ha as [?|?]; [by left|right; by left]. }
    (* the cell before the carnivores' loop *)
    assert ((exists c2, cells2 !! k = Some c2
               /\ (a ∈ animal_list c2 \/ a ∈ Carnivores_list c2))
            \/ (exists a0, a0 ∈ residents_of c /\ moved a0 = false
                           /\ a = set_moved true a0 /\ k ∈ neighbors))
      as [(c2 & Hk2' & Ha2)|Hmover]; [| |by right].
    { destruct Ha3 as [Ha3|[Ha3|[-> Ha3]]].
      - left. assert (animal_list <$> cells3 !! k = animal_list <$> cells2 !! k) as He
          by (by rewrite <- !list_lookup_fmap, Ho2).
        rewrite Hk3 in He. destruct (cells2 !! k) as [c2|]; [|done].
        injection He as He. exists c2. split; [done|left; congruence].
      - destruct (Hm2 k c3 a Hk3 Ha3) as [(c2 & ? & ?)|(a0 & Ha0 & ?)].
        + left. exists c2. split; [done|by right].
        + right. exists a0. split; [|done]. unfold residents_of.
          apply elem_of_app. by right.
      - left. eexists. split; [exact Hc2|]. right.
        destruct (Hs2 a Ha3) as [Hnil|?]; [by apply elem_of_nil in Hnil|done]. }
    (* the cell before the herbivores' stay list was stored *)
    assert (exists c1, cells1 !! k = Some c1
              /\ (a ∈ animal_list c1 \/ a ∈ Carnivores_list c1
                  \/ (k = t /\ a ∈ stay1))) as (c1 & Hk1' & Ha1).
    { unfold cells2 in Hk2'. destruct (decide (k = t)) as [->|Hne].
      - rewrite list_lookup_alter_eq, Hc1 in Hk2'. injection Hk2' as <-.
        eexists. split; [done|]. simpl in Ha2. destruct Ha2 as [?|?]; [|by right; left].
        right; right; done.
      - rewrite list_lookup_alter_ne in Hk2' by done.
        eexists. split; [done|]. destruct Ha2 as [?|?]; [by left|by right; left]. }
    destruct Ha1 as [Ha1|[Ha1|[-> Ha1]]].
    + destruct (Hm1 k c1 a Hk1' Ha1) as [(c0 & ? & ?)|(a0 & Ha0 & ?)].
      * left. exists c0. split; [done|]. unfold residents_of. apply elem_of_app. by left.
      * right. exists a0. split; [|done]. unfold residents_of. apply elem_of_app. by left.
    + left. assert (Carnivores_list <$> cells1 !! k = Carnivores_list <$> cells !! k) as He
        by (by rewrite <- !list_lookup_fmap, Ho1).
      rewrite Hk1' in He. destruct (cells !! k) as [c0|]; [|done].
      injection He as He. exists c0. split; [done|].
      unfold residents_of. apply elem_of_app. right. congruence.
    + left. exists c. split; [done|]. unfold residents_of. apply elem_of_app. left.
      destruct (Hs1 a Ha1) as [Hnil|?]; [by apply elem_of_nil in Hnil|done].
Qed.

(** ** The neighbours of a cell *)

Lemma accessible_geography (shp : nat * nat) (cells cells0 : list Cell) (k : nat) :
  geography <$> cells = geography <$> cells0 ->
  accessible (mkMap shp cells) k = accessible (mkMap shp cells0) k.
Proof.
  intros Hg. unfold accessible. simpl.
  assert (geography <$> cells !! k = geography <$> cells0 !! k) as He
    by (by rewrite <- !list_lookup_fmap, Hg).
  destruct (cells !! k) as [c|], (cells0 !! k) as [c0|]; try done.
  injection He as He. by rewrite He.
Qed.

Lemma get_neighbors_geography (shp : nat * nat) (cells cells0 : list Cell) (i j : nat) :
  geography <$> cells = geography <$> cells0 ->
  get_neighbors (mkMap shp cells) i j = get_neighbors (mkMap shp cells0) i j.
Proof.
  intros Hg. unfold get_neighbors, cell_at. simpl.
  by rewrite !(accessible_geography shp cells cells0 _ Hg).
Qed.

Lemma neighbors_of_spec (m : Map) (k : nat) :
  Map_wf m -> (k < length (cells_array m))%nat ->
  forall d, d ∈ neighbors_of m k -> (d < length (cells_array m))%nat /\ d ≠ k.
Proof.
  intros Hwf Hk d Hd. unfold Map_wf in Hwf.
  destruct (shape m) as [rows cols] eqn:Hshape. simpl in *.
  rewrite Hwf in Hk. destruct (grid_coordinates _ _ _ Hk) as [Hi Hj].
  pose proof (Nat.div_mod_eq k cols) as Hkij.
  unfold neighbors_of, get_neighbors in Hd. rewrite Hshape in Hd. simpl in Hd.
  set (i := (k / cols)%nat) in *. set (j := (k mod cols)%nat) in *.
  assert (forall p, d ∈ accessible m p -> p ≠ k -> (d < length (cells_array m))%nat /\ d ≠ k)
    as Hacc.
  { intros p Hp Hne. apply accessible_land in Hp as (-> & c & Hc & _).
    split; [by eapply lookup_lt_Some|done]. }
  unfold cell_at in Hd. rewrite Hshape in Hd. simpl in Hd.
  rewrite !elem_of_app in Hd.
  destruct Hd as [Hd|[Hd|[Hd|Hd]]]; case_decide; try (by apply elem_of_nil in Hd);
    apply (Hacc _ Hd).
  - rewrite Nat.mul_sub_distr_r. nia.
  - rewrite Nat.mul_add_distr_r. nia.
  - nia.
  - nia.
Qed.

(** ** Where the animals live *)

Lemma ident_unmark (l : list Animal) : ident <$> (unmark <$> l) = ident <$> l.
Proof. rewrite <- list_fmap_compose. by apply list_fmap_ext. Qed.

Lemma animals_of_species (cells : list Cell) :
  animals_of cells ≡ₚ herbivores_of cells ++ carnivores_of cells.
Proof.
  unfold animals_of, herbivores_of, carnivores_of.
  induction cells as [|c cells IH]; [done|].
  rewrite !fmap_cons, !concat_cons, IH. unfold residents_of.
  rewrite <- !app_assoc. apply Permutation_app_head.
  rewrite !app_assoc. apply Permutation_app_tail, Permutation_app_comm.
Qed.

Lemma lives_in_animals (cells : list Cell) (x : nat) :
  x ∈ ident <$> animals_of cells <-> exists k, lives_in cells k x.
Proof.
  unfold animals_of, lives_in. induction cells as [|c cells IH].
  - split; [by intros ?%elem_of_nil|]. by intros (k & c & ? & _).
  - rewrite fmap_cons, concat_cons, fmap_app, elem_of_app, IH. split.
    + intros [Hx|(k & c' & Hk & Hx)]; [by exists 0%nat, c|by exists (S k), c'].
    + intros ([|k] & c' & Hk & Hx); simpl in Hk; [left; congruence|right; eauto].
Qed.

Lemma elem_of_animals_of (cells : list Cell) (a : Animal) :
  a ∈ animals_of cells <-> exists k c, cells !! k = Some c /\ a ∈ residents_of c.
Proof.
  unfold animals_of. induction cells as [|c cells IH].
  - split; [by intros ?%elem_of_nil|]. by intros (k & c & ? & _).
  - rewrite fmap_cons, concat_cons, elem_of_app, IH. split.
    + intros [Hx|(k & c' & Hk & Hx)]; [by exists 0%nat, c|by exists (S k), c'].
    + intros ([|k] & c' & Hk & Hx); simpl in Hk; [left; congruence|right; eauto].
Qed.

Lemma lives_in_unique (cells : list Cell) (k1 k2 x : nat) :
  NoDup (ident <$> animals_of cells) ->
  lives_in cells k1 x -> lives_in cells k2 x -> k1 = k2.
Proof.
  revert k1 k2. induction cells as [|c cells IH]; intros k1 k2 Hnd H1 H2.
  - by destruct H1 as (c & ? & _).
  - unfold animals_of in Hnd. rewrite fmap_cons, concat_cons, fmap_app in Hnd.
    apply NoDup_app in Hnd as (_ & Hdisj & Hnd).
    assert (forall k, lives_in (c :: cells) (S k) x -> lives_in cells k x) as Htail.
    { intros k (c' & Hk & Hx). by exists c'. }
    assert (lives_in (c :: cells) 0%nat x -> x ∈ ident <$> residents_of c) as Hhead.
    { intros (c' & Hk & Hx). simpl in Hk. congruence. }
    destruct k1 as [|k1], k2 as [|k2]; [done| | |f_equal; by apply IH; auto].
    + exfalso. apply (Hdisj x (Hhead H1)). apply lives_in_animals. eauto.
    + exfalso. apply (Hdisj x (Hhead H2)). apply lives_in_animals. eauto.
Qed.

(** ** The sweep of [Map.migrate] *)

Lemma migrating_start (shp : nat * nat) (cells0 : list Cell) :
  migrating shp cells0 cells0.
Proof.
  split; [done|]. split; [done|]. split; [done|].
  intros k c a Hk Ha. exists k. split; [|by left].
  exists c. split; [done|]. by apply list_elem_of_fmap_2.
Qed.

Lemma migrate_step_migrating (cfg : Config) (shp : nat * nat) (cells0 cells cells' : list Cell)
    (t : nat) (s s' : sys) :
  Map_wf (mkMap shp cells0) ->
  migrating shp cells0 cells ->
  migrate_step cfg shp t cells s = Ok (cells', s') ->
  migrating shp cells0 cells'.
Proof.
  intros Hwf (Hg & Hh & Hc & Hloc) Hstep. unfold migrate_step in Hstep.
  destruct (cells !! t) as [c|] eqn:Ht; [|by inv_ret Hstep].
  case_decide; [|by inv_ret Hstep].
  pose proof (fmap_length_eq _ _ _ Hg) as Hlen.
  rewrite (get_neighbors_geography shp cells cells0 _ _ Hg) in Hstep.
  fold (neighbors_of (mkMap shp cells0) t) in Hstep.
  assert (t < length cells0)%nat as Htlt by (rewrite <- Hlen; by eapply lookup_lt_Some).
  pose proof (neighbors_of_spec (mkMap shp cells0) t Hwf Htlt) as Hns. simpl in Hns.
  apply (animal_migration_spec cfg t _ cells cells' c) in Hstep
    as (Hg' & Hh' & Hc' & Hloc'); [|done|by rewrite Hlen].
  split; [by rewrite Hg'|]. split; [by rewrite Hh'|]. split; [by rewrite Hc'|].
  intros k c' a Hk Ha.
  destruct (Hloc' k c' a Hk Ha) as [(c0 & Hk0 & Ha0)|(a0 & Ha0 & Hm0 & -> & Hkn)].
  - by eapply Hloc.
  - destruct (Hloc t c a0 Ht Ha0) as (k0 & Hlive & [->|[_ Hmv]]); [|congruence].
    exists k0. split; [done|]. right. done.
Qed.

(** What [Map.migrate] leaves when it returns. *)
Lemma Map_migrate_migrating (cfg : Config) (m m' : Map) (s s' : sys) :
  Map_wf m -> Map_migrate cfg m s = Ok (m', s') ->
  shape m' = shape m /\ migrating (shape m) (cells_array m) (cells_array m').
Proof.
  intros Hwf H. unfold Map_migrate in H. inv_bind H as cells s1 Hloop. inv_ret H.
  split; [done|]. simpl.
  eapply (for_range_inv (migrating (shape m) (cells_array m))); [| |exact Hloop].
  - intros k b s0 b' s0' _ Hb Hstep. eapply migrate_step_migrating; [|done|done].
    by destruct m.
  - apply migrating_start.
Qed.

(** ** [Map.migrate] returns *)

Lemma for_range_total {S B} (I : B -> Prop) (f : nat -> B -> M S B) (ks : list nat)
    (acc : B) (s : S) :
  (forall k b s, k ∈ ks -> I b -> exists b' s', f k b s = Ok (b', s')) ->
  (forall k b s b' s', k ∈ ks -> I b -> f k b s = Ok (b', s') -> I b') ->
  I acc -> exists b' s', for_range f ks acc s = Ok (b', s').
Proof.
  revert acc s. induction ks as [|k ks IH]; intros acc s Htot Hpre Hacc.
  - by exists acc, s.
  - cbn [for_range]. destruct (Htot k acc s ltac:(by left) Hacc) as (b & s1 & Hb).
    erewrite M_bind_run; [|exact Hb]. apply IH.
    + intros k' b0 s0 Hk. apply Htot. by right.
    + intros k' b0 s0 b' s0' Hk. apply Hpre. by right.
    + by eapply Hpre; [left|..].
Qed.

Lemma choices_uniform_total {HL : RandomLaws RS} {A} (population : list A) (s : sys) :
  length population = 4%nat -> exists x s', choices_uniform population s = Ok (x, s').
Proof.
  intros Hlen. unfold choices_uniform, draw_random.
  pose proof (random_range (gen s)) as Hu.
  unfold mbind at 1, M_bind at 1. destruct (random (gen s)) as [u g]. simpl in Hu.
  rewrite Hlen. set (r := (u * INR 4)%R).
  assert (0 <= r < 4)%R as Hr by (unfold r; simpl; lra).
  destruct (base_Int_part r) as [Hlo Hhi].
  assert (0 <= Int_part r < 4)%Z as Hz.
  { split.
    - assert (-1 < Int_part r)%Z; [|lia]. apply lt_IZR. lra.
    - apply lt_IZR. lra. }
  destruct (lookup_lt_is_Some_2 population (Z.to_nat (Int_part r)) ltac:(lia)) as [x Hx].
  rewrite Hx. by eexists _, _.
Qed.

Lemma migrate_total {HL : RandomLaws RS} (par : gmap string R) (a : Animal)
    (neighbors : list nat) (s : sys) :
  complete par -> is_Some (weight a) ->
  exists r s', migrate par a neighbors s = Ok (r, s').
Proof.
  intros Hc Hw. unfold migrate.
  destruct (fitness_total par a Hc Hw) as [phi Hphi].
  get_param Hc "mu" mu Hmu.
  erewrite lift_bind_run; [|done]. erewrite lift_bind_run; [|done].
  erewrite M_bind_run; [|apply weighted_flip_run].
  case_decide; [by eexists _, _|].
  erewrite M_bind_run; [|apply weighted_flip_run].
  case_decide; [by eexists _, _|].
  destruct (length neighbors) as [|[|[|[|[|n]]]]] eqn:Hlen; try (by eexists _, _);
    apply choices_uniform_total; rewrite ?length_app, length_fmap, Hlen; done.
Qed.

Lemma migration_loop_total {HL : RandomLaws RS} (par : gmap string R)
    (arrive : Animal -> Cell -> Cell) (neighbors : list nat) (residents : list Animal)
    (cells : list Cell) (stay : list Animal) (s : sys) :
  complete par -> numeric residents ->
  exists r s', migration_loop par arrive neighbors residents cells stay s = Ok (r, s').
Proof.
  intros Hc Hnum. revert cells stay s.
  induction Hnum as [|a rest Ha _ IH]; intros cells stay s.
  - by eexists _, _.
  - cbn [migration_loop]. destruct (moved a); [apply IH|].
    destruct (migrate_total par a neighbors s Hc Ha) as (d & s1 & Hd).
    erewrite M_bind_run; [|exact Hd]. destruct d; apply IH.
Qed.

Lemma animal_migration_total {HL : RandomLaws RS} (cfg : Config) (t : nat)
    (neighbors : list nat) (cells : list Cell) (c : Cell) (s : sys) :
  complete (par_H cfg) -> complete (par_C cfg) ->
  cells !! t = Some c -> numeric (residents_of c) ->
  (forall d, d ∈ neighbors -> (d < length cells)%nat /\ d ≠ t) ->
  exists cells' s', animal_migration cfg t neighbors cells s = Ok (cells', s').
Proof.
  intros HcH HcC Ht Hnum Hns. unfold animal_migration. rewrite Ht.
  apply Forall_app in Hnum as [HnH HnC].
  destruct (migration_loop_total (par_H cfg) arrive_herbivore neighbors (animal_list c)
              cells [] s HcH HnH) as ([cells1 stay1] & s1 & H1).
  erewrite M_bind_run; [|exact H1].
  apply (migration_loop_spec animal_list Carnivores_list) in H1
    as (_ & _ & _ & _ & _ & Hk1); [|done|done|done|intros d Hd; by destruct (Hns d Hd)].
  assert (t ∉ neighbors) as Htn by (intros Hin; by destruct (Hns t Hin)).
  rewrite list_lookup_alter_eq, (Hk1 t Htn), Ht. cbn [fmap option_fmap option_map].
  destruct (migration_loop_total (par_C cfg) arrive_carnivore neighbors
              (Carnivores_list (set_animal_list stay1 c))
              (alter (set_animal_list stay1) t cells1) [] s1 HcC HnC)
    as ([cells3 stay3] & s3 & H3).
  erewrite M_bind_run; [|exact H3]. by eexists _, _.
Qed.

Lemma numeric_unmark (l : list Animal) : numeric (unmark <$> l) <-> numeric l.
Proof. unfold numeric. by rewrite Forall_fmap. Qed.

Lemma migrating_numeric (shp : nat * nat) (cells0 cells : list Cell) :
  migrating shp cells0 cells ->
  numeric (animals_of cells0) -> numeric (animals_of cells).
Proof.
  intros (_ & Hh & Hc & _) Hnum.
  unfold numeric in *. rewrite animals_of_species in Hnum |- *.
  apply numeric_unmark. apply numeric_unmark in Hnum.
  unfold numeric in *. rewrite fmap_app in Hnum |- *. by rewrite Hh, Hc.
Qed.

Lemma cell_numeric (cells : list Cell) (k : nat) (c : Cell) :
  numeric (animals_of cells) -> cells !! k = Some c -> numeric (residents_of c).
Proof.
  intros Hnum Hk. unfold numeric in *. rewrite Forall_forall in Hnum |- *.
  intros a Ha. apply Hnum. apply elem_of_animals_of. eauto.
Qed.

Lemma Map_migrate_total {HL : RandomLaws RS} (cfg : Config) (m : Map) (s : sys) :
  Map_wf m -> complete (par_H cfg) -> complete (par_C cfg) ->
  numeric (animals_of (cells_array m)) ->
  exists m' s', Map_migrate cfg m s = Ok (m', s').
Proof.
  intros Hwf HcH HcC Hnum. unfold Map_migrate.
  destruct (for_range_total (migrating (shape m) (cells_array m))
              (migrate_step cfg (shape m)) (seq 0 (length (cells_array m)))
              (cells_array m) s) as (cells & s' & Hloop).
  - intros k b s0 _ Hb. unfold migrate_step.
    destruct (b !! k) as [c|] eqn:Hk; [|by eexists _, _].
    case_decide; [|by eexists _, _].
    pose proof Hb as (Hg & _).
    pose proof (fmap_length_eq _ _ _ Hg) as Hlen.
    rewrite (get_neighbors_geography (shape m) b (cells_array m) _ _ Hg).
    apply (animal_migration_total cfg k _ b c); [done|done|done| |].
    + eapply cell_numeric; [|done]. by eapply migrating_numeric.
    + rewrite Hlen. fold (neighbors_of (mkMap (shape m) (cells_array m)) k).
      apply (neighbors_of_spec (mkMap (shape m) (cells_array m))); [by destruct m|].
      simpl. rewrite <- Hlen. by eapply lookup_lt_Some.
  - intros k b s0 b' s0' _ Hb Hstep. eapply migrate_step_migrating; [|done|done].
    by destruct m.
  - apply migrating_start.
  - erewrite M_bind_run; [|exact Hloop]. by eexists _, _.
Qed.

(** C5: [Map.migrate] neither loses nor duplicates an animal. It returns;
    the herbivores and the carnivores of the island are the same animals as
    before, flags apart; every animal lives in exactly one cell, which is
    the cell it started the phase in or one of the cells that cell
    migrates to; and an animal found away from its cell carries the
    [moved] flag, so it was moved once and not again. *)
Theorem migration_conserves_animals {HL : RandomLaws RS} (cfg : Config) (m : Map) (s : sys) :
  Map_wf m -> complete (par_H cfg) -> complete (par_C cfg) ->
  numeric (animals_of (cells_array m)) ->
  NoDup (ident <$> animals_of (cells_array m)) ->
  exists m' s',
    Map_migrate cfg m s = Ok (m', s')
    /\ shape m' = shape m
    /\ geography <$> cells_array m' = geography <$> cells_array m
    /\ unmark <$> herbivores_of (cells_array m')
         ≡ₚ unmark <$> herbivores_of (cells_array m)
    /\ unmark <$> carnivores_of (cells_array m')
         ≡ₚ unmark <$> carnivores_of (cells_array m)
    /\ NoDup (ident <$> animals_of (cells_array m'))
    /\ (forall k x, lives_in (cells_array m) k x ->
          exists k', lives_in (cells_array m') k' x
            /\ (k' = k \/ k' ∈ neighbors_of m k)
            /\ forall k'', lives_in (cells_array m') k'' x -> k'' = k')
    /\ (forall k' c a, cells_array m' !! k' = Some c -> a ∈ residents_of c ->
          lives_in (cells_array m) k' (ident a)
          \/ (moved a = true
              /\ exists k, lives_in (cells_array m) k (ident a)
                           /\ k' ∈ neighbors_of m k)).
Proof.
  intros Hwf HcH HcC Hnum Hnd.
  destruct (Map_migrate_total cfg m s Hwf HcH HcC Hnum) as (m' & s' & Hrun).
  destruct (Map_migrate_migrating cfg m m' s s' Hwf Hrun) as (Hshape & Hg & Hh & Hc & Hloc).
  assert (ident <$> animals_of (cells_array m') ≡ₚ ident <$> animals_of (cells_array m))
    as Hids.
  { rewrite !animals_of_species, !fmap_app.
    rewrite <- (ident_unmark (herbivores_of (cells_array m'))).
    rewrite <- (ident_unmark (carnivores_of (cells_array m'))).
    rewrite Hh, Hc. by rewrite !ident_unmark. }
  assert (NoDup (ident <$> animals_of (cells_array m'))) as Hnd' by (by rewrite Hids).
  assert (forall k, neighbors_of (mkMap (shape m) (cells_array m)) k = neighbors_of m k)
    as Hnb by (intros k; by destruct m).
  exists m', s'. split; [done|]. split; [done|]. split; [done|].
  split; [done|]. split; [done|]. split; [done|]. split.
  - intros k x Hk.
    assert (x ∈ ident <$> animals_of (cells_array m')) as Hx.
    { rewrite Hids. apply lives_in_animals. eauto. }
    apply lives_in_animals in Hx as (k' & Hk').
    exists k'. split; [done|]. split.
    + destruct Hk' as (c & Hc' & Hin).
      apply list_elem_of_fmap in Hin as (a & -> & Ha).
      destruct (Hloc k' c a Hc' Ha) as (k0 & Hk0 & Hcase).
      assert (k0 = k) as -> by exact (lives_in_unique _ _ _ _ Hnd Hk0 Hk).
      destruct Hcase as [->|[Hin _]]; [by left|right]. by rewrite <- Hnb.
    + intros k'' Hk''. exact (lives_in_unique _ _ _ _ Hnd' Hk'' Hk').
  - intros k' c a Hc' Ha.
    destruct (Hloc k' c a Hc' Ha) as (k0 & Hk0 & [->|[Hin Hmv]]); [by left|right].
    split; [done|]. exists k0. split; [done|]. by rewrite <- Hnb.
Qed.

End Migration.

Lemma test_map_distinct : NoDup (ident <$> animals_of (cells_array test_map)).
Proof.
  change (NoDup [0; 1; 2; 3]%nat).
  repeat (apply NoDup_cons; split;
          [intros Hin; repeat (apply elem_of_cons in Hin as [?|Hin]; [lia|]);
           by apply elem_of_nil in Hin|]).
  apply NoDup_nil_2.
Qed.

Lemma test_map_numeric : numeric (animals_of (cells_array test_map)).
Proof. repeat constructor; by eexists. Qed.

Lemma migration_conserves_animals_witness :
  exists m' s',
    Map_migrate (RS := sample_source) default_config test_map sample_sys = Ok (m', s')
    /\ NoDup (ident <$> animals_of (cells_array m')).
Proof.
  destruct (migration_conserves_animals (RS := sample_source)
              (HL := sample_source_laws) default_config test_map
              sample_sys eq_refl Herbivores_parameter_complete
              Carnivores_parameter_complete
              test_map_numeric test_map_distinct)
    as (m' & s' & Hrun & _ & _ & _ & _ & Hnd & _).
  exists m', s'. exact (conj Hrun Hnd).
Defined.

(** * Further properties of the code *)

(** ** Fitness *)

Lemma fitness_formula_monotone (pm x y xh phi : R) :
  (pm * phi * (x - xh) <= pm * phi * (y - xh))%R ->
  (fitness_formula pm y xh phi <= fitness_formula pm x xh phi)%R.
Proof.
  intros Hle. unfold fitness_formula.
  pose proof (exp_pos (pm * phi * (x - xh))) as Hx.
  pose proof (exp_pos (pm * phi * (y - xh))) as Hy.
  assert (exp (pm * phi * (x - xh)) <= exp (pm * phi * (y - xh)))%R as He.
  { destruct Hle as [Hlt|Heq]; [left; by apply exp_increasing|right; by rewrite Heq]. }
  unfold Rdiv. rewrite !Rmult_1_l.
  apply Rinv_le_contravar; lra.
Qed.

Lemma fitness_run (par : gmap string R) (self : Animal) (w a_half phi_age w_half phi_weight : R) :
  weight self = Some w -> (0 < w)%R ->
  par !! "a_half" = Some a_half -> par !! "phi_age" = Some phi_age ->
  par !! "w_half" = Some w_half -> par !! "phi_weight" = Some phi_weight ->
  fitness par self
  = Ok (fitness_formula 1 (IZR (age self)) a_half phi_age
        * fitness_formula (-1) w w_half phi_weight)%R.
Proof.
  intros Hw Hpos H1 H2 H3 H4. unfold fitness. rewrite Hw. simpl.
  destruct (decide (w <= 0)%R); [lra|].
  unfold fitness_calculation.
  rewrite (param_Some _ _ _ H1), (param_Some _ _ _ H2),
    (param_Some _ _ _ H3), (param_Some _ _ _ H4). done.
Qed.

Lemma fitness_starved (par : gmap string R) (self : Animal) (w : R) :
  weight self = Some w -> (w <= 0)%R -> fitness par self = Ok 0%R.
Proof.
  intros Hw Hle. unfold fitness. rewrite Hw. simpl.
  by destruct (decide (w <= 0)%R).
Qed.

(** X1: the fitness of an animal with a weight is a number of the half-open
    unit interval; it is zero exactly for the animals whose weight is zero
    or below, for which no parameter is read. *)
Theorem fitness_bounds (par : gmap string R) (self : Animal) (w : R) :
  weight self = Some w ->
  ((w <= 0)%R -> fitness par self = Ok 0%R)
  /\ (complete par ->
      exists phi, fitness par self = Ok phi
                  /\ (0 <= phi < 1)%R /\ (phi = 0%R <-> (w <= 0)%R)).
Proof.
  intros Hw. split; [by apply fitness_starved|].
  intros Hc. destruct (fitness_total par self Hc) as [phi Hphi]; [by eexists|].
  exists phi. split; [done|]. split; [by eapply fitness_range|].
  destruct (decide (w <= 0)%R) as [Hle|Hpos].
  - rewrite (fitness_starved par self w Hw Hle) in Hphi. injection Hphi as <-. done.
  - get_param Hc "a_half" v1 H1. get_param Hc "phi_age" v2 H2.
    get_param Hc "w_half" v3 H3. get_param Hc "phi_weight" v4 H4.
    apply param_Ok_inv in H1, H2, H3, H4.
    rewrite (fitness_run par self w v1 v2 v3 v4 Hw ltac:(lra) H1 H2 H3 H4) in Hphi.
    injection Hphi as <-.
    pose proof (fitness_formula_range 1 (IZR (age self)) v1 v2).
    pose proof (fitness_formula_range (-1) w v3 v4).
    split; [nra|done].
Qed.

Lemma fitness_bounds_witness :
  exists phi, fitness Herbivores_parameter (Animal_init 0 5 (Some 20%R)) = Ok phi
              /\ (0 <= phi < 1)%R.
Proof.
  destruct (proj2 (fitness_bounds Herbivores_parameter (Animal_init 0 5 (Some 20%R))
                     20%R eq_refl) Herbivores_parameter_complete)
    as (phi & Hphi & Hrange & _).
  exists phi. exact (conj Hphi Hrange).
Defined.

(** X2: of two animals of one species, the one that is no older and no
    lighter is at least as fit, as long as the two steepness parameters
    [phi_age] and [phi_weight] are not negative. *)
Theorem fitness_monotone (par : gmap string R) (a b : Animal) (wa wb fa fb : R)
    (phi_age phi_weight : R) :
  par !! "phi_age" = Some phi_age -> par !! "phi_weight" = Some phi_weight ->
  (0 <= phi_age)%R -> (0 <= phi_weight)%R ->
  weight a = Some wa -> weight b = Some wb ->
  fitness par a = Ok fa -> fitness par b = Ok fb ->
  (age b <= age a)%Z -> (wa <= wb)%R ->
  (fa <= fb)%R.
Proof.
  intros Hpa Hpw Hpa0 Hpw0 Hwa Hwb Hfa Hfb Hage Hw.
  destruct (decide (wa <= 0)%R) as [Hle|Hpos].
  - rewrite (fitness_starved par a wa Hwa Hle) in Hfa. injection Hfa as <-.
    by apply fitness_range in Hfb as [? _].
  - unfold fitness in Hfa, Hfb. rewrite Hwa in Hfa. rewrite Hwb in Hfb. simpl in Hfa, Hfb.
    destruct (decide (wa <= 0)%R); [lra|]. destruct (decide (wb <= 0)%R); [lra|].
    unfold fitness_calculation in Hfa, Hfb.
    inv_rbind Hfa as a_half H1. inv_rbind Hfa as pa H2.
    inv_rbind Hfa as w_half H3. inv_rbind Hfa as pw H4.
    rewrite H1, H2, H3, H4 in Hfb. simpl in Hfb.
    apply param_Ok_inv in H2, H4.
    assert (pa = phi_age) as -> by congruence.
    assert (pw = phi_weight) as -> by congruence.
    injection Hfa as <-. injection Hfb as <-.
    pose proof (fitness_formula_range 1 (IZR (age a)) a_half phi_age).
    pose proof (fitness_formula_range 1 (IZR (age b)) a_half phi_age).
    pose proof (fitness_formula_range (-1) wa w_half phi_weight).
    pose proof (fitness_formula_range (-1) wb w_half phi_weight).
    assert (fitness_formula 1 (IZR (age a)) a_half phi_age
            <= fitness_formula 1 (IZR (age b)) a_half phi_age)%R.
    { apply fitness_formula_monotone. apply IZR_le in Hage. nra. }
    assert (fitness_formula (-1) wa w_half phi_weight
            <= fitness_formula (-1) wb w_half phi_weight)%R.
    { apply fitness_formula_monotone. nra. }
    nra.
Qed.

Lemma fitness_monotone_witness :
  exists fa fb,
    fitness Herbivores_parameter (Animal_init 0 7 (Some 10%R)) = Ok fa
    /\ fitness Herbivores_parameter (Animal_init 1 5 (Some 20%R)) = Ok fb
    /\ (fa <= fb)%R.
Proof.
  destruct (fitness_total Herbivores_parameter (Animal_init 0 7 (Some 10%R))
              Herbivores_parameter_complete ltac:(by eexists)) as [fa Hfa].
  destruct (fitness_total Herbivores_parameter (Animal_init 1 5 (Some 20%R))
              Herbivores_parameter_complete ltac:(by eexists)) as [fb Hfb].
  exists fa, fb. split; [exact Hfa|]. split; [exact Hfb|].
  apply (fitness_monotone Herbivores_parameter (Animal_init 0 7 (Some 10%R))
           (Animal_init 1 5 (Some 20%R)) 10 20 fa fb (6 / 10) (1 / 10));
    [reflexivity|reflexivity|lra|lra|reflexivity|reflexivity|exact Hfa|exact Hfb|
     simpl; lia|lra].
Defined.

Section Ageing.
Context `{RS : RandomSource}.

Lemma weight_loss_run (par : gmap string R) (self : Animal) (w eta : R) :
  par !! "eta" = Some eta -> weight self = Some w ->
  weight_loss_per_year par self = Ok (set_weight (Rmax 0 (w - w * eta)) self).
Proof.
  intros He Hw. unfold weight_loss_per_year.
  rewrite (param_Some _ _ _ He), Hw. cbn. do 2 f_equal.
  unfold Rmax. destruct (decide (w - w * eta < 0)%R), (Rle_dec 0 (w - w * eta)); lra.
Qed.

Lemma grow_and_loose_weight_spec (par : gmap string R) (l : list Animal) (eta : R) :
  par !! "eta" = Some eta -> numeric l ->
  exists l', grow_and_loose_weight par l = Ok l' /\ Forall2 (aged eta) l l'.
Proof.
  intros He Hnum. unfold grow_and_loose_weight.
  induction Hnum as [|a l [w Hw] _ (l' & IH & Hl')].
  - by exists [].
  - cbn [mapM].
    rewrite (weight_loss_run par (growth_per_year a) w eta He Hw). cbn.
    rewrite IH. cbn. eexists. split; [done|]. constructor; [|done].
    repeat split; eauto.
Qed.

Lemma aged_nonneg (eta : R) (l l' : list Animal) :
  Forall2 (aged eta) l l' -> Forall nonneg_weight l'.
Proof.
  induction 1 as [|a a' l l' (_ & _ & _ & w & _ & Hw') _ IH]; constructor; [|done].
  eexists. split; [done|]. apply Rmax_l.
Qed.

(** X3: the ageing of a cell makes every resident exactly one year older
    and takes the share [eta] of its species off its weight, stopping at
    zero, so that no weight is negative afterwards; the residents, their
    order and their flags, the fodder and the terrain are kept. *)
Theorem ageing_of_a_cell (cfg : Config) (self : Cell) (eta_H eta_C : R) :
  par_H cfg !! "eta" = Some eta_H -> par_C cfg !! "eta" = Some eta_C ->
  numeric (residents_of self) ->
  exists c1 c2,
    grow_and_loose_weight_herbivore cfg self = Ok c1
    /\ grow_and_loose_weight_carnivore cfg c1 = Ok c2
    /\ geography c2 = geography self /\ fodder c2 = fodder self
    /\ Forall2 (aged eta_H) (animal_list self) (animal_list c2)
    /\ Forall2 (aged eta_C) (Carnivores_list self) (Carnivores_list c2)
    /\ Forall nonneg_weight (residents_of c2).
Proof.
  intros HeH HeC Hnum. apply Forall_app in Hnum as [HnH HnC].
  destruct (grow_and_loose_weight_spec (par_H cfg) _ eta_H HeH HnH) as (lH & HrunH & HagedH).
  destruct (grow_and_loose_weight_spec (par_C cfg) _ eta_C HeC HnC) as (lC & HrunC & HagedC).
  exists (set_animal_list lH self), (set_Carnivores_list lC (set_animal_list lH self)).
  split; [unfold grow_and_loose_weight_herbivore; by rewrite HrunH|].
  split.
  { unfold grow_and_loose_weight_carnivore.
    change (Carnivores_list (set_animal_list lH self)) with (Carnivores_list self).
    by rewrite HrunC. }
  repeat (split; [done|]).
  unfold residents_of. simpl. apply Forall_app.
  split; by eapply aged_nonneg.
Qed.

End Ageing.

Lemma ageing_of_a_cell_witness :
  exists c2,
    (grow_and_loose_weight_herbivore default_config
       (mkCell "L" 0 [Animal_init 0 5 (Some 20%R)] [Animal_init 1 5 (Some 20%R)])
     ≫= grow_and_loose_weight_carnivore default_config) = Ok c2
    /\ Forall nonneg_weight (residents_of c2).
Proof.
  destruct (ageing_of_a_cell default_config
              (mkCell "L" 0 [Animal_init 0 5 (Some 20%R)] [Animal_init 1 5 (Some 20%R)])
              (5 / 100) (125 / 1000) eq_refl eq_refl
              ltac:(repeat constructor; by eexists))
    as (c1 & c2 & H1 & H2 & _ & _ & _ & _ & Hnn).
  exists c2. split; [|exact Hnn]. rewrite H1. exact H2.
Defined.

(** ** The coin with a certain outcome *)

Section Hunt.
Context `{RS : RandomSource} {HL : RandomLaws RS}.

Lemma weighted_flip_never (prob : R) (s : sys) :
  (prob <= 0)%R ->
  weighted_flip prob s = Ok (false, mkSys _ (random (gen s)).2 (next_id s)).
Proof.
  intros Hp. rewrite weighted_flip_run. pose proof (random_range (gen s)).
  destruct (decide _); [done|lra].
Qed.

Lemma weighted_flip_always (prob : R) (s : sys) :
  (1 <= prob)%R ->
  weighted_flip prob s = Ok (true, mkSys _ (random (gen s)).2 (next_id s)).
Proof.
  intros Hp. rewrite weighted_flip_run. pose proof (random_range (gen s)).
  destruct (decide _); [lra|done].
Qed.

Lemma kill_probability_cases (par : gmap string R) (fit af delta : R) :
  par !! "DeltaPhiMax" = Some delta ->
  exists p, kill_probability par fit af = Ok p
    /\ (0 <= p <= 1)%R
    /\ ((fit <= af)%R -> p = 0%R)
    /\ ((af < fit)%R -> (delta <= fit - af)%R -> p = 1%R)
    /\ ((af < fit)%R -> (fit - af < delta)%R -> p = ((fit - af) / delta)%R).
Proof.
  intros Hd. unfold kill_probability. rewrite (param_Some _ _ _ Hd). cbn.
  destruct (decide (fit <= af)%R) as [Hle|Hgt].
  { eexists. split; [done|]. repeat split; intros; lra. }
  destruct (decide (0 < fit - af)%R) as [Hpos|Hn]; [|lra].
  destruct (decide (fit - af < delta)%R) as [Hlt|Hge].
  - eexists. split; [done|].
    assert (0 < delta)%R as Hdpos by lra.
    assert (0 < (fit - af) / delta < 1)%R as Hrange.
    { split.
      - by apply Rdiv_lt_0_compat.
      - apply (Rmult_lt_reg_r delta); [done|]. unfold Rdiv.
        rewrite Rmult_assoc, Rinv_l by lra. lra. }
    repeat split; intros; lra.
  - eexists. split; [done|]. repeat split; intros; lra.
Qed.

Lemma hunt_loop_spec (par par_prey : gmap string R) (fit delta : R)
    (animal_list : list Animal) (s : sys) :
  par !! "DeltaPhiMax" = Some delta -> complete par_prey -> numeric animal_list ->
  exists hunt_list s',
    hunt_loop par par_prey fit animal_list s = Ok (hunt_list, s')
    /\ hunt_list `sublist_of` animal_list
    /\ next_id s' = next_id s
    /\ (forall a, a ∈ hunt_list ->
          exists af, fitness par_prey a = Ok af /\ (af < fit)%R)
    /\ (forall a af, a ∈ animal_list -> fitness par_prey a = Ok af ->
          (af < fit)%R -> (delta <= fit - af)%R -> a ∈ hunt_list).
Proof.
  intros Hd Hc Hnum. revert s.
  induction Hnum as [|a l Ha _ IH]; intros s.
  - exists [], s. split; [done|]. split; [done|]. split; [done|].
    split; intros a; [by intros ?%elem_of_nil|]. by intros af ?%elem_of_nil.
  - cbn [hunt_loop].
    destruct (fitness_total par_prey a Hc Ha) as [af Haf].
    destruct (kill_probability_cases par fit af delta Hd) as (p & Hp & Hrange & H0 & H1 & _).
    erewrite lift_bind_run; [|done]. erewrite lift_bind_run; [|done].
    erewrite M_bind_run; [|apply weighted_flip_run].
    set (s1 := mkSys _ _ _).
    destruct (IH s1) as (hl & s' & Hrun & Hsub & Hid & Hweak & Hsure).
    erewrite M_bind_run; [|done].
    eexists _, s'. split; [done|].
    pose proof (random_range (gen s)) as Hu.
    destruct (decide ((random (gen s)).1 < 1 - p)%R) as [Hmiss|Hhit].
    + split; [by apply sublist_cons|]. split; [done|]. split; [done|].
      intros x xf Hx Hxf Hlt Hge. apply elem_of_cons in Hx as [->|Hx]; [|by eapply Hsure].
      assert (xf = af) as -> by congruence.
      rewrite (H1 Hlt Hge) in Hmiss. lra.
    + split; [by apply sublist_skip|]. split; [done|]. split.
      * intros x Hx. apply elem_of_cons in Hx as [->|Hx]; [|by apply Hweak].
        exists af. split; [done|].
        destruct (Rle_or_lt fit af) as [Hle|Hlt]; [|done].
        rewrite (H0 Hle) in Hhit. lra.
      * intros x xf Hx Hxf Hlt Hge. apply elem_of_cons in Hx as [->|Hx]; [by left|].
        right. by eapply Hsure.
Qed.

(** X4: [hunt] selects prey in the order of the list it is given and never
    a prey that is at least as fit as the hunter; a prey whose fitness is
    [DeltaPhiMax] or more below the hunter's is always selected. A
    carnivore of zero fitness selects nothing. *)
Theorem hunt_spares_fitter_prey (par par_prey : gmap string R) (self : Animal)
    (animal_list : list Animal) (s : sys) (delta : R) :
  complete par -> par !! "DeltaPhiMax" = Some delta -> complete par_prey ->
  is_Some (weight self) -> numeric animal_list ->
  exists fit hunt_list s',
    fitness par self = Ok fit
    /\ hunt par par_prey self animal_list s = Ok (hunt_list, s')
    /\ hunt_list `sublist_of` animal_list
    /\ (forall a, a ∈ hunt_list ->
          exists af, fitness par_prey a = Ok af /\ (af < fit)%R)
    /\ (forall a af, a ∈ animal_list -> fitness par_prey a = Ok af ->
          (af < fit)%R -> (delta <= fit - af)%R -> a ∈ hunt_list)
    /\ (fit = 0%R -> hunt_list = []).
Proof.
  intros Hc Hd Hcp Hw Hnum.
  destruct (fitness_total par self Hc Hw) as [fit Hfit].
  destruct (hunt_loop_spec par par_prey fit delta animal_list s Hd Hcp Hnum)
    as (hl & s' & Hrun & Hsub & _ & Hweak & Hsure).
  exists fit, hl, s'. split; [done|]. split.
  { unfold hunt. erewrite lift_bind_run; done. }
  repeat (split; [done|]).
  intros ->. destruct hl as [|a hl]; [done|].
  destruct (Hweak a ltac:(by left)) as (af & Haf & Hlt).
  apply fitness_range in Haf. lra.
Qed.

End Hunt.

Lemma hunt_spares_fitter_prey_witness :
  exists hunt_list s',
    hunt (RS := sample_source) Carnivores_parameter Herbivores_parameter
      (Animal_init 0 5 (Some 40%R)) [Animal_init 1 100 (Some 60%R)] sample_sys
    = Ok (hunt_list, s')
    /\ hunt_list `sublist_of` [Animal_init 1 100 (Some 60%R)].
Proof.
  destruct (hunt_spares_fitter_prey (RS := sample_source) (HL := sample_source_laws)
              Carnivores_parameter Herbivores_parameter
              (Animal_init 0 5 (Some 40%R)) [Animal_init 1 100 (Some 60%R)] sample_sys
              10 Carnivores_parameter_complete eq_refl Herbivores_parameter_complete
              ltac:(by eexists) ltac:(repeat constructor; by eexists))
    as (fit & hl & s' & _ & Hrun & Hsub & _).
  exists hl, s'. exact (conj Hrun Hsub).
Defined.

(** ** Leaving a cell *)

Section Leaving.
Context `{RS : RandomSource} {HL : RandomLaws RS}.

Lemma choices_uniform_run {A} (population : list A) (s : sys) :
  population ≠ [] ->
  exists x, choices_uniform population s = Ok (x, mkSys _ (random (gen s)).2 (next_id s))
            /\ x ∈ population.
Proof.
  intros Hne. unfold choices_uniform, draw_random.
  pose proof (random_range (gen s)) as Hu.
  unfold mbind at 1, M_bind at 1. destruct (random (gen s)) as [u g]. simpl in Hu.
  set (n := length population).
  assert (0 < n)%nat as Hn by (unfold n; destruct population; [done|simpl; lia]).
  set (r := (u * INR n)%R).
  assert (0 < INR n)%R as Hpos by (by apply lt_0_INR).
  assert (0 <= r < INR n)%R as Hr by (unfold r; nra).
  destruct (base_Int_part r) as [Hlo Hhi].
  assert (0 <= Int_part r < Z.of_nat n)%Z as Hz.
  { split.
    - assert (-1 < Int_part r)%Z; [|lia]. apply lt_IZR. lra.
    - apply lt_IZR. rewrite <- INR_IZR_INZ. lra. }
  destruct (lookup_lt_is_Some_2 population (Z.to_nat (Int_part r)) ltac:(fold n; lia))
    as [x Hx].
  simpl. rewrite Hx. exists x. split; [done|]. by eapply list_elem_of_lookup_2.
Qed.

(** X5: [migrate] returns for every animal with a weight, and what it
    returns is no destination or one of the cells it was offered. It is no
    destination when no cell is offered or when fitness times [mu] is not
    positive; it is a destination when four cells are offered and fitness
    times [mu] is one or more. No object is created. *)
Theorem migrate_cases (par : gmap string R) (self : Animal) (neighbors : list nat)
    (s : sys) (mu : R) :
  complete par -> par !! "mu" = Some mu -> is_Some (weight self) ->
  exists phi r s',
    fitness par self = Ok phi
    /\ migrate par self neighbors s = Ok (r, s')
    /\ next_id s' = next_id s
    /\ (forall d, r = Some d -> d ∈ neighbors /\ (0 < phi * mu)%R)
    /\ (neighbors = [] -> r = None)
    /\ ((1 <= phi * mu)%R -> length neighbors = 4%nat -> is_Some r).
Proof.
  intros Hc Hmu Hw.
  destruct (fitness_total par self Hc Hw) as [phi Hphi]. exists phi.
  assert (forall r s', migrate par self neighbors s = Ok (r, s') ->
            forall d, r = Some d -> d ∈ neighbors) as Hdest.
  { intros r s' Hrun d ->. by eapply migrate_destination. }
  unfold migrate in *.
  erewrite lift_bind_run in Hdest |- *; [|done|done].
  erewrite lift_bind_run in Hdest |- *; [|by apply param_Some|by apply param_Some].
  erewrite M_bind_run in Hdest |- *; [|apply weighted_flip_run|apply weighted_flip_run].
  pose proof (random_range (gen s)) as Hu.
  set (s1 := mkSys _ _ _) in *.
  destruct (decide ((random (gen s)).1 < 1 - phi * mu)%R) as [Hmiss|Hhit].
  { eexists _, _. split; [done|]. split; [done|]. split; [done|].
    split; [done|]. split; [done|]. intros. lra. }
  erewrite M_bind_run in Hdest |- *; [|apply weighted_flip_run|apply weighted_flip_run].
  pose proof (random_range (gen s1)) as Hu1.
  set (s2 := mkSys _ (random (gen s1)).2 (next_id s1)) in *.
  destruct (decide ((random (gen s1)).1 < 1 - phi * mu)%R) as [Hmiss1|Hhit1].
  { eexists _, _. split; [done|]. split; [done|]. split; [done|].
    split; [done|]. split; [done|]. intros. lra. }
  assert (0 < phi * mu)%R as Hpos by lra.
  assert (forall pad, (0 < length neighbors + pad)%nat ->
            exists x, choices_uniform ((Some <$> neighbors) ++ replicate pad None) s2
                      = Ok (x, mkSys _ (random (gen s2)).2 (next_id s2))
                   /\ x ∈ (Some <$> neighbors) ++ replicate pad None) as Hpick.
  { intros pad Hp. apply choices_uniform_run. intros Heq.
    apply (f_equal length) in Heq.
    rewrite length_app, length_fmap, length_replicate in Heq. simpl in Heq. lia. }
  destruct (length neighbors) as [|[|[|[|[|n]]]]] eqn:Hlen.
  - eexists _, _. split; [done|]. split; [done|]. split; [done|].
    split; [done|]. split; [done|]. intros _ [=].
  - destruct (Hpick 3%nat ltac:(lia)) as (x & Hx & Hin). simpl in Hx.
    eexists _, _. split; [done|]. split; [exact Hx|]. split; [done|].
    split; [intros d ->; split; [by eapply Hdest|done]|].
    split; [intros ->; done|]. intros _ [=].
  - destruct (Hpick 2%nat ltac:(lia)) as (x & Hx & Hin). simpl in Hx.
    eexists _, _. split; [done|]. split; [exact Hx|]. split; [done|].
    split; [intros d ->; split; [by eapply Hdest|done]|].
    split; [intros ->; done|]. intros _ [=].
  - destruct (Hpick 1%nat ltac:(lia)) as (x & Hx & Hin). simpl in Hx.
    eexists _, _. split; [done|]. split; [exact Hx|]. split; [done|].
    split; [intros d ->; split; [by eapply Hdest|done]|].
    split; [intros ->; done|]. intros _ [=].
  - destruct (Hpick 0%nat ltac:(lia)) as (x & Hx & Hin). simpl in Hx. rewrite app_nil_r in Hx, Hin.
    eexists _, _. split; [done|]. split; [exact Hx|]. split; [done|].
    split; [intros d ->; split; [by eapply Hdest|done]|].
    split; [intros ->; done|]. intros _ _.
    apply list_elem_of_fmap in Hin as (d & -> & _). by eexists.
  - eexists _, _. split; [done|]. split; [done|]. split; [done|].
    split; [done|]. split; [intros ->; done|]. intros _ [=].
Qed.

End Leaving.

Lemma migrate_cases_witness :
  exists r s',
    migrate (RS := sample_source) Herbivores_parameter (Animal_init 0 5 (Some 20%R))
      [] sample_sys = Ok (r, s')
    /\ r = None.
Proof.
  destruct (migrate_cases (RS := sample_source) (HL := sample_source_laws)
              Herbivores_parameter (Animal_init 0 5 (Some 20%R)) [] sample_sys
              (25 / 100) Herbivores_parameter_complete eq_refl ltac:(by eexists))
    as (phi & r & s' & _ & Hrun & _ & _ & Hnil & _).
  exists r, s'. exact (conj Hrun (Hnil eq_refl)).
Defined.

(** ** Parameter tables keep their keys *)

Lemma update_para_keys_dom (par : gmap string R) (params : list (string * R)) :
  dom (update_para_keys par params).1 = dom par.
Proof.
  revert par. induction params as [|[k v] l IH]; intros par; simpl; [done|].
  destruct (par !! k) as [x|] eqn:Hk; [|done].
  rewrite IH. apply dom_insert_lookup_L. by eexists.
Qed.

Lemma update_para_keys_accepted (par par' : gmap string R) (params : list (string * R)) :
  update_para_keys par params = (par', None) -> par' = set_params par params.
Proof.
  revert par. induction params as [|[k v] l IH]; intros par; simpl.
  - by intros [= <-].
  - destruct (par !! k); [|done]. apply IH.
Qed.

Lemma complete_dom (par par' : gmap string R) :
  dom par' = dom par -> complete par -> complete par'.
Proof.
  intros Hd Hc. unfold complete in *. eapply Forall_impl; [done|].
  intros k Hk. simpl in *. apply elem_of_dom. rewrite Hd. by apply elem_of_dom.
Qed.

Lemma update_para_dom (par : gmap string R) (params : list (string * R)) :
  dom (update_para par params).1 = dom par.
Proof.
  unfold update_para. pose proof (update_para_keys_dom par params) as Hd.
  by destruct (update_para_keys par params) as [par' [e|]].
Qed.

Lemma update_para_error (par : gmap string R) (params : list (string * R)) (e : exn) :
  (update_para par params).2 = Some e -> e = ValueError.
Proof.
  unfold update_para. pose proof (update_para_keys_error par params) as He.
  destruct (update_para_keys par params) as [par' [e'|]]; simpl in *.
  - intros [= <-]. by apply He.
  - intros Hv. destruct (update_para_values (params.*2)) as [e'|] eqn:Hvals; [|done].
    injection Hv as ->. clear He.
    induction (params.*2) as [|v l IH]; [done|]. simpl in Hvals.
    destruct (decide (v < 0)%R); [congruence|by apply IH].
Qed.

(** X6: [update_para] never adds a key to the class table and never removes
    one, whether it returns or raises, so a table that has every key the
    methods of [Animal] read keeps them. It returns exactly when every key
    of the argument is already a key of the table and no value is
    negative; the table is then the one [set_params], the plain dictionary
    update, would give. What it raises is always a value error. *)
Theorem update_para_outcome (par : gmap string R) (params : list (string * R)) :
  dom (update_para par params).1 = dom par
  /\ (complete par -> complete (update_para par params).1)
  /\ ((update_para par params).2 = None
      <-> Forall (fun kv => is_Some (par !! kv.1) /\ (0 <= kv.2)%R) params)
  /\ ((update_para par params).2 = None ->
      (update_para par params).1 = set_params par params)
  /\ (forall e, (update_para par params).2 = Some e -> e = ValueError).
Proof.
  split; [apply update_para_dom|].
  split; [apply complete_dom, update_para_dom|].
  split; [|split; [|apply update_para_error]].
  - pose proof (update_para_rejects par params) as Hrej.
    pose proof (update_para_error par params) as Herr.
    split.
    + intros Hnone. apply Forall_forall. intros kv Hin.
      destruct (par !! kv.1) as [x|] eqn:Hk.
      * split; [by eexists|]. destruct (Rle_or_lt 0 kv.2) as [|Hneg]; [done|].
        assert (Exists (fun kv => par !! kv.1 = None \/ (kv.2 < 0)%R) params) as Hex.
        { apply Exists_exists. exists kv. split; [done|by right]. }
        apply Hrej in Hex. congruence.
      * assert (Exists (fun kv => par !! kv.1 = None \/ (kv.2 < 0)%R) params) as Hex.
        { apply Exists_exists. exists kv. split; [done|by left]. }
        apply Hrej in Hex. congruence.
    + intros Hall. destruct (update_para par params).2 as [e|] eqn:He; [|done].
      rewrite (Herr e eq_refl) in Hrej. destruct Hrej as [Hex _].
      specialize (Hex eq_refl). apply Exists_exists in Hex as (kv & Hin & Hbad).
      rewrite Forall_forall in Hall. destruct (Hall kv Hin) as [[x Hx] Hpos].
      destruct Hbad; [congruence|lra].
  - unfold update_para.
    pose proof (update_para_keys_accepted par) as Hacc.
    destruct (update_para_keys par params) as [par' [e|]] eqn:Hkeys; simpl.
    + intros [=].
    + intros _. by apply Hacc.
Qed.

(** X7: [set_animal_parameters] refuses a species other than the two with a
    type error and changes nothing; for a species it knows it does what
    [update_para] does on the table of that species, and never touches the
    table of the other species or the landscape parameters. Whatever the
    outcome, complete tables stay complete. *)
Theorem set_animal_parameters_frame (cfg : Config) (species : string)
    (params : list (string * R)) :
  ParamCell (set_animal_parameters cfg species params).1 = ParamCell cfg
  /\ (species ≠ "Herbivore" ->
      par_H (set_animal_parameters cfg species params).1 = par_H cfg)
  /\ (species ≠ "Carnivore" ->
      par_C (set_animal_parameters cfg species params).1 = par_C cfg)
  /\ (species ≠ "Herbivore" -> species ≠ "Carnivore" ->
      set_animal_parameters cfg species params = (cfg, Some TypeError))
  /\ (species = "Herbivore" ->
      set_animal_parameters cfg species params
      = (mkConfig (update_para (par_H cfg) params).1 (par_C cfg) (ParamCell cfg),
         (update_para (par_H cfg) params).2))
  /\ (species = "Carnivore" ->
      set_animal_parameters cfg species params
      = (mkConfig (par_H cfg) (update_para (par_C cfg) params).1 (ParamCell cfg),
         (update_para (par_C cfg) params).2))
  /\ (complete (par_H cfg) ->
      complete (par_H (set_animal_parameters cfg species params).1))
  /\ (complete (par_C cfg) ->
      complete (par_C (set_animal_parameters cfg species params).1)).
Proof.
  assert (species = "Herbivore" ->
          set_animal_parameters cfg species params
          = (mkConfig (update_para (par_H cfg) params).1 (par_C cfg) (ParamCell cfg),
             (update_para (par_H cfg) params).2)) as HH.
  { intros ->. unfold set_animal_parameters.
    destruct (decide _) as [_|Hn]; [|by destruct Hn; left].
    destruct (decide ("Herbivore" = "Herbivore")) as [_|]; [|done].
    destruct (update_para (par_H cfg) params) as [t [e|]]; [done|].
    by destruct (decide ("Herbivore" = "Carnivore")). }
  assert (species = "Carnivore" ->
          set_animal_parameters cfg species params
          = (mkConfig (par_H cfg) (update_para (par_C cfg) params).1 (ParamCell cfg),
             (update_para (par_C cfg) params).2)) as HC.
  { intros ->. unfold set_animal_parameters.
    destruct (decide _) as [_|Hn]; [|by destruct Hn; right].
    destruct (decide ("Carnivore" = "Herbivore")) as [|_]; [done|].
    destruct (decide ("Carnivore" = "Carnivore")) as [_|]; [|done].
    by destruct (update_para (par_C cfg) params) as [t e]. }
  assert (species ≠ "Herbivore" -> species ≠ "Carnivore" ->
          set_animal_parameters cfg species params = (cfg, Some TypeError)) as HT.
  { intros H1 H2. unfold set_animal_parameters.
    destruct (decide _) as [[?|?]|_]; done. }
  assert (species = "Herbivore" \/ species = "Carnivore"
          \/ (species ≠ "Herbivore" /\ species ≠ "Carnivore")) as Hcase.
  { destruct (decide (species = "Herbivore")); [by left|].
    destruct (decide (species = "Carnivore")); [by right; left|by right; right]. }
  split_and!; try done.
  - destruct Hcase as [E|[E|[N1 N2]]];
      [rewrite (HH E)|rewrite (HC E)|rewrite (HT N1 N2)]; done.
  - intros N1. destruct (decide (species = "Carnivore")) as [E|N2];
      [rewrite (HC E)|rewrite (HT N1 N2)]; done.
  - intros N2. destruct (decide (species = "Herbivore")) as [E|N1];
      [rewrite (HH E)|rewrite (HT N1 N2)]; done.
  - intros Hc. destruct Hcase as [E|[E|[N1 N2]]];
      [rewrite (HH E)|rewrite (HC E)|rewrite (HT N1 N2)]; simpl; [|done|done].
    eapply complete_dom; [apply update_para_dom|done].
  - intros Hc. destruct Hcase as [E|[E|[N1 N2]]];
      [rewrite (HH E)|rewrite (HC E)|rewrite (HT N1 N2)]; simpl; [done| |done].
    eapply complete_dom; [apply update_para_dom|done].
Qed.

(** ** The landscape parameters *)

(** X8: [set_landscape_parameters] changes nothing when it raises: a type
    error for a landscape other than ['L'] and ['H'], an index error for an
    empty dictionary, a value error when the first value of the dictionary
    is negative, a key error when the dictionary has no ['f_max']. In
    every other case it stores the value given for ['f_max'] under the key
    of the landscape and leaves the other key and the tables of the animals
    alone, so that both keys are always there for [produce_fodder]. *)
Theorem set_landscape_parameters_outcome (cfg : Config) (landscape : string)
    (params : list (string * R)) :
  let r := set_landscape_parameters cfg landscape params in
  par_H r.1 = par_H cfg /\ par_C r.1 = par_C cfg
  /\ dom (ParamCell cfg) ⊆ dom (ParamCell r.1)
  /\ (forall e, r.2 = Some e -> r.1 = cfg)
  /\ (landscape ≠ "L" -> landscape ≠ "H" -> r.2 = Some TypeError)
  /\ (landscape = "L" \/ landscape = "H" ->
      match params with
      | [] => r.2 = Some IndexError
      | (_, first) :: _ =>
          if decide (first < 0)%R then r.2 = Some ValueError
          else match dict_get params "f_max" with
               | None => r.2 = Some KeyError
               | Some v =>
                   r = (mkConfig (par_H cfg) (par_C cfg)
                          (<[f_max_key landscape := v]> (ParamCell cfg)), None)
               end
      end).
Proof.
  unfold set_landscape_parameters, update_cell_para, f_max_key.
  destruct (decide (landscape = "L" \/ landscape = "H")) as [Hl|Hl]; simpl.
  2:{ split_and!; done. }
  assert (landscape ≠ "L" -> landscape ≠ "H" -> False) as Hno
    by (intros H1 H2; by destruct Hl).
  destruct params as [|[k first] rest]; simpl.
  { split_and!; try done; try (by destruct cfg); intros H1 H2; destruct (Hno H1 H2). }
  destruct (decide (first < 0)%R) as [Hneg|Hpos]; simpl.
  { split_and!; try done; try (by destruct cfg); intros H1 H2; destruct (Hno H1 H2). }
  destruct (decide (landscape = "L")) as [->|HnL].
  - destruct (dict_get ((k, first) :: rest) "f_max") as [v|] eqn:Hget; simpl.
    + destruct (decide ("L" = "H")); [done|]. simpl.
      split_and!; try done; try (by destruct cfg);
        first [rewrite dom_insert_L; apply union_subseteq_r|intros H1 H2; destruct (Hno H1 H2)].
    + split_and!; try done; try (by destruct cfg); intros H1 H2; destruct (Hno H1 H2).
  - destruct Hl as [?| ->]; [done|].
    destruct (decide ("H" = "H")); [|done].
    destruct (dict_get ((k, first) :: rest) "f_max") as [v|] eqn:Hget; simpl.
    + split_and!; try done; try (by destruct cfg);
        first [rewrite dom_insert_L; apply union_subseteq_r|intros H1 H2; destruct (Hno H1 H2)].
    + split_and!; try done; try (by destruct cfg); intros H1 H2; destruct (Hno H1 H2).
Qed.

Section Sweeps.
Context `{RS : RandomSource}.

(** A sweep whose body returns [f c] on the cells it visits and draws
    nothing. *)
Lemma sweep_run (mask : ascii -> bool) (body : Cell -> M sys Cell) (f : Cell -> Cell)
    (pre rest : list Cell) (s : sys) :
  (forall c, c ∈ rest -> mask (geography c) = true -> body c s = Ok (f c, s)) ->
  for_range (sweep_with mask body) (seq (length pre) (length rest)) (pre ++ rest) s
  = Ok (pre ++ ((fun c => if mask (geography c) then f c else c) <$> rest), s).
Proof.
  revert pre. induction rest as [|c rest IH]; intros pre Hbody; [done|].
  cbn [length seq for_range fmap list_fmap].
  assert ((pre ++ c :: rest) !! length pre = Some c) as Hk.
  { rewrite lookup_app_r by lia. by rewrite Nat.sub_diag. }
  assert (sweep_with mask body (length pre) (pre ++ c :: rest) s
          = Ok (pre ++ (if mask (geography c) then f c else c) :: rest, s)) as Hstep.
  { unfold sweep_with, cell_step. rewrite Hk.
    destruct (mask (geography c)) eqn:Hm; [|done].
    erewrite M_bind_run; [|apply Hbody; [by left|done]].
    unfold mret, M_ret.
    rewrite insert_app_r_alt by lia. by rewrite Nat.sub_diag. }
  erewrite M_bind_run; [|exact Hstep].
  specialize (IH (pre ++ [if mask (geography c) then f c else c])).
  rewrite length_app in IH. simpl in IH.
  replace (length pre + 1)%nat with (S (length pre)) in IH by lia.
  rewrite <- !app_assoc in IH. simpl in IH. apply IH.
  intros c' Hc'. apply Hbody. by right.
Qed.

Lemma for_cells_run (mask : ascii -> bool) (body : Cell -> M sys Cell) (f : Cell -> Cell)
    (m : Map) (s : sys) :
  (forall c, c ∈ cells_array m -> mask (geography c) = true -> body c s = Ok (f c, s)) ->
  for_cells mask body m s
  = Ok (with_cells m ((fun c => if mask (geography c) then f c else c) <$> cells_array m), s).
Proof.
  intros Hbody. rewrite for_cells_sweep.
  erewrite M_bind_run; [|by apply (sweep_run mask body f [] (cells_array m) s)].
  done.
Qed.

Lemma produce_run (cfg : Config) (m : Map) (s : sys) (f_max_L f_max_H : R) :
  ParamCell cfg !! "f_max_L" = Some f_max_L -> ParamCell cfg !! "f_max_H" = Some f_max_H ->
  produce cfg m s = Ok (with_cells m (supplied f_max_L f_max_H <$> cells_array m), s).
Proof.
  intros HL HH. unfold produce.
  rewrite (for_cells_run is_L_or_H _ (supplied f_max_L f_max_H)).
  - do 3 f_equal. apply list_fmap_ext. intros _ c _. unfold is_L_or_H, supplied.
    destruct (decide (geography c = "L"%char)) as [El|Nl].
    + by rewrite (bool_decide_eq_true_2 _ El).
    + rewrite (bool_decide_eq_false_2 _ Nl). simpl.
      destruct (decide (geography c = "H"%char)) as [Eh|Nh].
      * by rewrite (bool_decide_eq_true_2 _ Eh).
      * by rewrite (bool_decide_eq_false_2 _ Nh).
  - intros c _ Hmask. unfold is_L_or_H in Hmask. unfold produce_fodder, supplied.
    destruct (decide (geography c = "L"%char)) as [El|Nl].
    + destruct (decide (_ \/ _)) as [[E|E]|_]; [rewrite El in E; done..|].
      by rewrite (param_Some _ _ _ HL).
    + rewrite (bool_decide_eq_false_2 _ Nl) in Hmask. simpl in Hmask.
      apply bool_decide_eq_true in Hmask.
      destruct (decide (_ \/ _)) as [[E|E]|_]; [rewrite Hmask in E; done..|].
      destruct (decide (geography c = "H"%char)); [|done].
      by rewrite (param_Some _ _ _ HH).
Qed.

Lemma reset_fodder_run (m : Map) (s : sys) :
  reset_fodder m s = Ok (with_cells m (cleared <$> cells_array m), s).
Proof.
  unfold reset_fodder. rewrite (for_cells_run not_W _ (set_fodder 0)); [|done].
  do 3 f_equal. apply list_fmap_ext. intros _ c _. unfold not_W, cleared.
  destruct (decide (geography c = "W"%char)) as [E|N].
  - rewrite bool_decide_eq_false_2; [done|]. by intros ?.
  - by rewrite bool_decide_eq_true_2.
Qed.

(** X9: [produce] adds [f_max_L] to the fodder of every Lowland cell and
    [f_max_H] to that of every Highland cell, and [reset_fodder] sets the
    fodder of every cell but the Water cells to zero; neither touches
    anything else or draws a random number. One after the other, as from
    one year to the next, they leave exactly the yearly supply on Lowland and
    Highland and nothing on Desert. *)
Theorem produce_after_reset (cfg : Config) (m : Map) (s : sys) (f_max_L f_max_H : R) :
  ParamCell cfg !! "f_max_L" = Some f_max_L -> ParamCell cfg !! "f_max_H" = Some f_max_H ->
  produce cfg m s = Ok (with_cells m (supplied f_max_L f_max_H <$> cells_array m), s)
  /\ reset_fodder m s = Ok (with_cells m (cleared <$> cells_array m), s)
  /\ exists m1 m2,
       reset_fodder m s = Ok (m1, s) /\ produce cfg m1 s = Ok (m2, s)
       /\ shape m2 = shape m
       /\ Forall2 (fun c c' =>
            geography c' = geography c
            /\ animal_list c' = animal_list c /\ Carnivores_list c' = Carnivores_list c
            /\ (geography c = "L"%char -> fodder c' = (0 + f_max_L)%R)
            /\ (geography c = "H"%char -> fodder c' = (0 + f_max_H)%R)
            /\ (geography c = "D"%char -> fodder c' = 0%R)
            /\ (geography c = "W"%char -> fodder c' = fodder c))
          (cells_array m) (cells_array m2).
Proof.
  intros HL HH. split; [by apply produce_run|]. split; [apply reset_fodder_run|].
  eexists _, _. split; [apply reset_fodder_run|]. split; [by apply produce_run|].
  split; [done|]. simpl. rewrite <- list_fmap_compose.
  apply Forall2_fmap_r, Forall_Forall2_diag, Forall_forall. intros c _.
  unfold compose, supplied, cleared.
  destruct (decide (geography c = "W"%char)) as [Ew|Nw].
  - rewrite Ew. simpl. rewrite Ew. split_and!; try done.
    all: destruct (decide ("W"%char = "L"%char)); try done.
  - simpl.
    destruct (decide (geography c = "L"%char)) as [El|Nl];
      [|destruct (decide (geography c = "H"%char)) as [Eh|Nh]]; simpl.
    + split_and!; try done; rewrite El; done.
    + split_and!; try done; rewrite Eh; done.
    + split_and!; done.
Qed.

End Sweeps.

Lemma produce_after_reset_witness :
  exists m2,
    (reset_fodder (RS := sample_source) small_map ≫= produce default_config) sample_sys
    = Ok (m2, sample_sys)
    /\ shape m2 = shape small_map.
Proof.
  destruct (produce_after_reset (RS := sample_source) default_config small_map sample_sys
              800 300 eq_refl eq_refl) as (_ & _ & m1 & m2 & H1 & H2 & Hs & _).
  exists m2. split; [|exact Hs].
  unfold mbind, M_bind. rewrite H1. exact H2.
Defined.

(** ** The dead are removed *)

Section Deaths.
Context `{RS : RandomSource}.

Lemma remove_all_skip (x : Animal) (died l : list Animal) :
  Forall (fun d => ident d ≠ ident x) died ->
  remove_all died (x :: l)
  = match remove_all died l with
    | Ok l' => Ok (x :: l')
    | Raise e => Raise e
    end.
Proof.
  intros Hne. revert l. induction Hne as [|d died Hd _ IH]; intros l; [done|].
  cbn [remove_all list_remove].
  destruct (decide (ident x = ident d)) as [E|_]; [by rewrite E in Hd|].
  destruct (list_remove d l) as [l1|e]; [|done]. cbn. apply IH.
Qed.

(** Taking a sublist out of a list of distinct objects leaves the rest. *)
Lemma remove_all_sublist (died l : list Animal) :
  NoDup (ident <$> l) -> died `sublist_of` l ->
  exists l', remove_all died l = Ok l'
    /\ l' `sublist_of` l /\ l ≡ₚ died ++ l'.
Proof.
  intros Hnd Hsub. induction Hsub as [|x died l Hsub IH|x died l Hsub IH].
  - by exists [].
  - rewrite fmap_cons in Hnd. apply NoDup_cons in Hnd as [_ Hnd].
    destruct (IH Hnd) as (l' & Hrun & Hsub' & Hperm).
    exists l'. split.
    + cbn [remove_all list_remove]. by destruct (decide (ident x = ident x)).
    + split; [by apply sublist_cons|]. simpl. by rewrite <- Hperm.
  - rewrite fmap_cons in Hnd. apply NoDup_cons in Hnd as [Hx Hnd].
    destruct (IH Hnd) as (l' & Hrun & Hsub' & Hperm).
    exists (x :: l'). split; [|split].
    + rewrite remove_all_skip; [by rewrite Hrun|].
      apply Forall_forall. intros d Hd E. apply Hx. rewrite <- E.
      apply list_elem_of_fmap_2. by eapply elem_of_sublist.
    + by apply sublist_skip.
    + rewrite <- Permutation_middle. by rewrite <- Hperm.
Qed.

Lemma die_starved (par : gmap string R) (a : Animal) (s : sys) :
  weight a = Some 0%R -> die par a s = Ok (true, s).
Proof.
  intros Hw. unfold die. by rewrite (proj2 (weight_is_zero_true a) Hw).
Qed.

Lemma die_state (par : gmap string R) (a : Animal) (s s' : sys) (dies : bool) :
  die par a s = Ok (dies, s') -> next_id s' = next_id s.
Proof.
  unfold die. destruct (weight_is_zero a); intros H.
  - by inv_ret H.
  - inv_lift H as omega Ho. inv_lift H as phi Hphi. by eapply weighted_flip_state.
Qed.

Lemma death_loop_spec (par : gmap string R) (l : list Animal) (s : sys) :
  complete par -> numeric l ->
  exists died s',
    death_loop par l s = Ok (died, s')
    /\ died `sublist_of` l
    /\ (forall a, a ∈ l -> weight a = Some 0%R -> a ∈ died)
    /\ next_id s' = next_id s.
Proof.
  intros Hc Hnum. revert s. induction Hnum as [|a l Ha _ IH]; intros s.
  - exists [], s. split; [done|]. split; [done|]. split; [|done].
    by intros a ?%elem_of_nil.
  - cbn [death_loop].
    destruct (die_total par a s Hc Ha) as ([dies s1] & Hdie).
    erewrite M_bind_run; [|exact Hdie].
    destruct (IH s1) as (died & s' & Hrun & Hsub & Hzero & Hid).
    erewrite M_bind_run; [|exact Hrun].
    pose proof (die_state _ _ _ _ _ Hdie) as Hid1.
    eexists _, s'. split; [done|]. destruct dies.
    + split; [by apply sublist_skip|]. split; [|congruence].
      intros x Hx Hw. apply elem_of_cons in Hx as [->|Hx]; [by left|].
      right. by apply Hzero.
    + split; [by apply sublist_cons|]. split; [|congruence].
      intros x Hx Hw. apply elem_of_cons in Hx as [->|Hx]; [|by apply Hzero].
      rewrite (die_starved par a s Hw) in Hdie. congruence.
Qed.

Lemma death_spec (par : gmap string R) (l : list Animal) (s : sys) :
  complete par -> numeric l -> NoDup (ident <$> l) ->
  exists died l' s',
    death_loop par l s = Ok (died, s')
    /\ remove_all died l = Ok l'
    /\ next_id s' = next_id s
    /\ buried l died l'.
Proof.
  intros Hc Hnum Hnd.
  destruct (death_loop_spec par l s Hc Hnum) as (died & s' & Hrun & Hsub & Hzero & Hid).
  destruct (remove_all_sublist died l Hnd Hsub) as (l' & Hrem & Hsub' & Hperm).
  exists died, l', s'. split; [done|]. split; [done|]. split; [done|].
  split; [done|]. split; [done|]. split; [done|]. split; [done|].
  apply Forall_forall. intros a Ha Hw.
  assert (a ∈ died) as Hd by (apply Hzero; [by eapply elem_of_sublist|done]).
  assert (NoDup (died ++ l')) as Hnd'.
  { rewrite <- Hperm. by eapply NoDup_fmap_1. }
  apply NoDup_app in Hnd' as (_ & Hdisj & _). by apply (Hdisj a).
Qed.

(** X10: the death of a cell returns when every resident has a weight. Each
    species loses exactly the animals for which [die] said yes: the dead and
    the survivors are the residents, each once, both in their old order.
    Every resident of weight zero is among the dead and no survivor has
    weight zero. Fodder and terrain are kept. *)
Theorem death_removes_the_dead (cfg : Config) (self : Cell) (s : sys) :
  complete (par_H cfg) -> complete (par_C cfg) ->
  numeric (residents_of self) ->
  NoDup (ident <$> animal_list self) -> NoDup (ident <$> Carnivores_list self) ->
  exists c1 died_animal_list s1 c2 died_carnivores_list s2,
    herbivore_death cfg self s = Ok ((c1, died_animal_list), s1)
    /\ carnivore_death cfg c1 s1 = Ok ((c2, died_carnivores_list), s2)
    /\ buried (animal_list self) died_animal_list (animal_list c2)
    /\ buried (Carnivores_list self) died_carnivores_list (Carnivores_list c2)
    /\ geography c2 = geography self /\ fodder c2 = fodder self.
Proof.
  intros HcH HcC Hnum HndH HndC. apply Forall_app in Hnum as [HnH HnC].
  destruct (death_spec (par_H cfg) _ s HcH HnH HndH)
    as (dH & lH & s1 & HrunH & HremH & _ & HbH).
  destruct (death_spec (par_C cfg) _ s1 HcC HnC HndC)
    as (dC & lC & s2 & HrunC & HremC & _ & HbC).
  exists (set_animal_list lH self), dH, s1,
    (set_Carnivores_list lC (set_animal_list lH self)), dC, s2.
  split; [|split].
  - unfold herbivore_death. erewrite M_bind_run; [|exact HrunH].
    erewrite lift_bind_run; done.
  - unfold carnivore_death.
    change (Carnivores_list (set_animal_list lH self)) with (Carnivores_list self).
    erewrite M_bind_run; [|exact HrunC]. erewrite lift_bind_run; done.
  - done.
Qed.

End Deaths.

Lemma death_removes_the_dead_witness :
  exists c1 died s1,
    herbivore_death (RS := sample_source) default_config
      (mkCell "L" 0 [Animal_init 0 5 (Some 0%R); Animal_init 1 5 (Some 20%R)] []) sample_sys
    = Ok ((c1, died), s1)
    /\ Animal_init 0 5 (Some 0%R) ∈ died.
Proof.
  destruct (death_removes_the_dead (RS := sample_source) default_config
              (mkCell "L" 0 [Animal_init 0 5 (Some 0%R); Animal_init 1 5 (Some 20%R)] [])
              sample_sys Herbivores_parameter_complete Carnivores_parameter_complete
              ltac:(repeat constructor; by eexists)
              ltac:(apply (NoDup_cons_2 (A := nat)); [by intros ?%list_elem_of_singleton|];
                    apply NoDup_singleton)
              ltac:(apply NoDup_nil_2))
    as (c1 & died & s1 & c2 & dC & s2 & H1 & _ & (_ & _ & _ & Hzero & _) & _).
  exists c1, died, s1. split; [exact H1|].
  apply Hzero; [by left|reflexivity].
Defined.

(** ** Sorting by weight *)

Lemma dict_items_distinct (l : list Animal) (seen : list nat) :
  NoDup (ident <$> l) -> Forall (fun a => ident a ∉ seen) l ->
  dict_items l seen = l.
Proof.
  revert seen. induction l as [|a l IH]; intros seen Hnd Hseen; [done|].
  rewrite fmap_cons in Hnd. apply NoDup_cons in Hnd as [Ha Hnd].
  apply Forall_cons in Hseen as [Hs Hseen]. cbn [dict_items].
  destruct (decide (ident a ∈ seen)); [done|]. f_equal. apply IH; [done|].
  rewrite Forall_forall in Hseen |- *. intros x Hx Hin.
  apply elem_of_cons in Hin as [E|Hin]; [|by apply (Hseen x)].
  apply Ha. rewrite <- E. by apply list_elem_of_fmap_2.
Qed.

Lemma insert_sorted_perm (desc : bool) (a : Animal) (l : list Animal) :
  insert_sorted desc a l ≡ₚ a :: l.
Proof.
  induction l as [|b l IH]; [done|]. cbn [insert_sorted].
  destruct (if desc then _ else _); [|done].
  rewrite IH. apply Permutation_swap.
Qed.

Lemma sort_perm (desc : bool) (l : list Animal) :
  foldr (insert_sorted desc) [] l ≡ₚ l.
Proof.
  induction l as [|a l IH]; [done|]. simpl. by rewrite insert_sorted_perm, IH.
Qed.

Lemma sorted_by_weight_run (desc : bool) (l : list Animal) :
  numeric l -> sorted_by_weight desc l = Ok (foldr (insert_sorted desc) [] l).
Proof.
  intros Hnum. unfold sorted_by_weight.
  destruct l as [|a [|b l]]; [done|done|].
  by rewrite (numeric_weights _ Hnum).
Qed.

Lemma insert_heaviest_first (a : Animal) (l : list Animal) :
  heaviest_first l -> heaviest_first (insert_sorted true a l).
Proof.
  unfold heaviest_first. induction 1 as [|b l Hl IH Hb]; cbn [insert_sorted].
  - by repeat constructor.
  - destruct (bool_decide (weight_key a < weight_key b)%R) eqn:Hab.
    + apply bool_decide_eq_true in Hab. constructor; [done|].
      rewrite insert_sorted_perm. constructor; [lra|done].
    + apply bool_decide_eq_false in Hab. constructor; [by constructor|].
      constructor; [lra|]. eapply Forall_impl; [done|]. simpl. intros. lra.
Qed.

Lemma insert_lightest_first (a : Animal) (l : list Animal) :
  lightest_first l -> lightest_first (insert_sorted false a l).
Proof.
  unfold lightest_first. induction 1 as [|b l Hl IH Hb]; cbn [insert_sorted].
  - by repeat constructor.
  - destruct (bool_decide (weight_key b < weight_key a)%R) eqn:Hab.
    + apply bool_decide_eq_true in Hab. constructor; [done|].
      rewrite insert_sorted_perm. constructor; [lra|done].
    + apply bool_decide_eq_false in Hab. constructor; [by constructor|].
      constructor; [lra|]. eapply Forall_impl; [done|]. simpl. intros. lra.
Qed.

Lemma sort_heaviest_first (l : list Animal) :
  heaviest_first (foldr (insert_sorted true) [] l).
Proof.
  induction l as [|a l IH]; [constructor|]. simpl. by apply insert_heaviest_first.
Qed.

Lemma sort_lightest_first (l : list Animal) :
  lightest_first (foldr (insert_sorted false) [] l).
Proof.
  induction l as [|a l IH]; [constructor|]. simpl. by apply insert_lightest_first.
Qed.

Lemma py_sum_perm (l1 l2 : list R) : l1 ≡ₚ l2 -> py_sum l1 = py_sum l2.
Proof. induction 1; simpl; lra. Qed.

Lemma total_weight_perm (l1 l2 : list Animal) :
  l1 ≡ₚ l2 -> total_weight l1 = total_weight l2.
Proof. intros H. unfold total_weight. apply py_sum_perm. by rewrite H. Qed.

Lemma total_weight_app (l1 l2 : list Animal) :
  total_weight (l1 ++ l2) = (total_weight l1 + total_weight l2)%R.
Proof. unfold total_weight. by rewrite fmap_app, py_sum_app. Qed.

Lemma total_weight_cons (a : Animal) (l : list Animal) :
  total_weight (a :: l) = (weight_key a + total_weight l)%R.
Proof. done. Qed.

Lemma total_weight_nonneg (l : list Animal) :
  Forall nonneg_weight l -> (0 <= total_weight l)%R.
Proof. intros H. apply py_sum_nonneg. by apply nonneg_keys. Qed.

(** ** The meal of one carnivore *)

Section Meals.
Context `{RS : RandomSource}.

Context {HL : RandomLaws RS}.

(** [eat] returns: the meal is taken from the list it is given, in its
    order, and the carnivore gains [beta] times its weight. *)
Lemma Carnivores_eat_run (par par_prey : gmap string R) (self : Animal)
    (animal_list : list Animal) (s : sys) (beta w delta : R) :
  complete par -> par !! "DeltaPhiMax" = Some delta -> par !! "beta" = Some beta ->
  complete par_prey -> weight self = Some w -> Forall nonneg_weight animal_list ->
  exists eaten s',
    Carnivores_eat par par_prey self animal_list s
    = Ok ((set_weight (w + beta * total_weight eaten) self, eaten), s')
    /\ eaten `sublist_of` animal_list
    /\ next_id s' = next_id s.
Proof.
  intros Hc Hd Hbeta Hcp Hw Hprey.
  get_param Hc "F" F HF. apply param_Ok_inv in HF.
  destruct (fitness_total par self Hc) as [fit Hfit]; [by eexists|].
  destruct (hunt_loop_spec par par_prey fit delta animal_list s Hd Hcp
              (nonneg_numeric _ Hprey)) as (hl & s' & Hloop & Hsub & Hid & _).
  assert (hunt par par_prey self animal_list s = Ok (hl, s')) as Hhunt.
  { unfold hunt. erewrite lift_bind_run; done. }
  assert (Forall nonneg_weight hl) as Hhl.
  { rewrite Forall_forall in Hprey |- *. intros a Ha. apply Hprey.
    by eapply elem_of_sublist. }
  pose proof (nonneg_keys hl Hhl) as Hkeys.
  pose proof (cumsum_nondecreasing _ Hkeys) as Hmono.
  set (ws := weight_key <$> hl) in *.
  assert (length (cumsum ws) = length hl) as Hlen.
  { unfold cumsum. rewrite cumsum_from_length. unfold ws. by rewrite length_fmap. }
  assert (forall i, (i < length hl)%nat ->
            getitem (cumsum ws) i = Ok (total_weight (take (S i) hl))) as Hcum.
  { intros i Hi. unfold getitem. rewrite cumsum_lookup.
    - by rewrite total_weight_take.
    - unfold ws. by rewrite length_fmap. }
  unfold Carnivores_eat. erewrite M_bind_run; [|done].
  erewrite lift_bind_run; [|by apply numeric_weights, nonneg_numeric].
  fold ws. cbv zeta. rewrite Hlen.
  destruct (decide (length hl < 2)%nat) as [Hshort|Hlong].
  - erewrite lift_bind_run; [|by apply param_Some].
    erewrite lift_bind_run; [|by rewrite Hw].
    assert (py_sum (cumsum ws) = total_weight hl) as ->.
    { clear -Hshort. unfold ws, total_weight, cumsum.
      destruct hl as [|a [|b hl']]; simpl in *; [done|lra|lia]. }
    by exists hl, s'.
  - erewrite lift_bind_run; [|by apply param_Some].
    erewrite lift_bind_run; [|apply Hcum; lia].
    replace (S (length hl - 2)) with (length hl - 1)%nat by lia.
    destruct (decide (F > total_weight (take (length hl - 1) hl))%R) as [Hunder|Hover].
    + erewrite lift_bind_run; [|by apply param_Some].
      erewrite lift_bind_run; [|apply Hcum; lia].
      erewrite lift_bind_run; [|by rewrite Hw].
      replace (S (length hl - 1)) with (length hl) by lia. rewrite firstn_all.
      by exists hl, s'.
    + destruct (searchsorted_left_spec (cumsum ws) F Hmono) as (Hr & Hbelow & Habove).
      set (r := searchsorted_left (cumsum ws) F) in *.
      assert (r <= length hl - 2)%nat as Hrle.
      { destruct (decide (r <= length hl - 2)%nat) as [|Hgt]; [done|].
        exfalso. apply Hover.
        assert (cumsum ws !! (length hl - 2)%nat
                = Some (total_weight (take (length hl - 1) hl))) as Hl.
        { specialize (Hcum (length hl - 2)%nat ltac:(lia)).
          unfold getitem in Hcum. destruct (cumsum ws !! _); [|done].
          replace (S (length hl - 2)) with (length hl - 1)%nat in Hcum by lia.
          congruence. }
        pose proof (Hbelow (length hl - 2)%nat _ ltac:(lia) Hl). lra. }
      erewrite lift_bind_run; [|by apply param_Some].
      erewrite lift_bind_run; [|apply Hcum; lia].
      erewrite lift_bind_run; [|by rewrite Hw].
      replace (r + 1)%nat with (S r) by lia.
      exists (take (S r) hl), s'. split; [done|]. split; [|done].
      etrans; [apply sublist_take|done].
Qed.

(** One turn of the loop of [feed_carnivores]. *)
Lemma feed_carnivore_step_spec (cfg : Config) (animal : Animal) (herbivores : list Animal)
    (s : sys) (beta w delta : R) :
  complete (par_C cfg) -> par_C cfg !! "DeltaPhiMax" = Some delta ->
  par_C cfg !! "beta" = Some beta -> complete (par_H cfg) ->
  weight animal = Some w -> Forall nonneg_weight herbivores ->
  NoDup (ident <$> herbivores) ->
  exists eaten herbivores' s',
    feed_carnivore_step cfg animal herbivores s
    = Ok ((set_weight (w + beta * total_weight eaten) animal, herbivores'), s')
    /\ herbivores ≡ₚ eaten ++ herbivores'
    /\ lightest_first herbivores'
    /\ next_id s' = next_id s.
Proof.
  intros Hc Hd Hbeta HcH Hw Hnn Hnd. unfold feed_carnivore_step.
  rewrite dict_items_distinct; [|done|].
  2:{ apply Forall_forall. intros a _. apply not_elem_of_nil. }
  rewrite (sorted_by_weight_run false herbivores (nonneg_numeric _ Hnn)).
  set (hs := foldr (insert_sorted false) [] herbivores).
  assert (hs ≡ₚ herbivores) as Hperm by apply sort_perm.
  erewrite lift_bind_run; [|done].
  destruct (Carnivores_eat_run (par_C cfg) (par_H cfg) animal hs s beta w delta
              Hc Hd Hbeta HcH Hw) as (eaten & s' & Hrun & Hsub & Hid).
  { by rewrite Hperm. }
  erewrite M_bind_run; [|exact Hrun].
  destruct (remove_all_sublist eaten hs) as (l' & Hrem & Hsub' & Hperm'); [|done|].
  { by rewrite Hperm. }
  erewrite lift_bind_run; [|exact Hrem].
  exists eaten, l', s'. split; [done|]. split; [by rewrite <- Hperm, Hperm'|].
  split; [|done].
  unfold lightest_first.
  assert (forall l1 l2 : list Animal, l1 `sublist_of` l2 -> lightest_first l2 ->
            lightest_first l1) as Hss.
  { intros l1 l2 H12. unfold lightest_first.
    induction H12 as [|x l1 l2 H12 IH|x l1 l2 H12 IH]; intros Hs; [done| |].
    - apply StronglySorted_inv in Hs as [Hs Hx]. constructor; [by apply IH|].
      rewrite Forall_forall in Hx |- *. intros y Hy. apply Hx. by eapply elem_of_sublist.
    - apply StronglySorted_inv in Hs as [Hs _]. by apply IH. }
  eapply Hss; [done|]. apply sort_lightest_first.
Qed.

(** The loop of [feed_carnivores]. *)
Lemma feed_carnivores_loop (cfg : Config) (order herbivores : list Animal) (s : sys)
    (beta delta : R) :
  complete (par_C cfg) -> par_C cfg !! "DeltaPhiMax" = Some delta ->
  par_C cfg !! "beta" = Some beta -> complete (par_H cfg) ->
  numeric order -> Forall nonneg_weight herbivores -> NoDup (ident <$> herbivores) ->
  exists carnivores herbivores' eaten s',
    for_each (feed_carnivore_step cfg) order herbivores s
    = Ok ((carnivores, herbivores'), s')
    /\ Forall2 (fed beta) order carnivores
    /\ herbivores ≡ₚ eaten ++ herbivores'
    /\ total_weight carnivores = (total_weight order + beta * total_weight eaten)%R
    /\ next_id s' = next_id s.
Proof.
  intros Hc Hd Hbeta HcH Hnum. revert herbivores s.
  induction Hnum as [|c order [w Hw] _ IH]; intros herbivores s Hnn Hnd.
  - exists [], herbivores, [], s. split; [done|]. split; [done|]. split; [done|].
    split; [|done]. unfold total_weight. simpl. lra.
  - cbn [for_each].
    destruct (feed_carnivore_step_spec cfg c herbivores s beta w delta
                Hc Hd Hbeta HcH Hw Hnn Hnd) as (e1 & h1 & s1 & Hstep & Hperm1 & _ & Hid1).
    erewrite M_bind_run; [|exact Hstep]. cbn beta iota.
    assert (Forall nonneg_weight (e1 ++ h1)) as Hnn1 by (by rewrite <- Hperm1).
    apply Forall_app in Hnn1 as [Hnne Hnnh].
    assert (NoDup (ident <$> h1)) as Hnd1.
    { rewrite Hperm1, fmap_app in Hnd. by apply NoDup_app in Hnd as (_ & _ & ?). }
    destruct (IH h1 s1 Hnnh Hnd1) as (cs & h2 & e2 & s2 & Hloop & Hfed & Hperm2 & Htot & Hid2).
    erewrite M_bind_run; [|exact Hloop]. cbn beta iota.
    exists (set_weight (w + beta * total_weight e1) c :: cs), h2, (e1 ++ e2), s2.
    split; [done|]. split; [|split; [|split]].
    + constructor; [|done]. repeat split; try done.
      exists w, (total_weight e1). split; [done|].
      split; [by apply total_weight_nonneg|done].
    + rewrite Hperm1, Hperm2. by rewrite app_assoc.
    + rewrite total_weight_app, !total_weight_cons, Htot.
      assert (weight_key c = w) as -> by (unfold weight_key; by rewrite Hw).
      change (weight_key (set_weight (w + beta * total_weight e1) c))
        with (w + beta * total_weight e1)%R. lra.
    + congruence.
Qed.

(** X11: [feed_carnivores] returns for a cell whose herbivores have
    non-negative weights and whose carnivores have weights. The carnivores
    are kept, each the same object, and end up in the order of their weights
    before the meal, heaviest first; the herbivores that are left are the
    old ones less those eaten, untouched; and what the carnivores gain
    together is [beta] times the weight of the herbivores that disappeared.
    Fodder and terrain are kept and no object is created. *)
Theorem feed_carnivores_balance (cfg : Config) (self : Cell) (s : sys) (beta delta : R) :
  complete (par_C cfg) -> par_C cfg !! "DeltaPhiMax" = Some delta ->
  par_C cfg !! "beta" = Some beta -> complete (par_H cfg) ->
  numeric (Carnivores_list self) -> Forall nonneg_weight (animal_list self) ->
  NoDup (ident <$> animal_list self) -> NoDup (ident <$> Carnivores_list self) ->
  exists self' s' order eaten,
    feed_carnivores cfg self s = Ok (self', s')
    /\ order ≡ₚ Carnivores_list self /\ heaviest_first order
    /\ Forall2 (fed beta) order (Carnivores_list self')
    /\ animal_list self ≡ₚ eaten ++ animal_list self'
    /\ total_weight (Carnivores_list self')
       = (total_weight (Carnivores_list self) + beta * total_weight eaten)%R
    /\ geography self' = geography self /\ fodder self' = fodder self
    /\ next_id s' = next_id s.
Proof.
  intros Hc Hd Hbeta HcH Hnum Hnn HndH HndC. unfold feed_carnivores.
  destruct (decide (0 < length (Carnivores_list self))%nat) as [Hpos|Hnone].
  - rewrite dict_items_distinct; [|done|].
    2:{ apply Forall_forall. intros a _. apply not_elem_of_nil. }
    rewrite (sorted_by_weight_run true _ Hnum).
    set (order := foldr (insert_sorted true) [] (Carnivores_list self)).
    assert (order ≡ₚ Carnivores_list self) as Hperm by apply sort_perm.
    erewrite lift_bind_run; [|done].
    destruct (feed_carnivores_loop cfg order (animal_list self) s beta delta
                Hc Hd Hbeta HcH) as (cs & hs & eaten & s' & Hloop & Hfed & Hp & Htot & Hid);
      [by (unfold numeric; rewrite Hperm)|done|done|].
    erewrite M_bind_run; [|exact Hloop]. cbn beta iota.
    exists (set_animal_list hs (set_Carnivores_list cs self)), s', order, eaten.
    split; [done|]. split; [done|]. split; [apply sort_heaviest_first|].
    split; [done|]. split; [done|]. split; [|done].
    simpl. rewrite Htot. by rewrite (total_weight_perm _ _ Hperm).
  - destruct (Carnivores_list self) as [|c cs] eqn:HC; [|simpl in Hnone; lia].
    exists self, s, [], []. rewrite HC. split; [done|]. split; [done|].
    split; [constructor|]. split; [constructor|]. split; [done|].
    split; [|done]. unfold total_weight. simpl. lra.
Qed.

End Meals.

Lemma lucky_source_laws : RandomLaws lucky_source.
Proof.
  split.
  - intros g. simpl. lra.
  - intros A l g. simpl. apply reverse_Permutation.
Qed.

Lemma feed_carnivores_balance_witness :
  exists self' s',
    feed_carnivores (RS := lucky_source) default_config
      (mkCell "L" 0 [Animal_init 1 100 (Some 60%R)] [Animal_init 0 5 (Some 40%R)])
      lucky_sys = Ok (self', s')
    /\ fodder self' = 0%R.
Proof.
  destruct (feed_carnivores_balance (RS := lucky_source) (HL := lucky_source_laws)
              default_config
              (mkCell "L" 0 [Animal_init 1 100 (Some 60%R)] [Animal_init 0 5 (Some 40%R)])
              lucky_sys (75 / 100) 10
              Carnivores_parameter_complete eq_refl eq_refl Herbivores_parameter_complete
              ltac:(repeat constructor; by eexists)
              ltac:(repeat constructor; exists 60%R; split; [done|lra])
              ltac:(apply NoDup_singleton) ltac:(apply NoDup_singleton))
    as (self' & s' & order & eaten & Hrun & _ & _ & _ & _ & _ & _ & Hf & _).
  exists self', s'. exact (conj Hrun Hf).
Defined.

(** ** Rows of equal length *)

Lemma split_lines_nonempty (l line : list ascii) : split_lines l line ≠ [].
Proof.
  revert line. induction l as [|c l IH]; intros line; simpl; [done|].
  destruct (decide (c = "010"%char)); [done|apply IH].
Qed.

Lemma remove_dups_short {A} `{EqDecision A} (l : list A) (x y : A) :
  ¬ (1 < length (remove_dups l))%nat -> x ∈ l -> y ∈ l -> x = y.
Proof.
  intros Hlen Hx Hy.
  apply elem_of_remove_dups in Hx, Hy.
  destruct (remove_dups l) as [|a [|b l']]; simpl in Hlen; [|..|lia].
  - by apply elem_of_nil in Hx.
  - apply list_elem_of_singleton in Hx, Hy. congruence.
Qed.

Lemma concat_uniform_length {A} (rows : list (list A)) (w : nat) :
  Forall (fun row => length row = w) rows -> length (concat rows) = (length rows * w)%nat.
Proof.
  induction 1 as [|row rows Hrow _ IH]; [done|].
  simpl. rewrite length_app, IH, Hrow. done.
Qed.

Lemma concat_uniform_lookup {A} (rows : list (list A)) (w i j : nat) :
  Forall (fun row => length row = w) rows -> (j < w)%nat ->
  concat rows !! (i * w + j)%nat = rows !! i ≫= (.!! j).
Proof.
  intros Hrows Hj. revert i. induction Hrows as [|row rows Hrow _ IH]; intros i.
  - by rewrite !lookup_nil.
  - destruct i as [|i]; simpl.
    + rewrite lookup_app_l by lia. done.
    + rewrite lookup_app_r by lia.
      replace (w + i * w + j - length row)%nat with (i * w + j)%nat by lia. apply IH.
Qed.

Lemma mapM_lookup {A B} (f : A -> result B) (l : list A) (k : list B) (i : nat) (x : A) :
  mapM f l = Ok k -> l !! i = Some x -> exists y, f x = Ok y /\ k !! i = Some y.
Proof.
  revert k i. induction l as [|a l IH]; intros k i Hmap Hi; [done|].
  cbn [mapM] in Hmap. inv_rbind Hmap as y Hy. inv_rbind Hmap as k' Hk'.
  injection Hmap as <-. destruct i as [|i]; simpl in Hi.
  - injection Hi as ->. by exists y.
  - by apply (IH k' i).
Qed.

Lemma mapM_length {A B} (f : A -> result B) (l : list A) (k : list B) :
  mapM f l = Ok k -> length k = length l.
Proof.
  revert k. induction l as [|a l IH]; intros k Hmap.
  - by injection Hmap as <-.
  - cbn [mapM] in Hmap. inv_rbind Hmap as y Hy. inv_rbind Hmap as k' Hk'.
    injection Hmap as <-. simpl. f_equal. by apply IH.
Qed.

(** X12: a map that [BioSim] accepts is a rectangle with at least one row
    and one column; [Map] builds from it a grid of that shape whose cells
    carry the letters of the map in reading order, each one of the four
    terrains, without fodder and without animals; every cell of the first
    and last row and column is Water, so that a cell of another terrain has
    all four adjacent cells inside the grid. *)
Theorem accepted_map_has_water_border (island_map : string) :
  check_island_map island_map = Ok () ->
  exists m,
    Map_init island_map = Ok m
    /\ Map_wf m
    /\ shape m = (length (lines_of island_map),
                  length (default [] (head (lines_of island_map))))
    /\ (0 < (shape m).1)%nat /\ (0 < (shape m).2)%nat
    /\ island_map_array m = concat (lines_of island_map)
    /\ Forall bare (cells_array m)
    /\ (forall i j c, (i < (shape m).1)%nat -> (j < (shape m).2)%nat ->
          cells_array m !! cell_at m i j = Some c ->
          i = 0%nat \/ S i = (shape m).1 \/ j = 0%nat \/ S j = (shape m).2 ->
          geography c = "W"%char)
    /\ (forall k c, cells_array m !! k = Some c -> geography c ≠ "W"%char ->
          (0 < k / (shape m).2 /\ S (k / (shape m).2) < (shape m).1
           /\ 0 < k mod (shape m).2 /\ S (k mod (shape m).2) < (shape m).2)%nat).
Proof.
  unfold check_island_map, Map_init. set (rows := lines_of island_map).
  intros Hcheck.
  destruct (decide (1 < length (remove_dups (length <$> rows)))%nat) as [|Hsame]; [done|].
  inv_rbind Hcheck as first_column Hfirst. inv_rbind Hcheck as last_column Hlast.
  destruct (decide (Exists _ _)) as [|Hwater]; [done|].
  destruct (decide (Forall _ _)) as [Hletters|]; [|done]. clear Hcheck.
  apply not_Exists_Forall in Hwater; [|intros c; apply _].
  assert (Forall (fun c => c = "W"%char)
            (default [] (head rows) ++ default [] (last rows)
             ++ first_column ++ last_column)) as Hw.
  { eapply Forall_impl; [exact Hwater|]. simpl. intros c Hc.
    destruct (decide (c = "W"%char)); [done|by destruct Hc]. }
  clear Hwater. apply Forall_app in Hw as [Hw1 Hw]. apply Forall_app in Hw as [Hw2 Hw].
  apply Forall_app in Hw as [Hw3 Hw4].
  assert (rows ≠ []) as Hne by apply split_lines_nonempty.
  destruct rows as [|row0 rest] eqn:Hrows; [done|]. clear Hne. cbn [head default] in *.
  set (w := length row0).
  assert (Forall (fun row => length row = w) (row0 :: rest)) as Huni.
  { apply Forall_forall. intros row Hrow.
    apply (remove_dups_short (length <$> row0 :: rest)); [done| |].
    - by apply list_elem_of_fmap_2.
    - apply list_elem_of_fmap_2. by left. }
  destruct (decide (Forall _ _)) as [_|Hn]; [|done].
  assert (0 < w)%nat as Hwpos.
  { destruct (mapM_lookup _ _ _ 0%nat row0 Hfirst eq_refl) as (y & Hy & _).
    unfold getitem in Hy. unfold w. destruct row0; [done|simpl; lia]. }
  eexists. split; [done|]. unfold Map_wf, island_map_array. cbn [shape cells_array fst snd].
  assert (forall i j c, (Cell_init <$> concat (row0 :: rest)) !! (i * w + j)%nat = Some c ->
            (j < w)%nat ->
            exists row, (row0 :: rest) !! i = Some row /\ row !! j = Some (geography c))
    as Hcell.
  { intros i j c Hc Hj. rewrite list_lookup_fmap, (concat_uniform_lookup _ w) in Hc by done.
    destruct ((row0 :: rest) !! i) as [row|]; [|done]. exists row. split; [done|].
    simpl in Hc. destruct (row !! j) as [x|]; [|done]. by injection Hc as <-. }
  assert (forall i j c, (i < length (row0 :: rest))%nat -> (j < w)%nat ->
            (Cell_init <$> concat (row0 :: rest)) !! (i * w + j)%nat = Some c ->
            i = 0%nat \/ S i = length (row0 :: rest) \/ j = 0%nat \/ S j = w ->
            geography c = "W"%char) as Hborder.
  { intros i j c Hi Hj Hc Hedge.
    destruct (Hcell i j c Hc Hj) as (row & Hrow & Hg).
    assert (length row = w) as Hlen.
    { rewrite Forall_forall in Huni. apply Huni. by eapply list_elem_of_lookup_2. }
    destruct Hedge as [->|[Hi'|[->|Hj']]].
    - injection Hrow as <-. rewrite Forall_forall in Hw1. apply Hw1.
      by eapply list_elem_of_lookup_2.
    - assert (last (row0 :: rest) = Some row) as Hl.
      { rewrite last_lookup. rewrite <- Hi'. exact Hrow. }
      rewrite Hl in Hw2. simpl in Hw2. rewrite Forall_forall in Hw2. apply Hw2.
      by eapply list_elem_of_lookup_2.
    - destruct (mapM_lookup _ _ _ i row Hfirst Hrow) as (y & Hy & Hcol).
      unfold getitem in Hy. rewrite Hg in Hy. injection Hy as <-.
      rewrite Forall_forall in Hw3. apply Hw3. by eapply list_elem_of_lookup_2.
    - destruct (mapM_lookup _ _ _ i row Hlast Hrow) as (y & Hy & Hcol).
      unfold getitem in Hy. replace (length row - 1)%nat with j in Hy by lia.
      rewrite Hg in Hy. injection Hy as <-.
      rewrite Forall_forall in Hw4. apply Hw4. by eapply list_elem_of_lookup_2. }
  assert (length (Cell_init <$> concat (row0 :: rest)) = (length (row0 :: rest) * w)%nat)
    as Hsize by (by rewrite length_fmap, (concat_uniform_length _ w)).
  split; [done|]. split; [done|]. split; [simpl; lia|]. split; [done|].
  split; [|split; [|split]].
  - rewrite <- list_fmap_compose. by apply list_fmap_id.
  - apply Forall_fmap. eapply Forall_impl; [exact Hletters|]. by intros c Hc.
  - intros i j c Hi Hj Hc Hedge. unfold cell_at in Hc. simpl in Hc. by eapply Hborder.
  - intros k c Hk Hland.
    assert (k < length (row0 :: rest) * w)%nat as Hlt.
    { rewrite <- Hsize. by eapply lookup_lt_Some. }
    destruct (grid_coordinates _ _ _ Hlt) as [Hi Hj].
    pose proof (Nat.div_mod_eq k w) as Hkij.
    assert ((Cell_init <$> concat (row0 :: rest)) !! (k / w * w + k mod w)%nat = Some c)
      as Hc.
    { replace (k / w * w + k mod w)%nat with k by lia. done. }
    pose proof (Hborder (k / w)%nat (k mod w)%nat c Hi Hj Hc) as Hb.
    change (0 < k / w /\ S (k / w) < length (row0 :: rest)
            /\ 0 < k mod w /\ S (k mod w) < w)%nat.
    repeat split.
    + destruct (decide (k / w = 0)%nat) as [E|]; [|lia]. destruct Hland. apply Hb. by left.
    + destruct (decide (S (k / w) = length (row0 :: rest))) as [E|]; [|lia].
      destruct Hland. apply Hb. right. by left.
    + destruct (decide (k mod w = 0)%nat) as [E|]; [|lia]. destruct Hland. apply Hb.
      right. right. by left.
    + destruct (decide (S (k mod w) = w)) as [E|]; [|lia]. destruct Hland. apply Hb.
      right. right. by right.
Qed.

Lemma accepted_map_has_water_border_witness :
  exists m, Map_init small_island = Ok m /\ Map_wf m.
Proof.
  destruct (accepted_map_has_water_border small_island ltac:(vm_compute; reflexivity))
    as (m & Hm & Hwf & _).
  exists m. exact (conj Hm Hwf).
Defined.

(** ** Indexing the grid *)

Lemma np_index_spec (n : nat) (i : Z) :
  (- Z.of_nat n <= i < Z.of_nat n)%Z ->
  np_index n i = Ok (Z.to_nat (i mod Z.of_nat n))
  /\ (Z.to_nat (i mod Z.of_nat n) < n)%nat.
Proof.
  intros Hi. unfold np_index.
  assert (0 < Z.of_nat n)%Z as Hn by lia.
  pose proof (Z.mod_pos_bound i (Z.of_nat n) Hn) as Hmod.
  split; [|lia].
  destruct (decide (0 <= i < Z.of_nat n)%Z) as [Hpos|Hneg].
  - by rewrite Z.mod_small.
  - destruct (decide (- Z.of_nat n <= i < 0)%Z) as [_|]; [|lia].
    rewrite <- (Z_mod_plus_full i 1 (Z.of_nat n)).
    rewrite Z.mod_small by lia. cbn. do 2 f_equal. lia.
Qed.

Lemma np_index_error (n : nat) (i : Z) :
  ¬ (- Z.of_nat n <= i < Z.of_nat n)%Z -> np_index n i = Raise IndexError.
Proof.
  intros Hi. unfold np_index.
  destruct (decide (0 <= i < Z.of_nat n)%Z); [lia|].
  destruct (decide (- Z.of_nat n <= i < 0)%Z); [lia|done].
Qed.

Lemma flat_index_spec (m : Map) (p : Z * Z) :
  Map_wf m ->
  (- Z.of_nat (shape m).1 <= p.1 < Z.of_nat (shape m).1)%Z ->
  (- Z.of_nat (shape m).2 <= p.2 < Z.of_nat (shape m).2)%Z ->
  exists k,
    flat_index m p = Ok k
    /\ k = (Z.to_nat (p.1 mod Z.of_nat (shape m).1) * (shape m).2
            + Z.to_nat (p.2 mod Z.of_nat (shape m).2))%nat
    /\ (k < length (cells_array m))%nat.
Proof.
  intros Hwf H1 H2. unfold flat_index.
  destruct (np_index_spec _ _ H1) as [-> Hr]. destruct (np_index_spec _ _ H2) as [-> Hc].
  cbn [mbind result_bind]. eexists. split; [done|]. split; [done|]. rewrite Hwf. nia.
Qed.

Lemma flat_index_error (m : Map) (p : Z * Z) :
  ¬ ((- Z.of_nat (shape m).1 <= p.1 < Z.of_nat (shape m).1)%Z
     /\ (- Z.of_nat (shape m).2 <= p.2 < Z.of_nat (shape m).2)%Z) ->
  flat_index m p = Raise IndexError.
Proof.
  intros Hp. unfold flat_index.
  destruct (decide (- Z.of_nat (shape m).1 <= p.1 < Z.of_nat (shape m).1)%Z) as [H1|H1].
  - destruct (np_index_spec _ _ H1) as [-> _]. cbn [mbind result_bind].
    rewrite (np_index_error (shape m).2 p.2); [done|]. intros H2. by apply Hp.
  - rewrite (np_index_error _ _ H1). reflexivity.
Qed.

(** ** One record *)

Section Seeding.
Context `{RS : RandomSource}.

Lemma created_cons (n n' : nat) (a : Animal) (l : list Animal) :
  ident a = n -> created (S n) n' l -> (n < n')%nat -> created n n' (a :: l).
Proof.
  intros Ha [Hl Hnd] Hlt. split.
  - constructor; [lia|]. eapply Forall_impl; [done|]. simpl. intros. lia.
  - rewrite fmap_cons. apply NoDup_cons. split; [|done].
    intros Hin. apply list_elem_of_fmap in Hin as (b & Hb & Hin).
    rewrite Forall_forall in Hl. specialize (Hl b Hin). lia.
Qed.

Lemma created_perm (n n' : nat) (l1 l2 : list Animal) :
  l1 ≡ₚ l2 -> created n n' l1 -> created n n' l2.
Proof. intros Hp [H1 H2]. split; by rewrite <- Hp. Qed.

Lemma add_fauna_pop_spec (l : list fauna) (animal_num Carnivores_num : nat)
    (animals carnivores : list Animal) (s : sys) :
  exists new_H new_C,
    add_fauna_pop l (animal_num, Carnivores_num, animals, carnivores) s
    = Ok ((animal_num + count_species "Herbivore" l,
           Carnivores_num + count_species "Carnivore" l,
           animals ++ new_H, carnivores ++ new_C)%nat,
          mkSys _ (gen s)
            (next_id s + count_species "Herbivore" l + count_species "Carnivore" l))
    /\ Forall2 made_from (filter (fun f => species f = "Herbivore") l) new_H
    /\ Forall2 made_from (filter (fun f => species f = "Carnivore") l) new_C
    /\ created (next_id s)
         (next_id s + count_species "Herbivore" l + count_species "Carnivore" l)
         (new_H ++ new_C).
Proof.
  revert animal_num Carnivores_num animals carnivores s.
  induction l as [|f l IH]; intros an cn hs cs s.
  - exists [], []. unfold count_species. simpl. rewrite !app_nil_r, !Nat.add_0_r.
    split; [by destruct s|]. split; [constructor|]. split; [constructor|].
    split; [constructor|]. simpl. apply NoDup_nil_2.
  - cbn [add_fauna_pop]. unfold count_species in *. rewrite !filter_cons.
    destruct (decide (species f = "Herbivore")) as [EH|NH].
    + destruct (decide (species f = "Carnivore")) as [EC|_]; [congruence|].
      set (a0 := Animal_init (next_id s) (fauna_age f) (fauna_weight f)).
      set (s1 := mkSys _ (gen s) (S (next_id s))).
      destruct (IH (S an) cn (hs ++ [a0]) cs s1) as (nH & nC & Hrun & HH & HC & Hcr).
      exists (a0 :: nH), nC. split; [|split; [|split; [done|]]].
      * unfold mbind at 1, M_bind at 1. unfold mbind at 1, M_bind at 1.
        unfold fresh_id at 1. unfold mret at 1, M_ret at 1.
        unfold mbind at 1, M_bind at 1. unfold mret at 1, M_ret at 1.
        fold s1. fold a0. rewrite Hrun. simpl.
        rewrite <- !app_assoc. simpl. do 3 f_equal; [do 3 f_equal; lia|f_equal; lia].
      * by constructor.
      * simpl length. simpl in Hcr. apply (created_cons _ _ a0); [done| |lia].
        replace (next_id s + S (length (filter (fun f => species f = "Herbivore") l))
                 + length (filter (fun f => species f = "Carnivore") l))%nat
          with (S (next_id s) + length (filter (fun f => species f = "Herbivore") l)
                + length (filter (fun f => species f = "Carnivore") l))%nat by lia.
        done.
    + destruct (decide (species f = "Carnivore")) as [EC|NC].
      * set (a0 := Animal_init (next_id s) (fauna_age f) (fauna_weight f)).
        set (s1 := mkSys _ (gen s) (S (next_id s))).
        destruct (IH an (S cn) hs (cs ++ [a0]) s1) as (nH & nC & Hrun & HH & HC & Hcr).
        exists nH, (a0 :: nC). split; [|split; [done|split]].
        -- unfold mbind at 1, M_bind at 1. unfold mret at 1, M_ret at 1.
           unfold mbind at 1, M_bind at 1. unfold mbind at 1, M_bind at 1.
           unfold fresh_id at 1. unfold mret at 1, M_ret at 1.
           fold s1. fold a0. rewrite Hrun. simpl.
           rewrite <- !app_assoc. simpl. do 3 f_equal; [do 2 f_equal; lia|f_equal; lia].
        -- by constructor.
        -- simpl length. simpl in Hcr.
           apply (created_perm _ _ (a0 :: nH ++ nC)); [apply Permutation_middle|].
           apply created_cons; [done| |lia].
           replace (next_id s + length (filter (fun f => species f = "Herbivore") l)
                    + S (length (filter (fun f => species f = "Carnivore") l)))%nat
             with (S (next_id s) + length (filter (fun f => species f = "Herbivore") l)
                   + length (filter (fun f => species f = "Carnivore") l))%nat by lia.
           done.
      * destruct (IH an cn hs cs s) as (nH & nC & Hrun & HH & HC & Hcr).
        exists nH, nC. split; [|done].
        unfold mbind at 1, M_bind at 1. unfold mret at 1, M_ret at 1.
        unfold mbind at 1, M_bind at 1. unfold mret at 1, M_ret at 1.
        exact Hrun.
Qed.

Lemma created_app (n n1 n2 : nat) (l1 l2 : list Animal) :
  (n <= n1 <= n2)%nat -> created n n1 l1 -> created n1 n2 l2 -> created n n2 (l1 ++ l2).
Proof.
  intros Hn [H1 Hd1] [H2 Hd2]. split.
  - apply Forall_app. split; (eapply Forall_impl; [done|]); simpl; intros; lia.
  - rewrite fmap_app. apply NoDup_app. split; [done|]. split; [|done].
    intros x Hx1 Hx2.
    apply list_elem_of_fmap in Hx1 as (a & -> & Ha). apply list_elem_of_fmap in Hx2 as (b & E & Hb).
    rewrite Forall_forall in H1, H2. specialize (H1 a Ha). specialize (H2 b Hb). lia.
Qed.

(** Appending animals to the lists of the cell at position [k]. *)
Lemma arrivals (cells : list Cell) (k : nat) (animals carnivores : list Animal) :
  (k < length cells)%nat ->
  let cells' :=
    alter (fun c => set_Carnivores_list (Carnivores_list c ++ carnivores) c) k
      (alter (fun c => set_animal_list (animal_list c ++ animals) c) k cells) in
  geography <$> cells' = geography <$> cells
  /\ fodder <$> cells' = fodder <$> cells
  /\ herbivores_of cells' ≡ₚ herbivores_of cells ++ animals
  /\ carnivores_of cells' ≡ₚ carnivores_of cells ++ carnivores
  /\ (forall i c, cells !! i = Some c ->
        exists c', cells' !! i = Some c'
          /\ animal_list c `prefix_of` animal_list c'
          /\ Carnivores_list c `prefix_of` Carnivores_list c').
Proof.
  intros Hk. cbv zeta.
  destruct (lookup_lt_is_Some_2 cells k Hk) as [c0 Hc0].
  set (g1 := fun c => set_animal_list (animal_list c ++ animals) c).
  set (g2 := fun c => set_Carnivores_list (Carnivores_list c ++ carnivores) c).
  assert (alter g1 k cells !! k = Some (g1 c0)) as Hc1.
  { by rewrite list_lookup_alter_eq, Hc0. }
  split; [by rewrite !fmap_alter_same|]. split; [by rewrite !fmap_alter_same|].
  split; [|split].
  - unfold herbivores_of. rewrite (fmap_alter_same animal_list g2) by done.
    apply (Permutation_app_inv_r (animal_list c0)).
    rewrite (concat_alter animal_list g1 k cells c0 Hc0). simpl.
    rewrite <- !app_assoc. apply Permutation_app_head, Permutation_app_comm.
  - unfold carnivores_of.
    apply (Permutation_app_inv_r (Carnivores_list (g1 c0))).
    rewrite (concat_alter Carnivores_list g2 k _ _ Hc1). simpl.
    rewrite (fmap_alter_same Carnivores_list g1) by done.
    rewrite <- !app_assoc. apply Permutation_app_head, Permutation_app_comm.
  - intros i c Hi. destruct (decide (i = k)) as [->|Hne].
    + exists (g2 (g1 c0)). rewrite list_lookup_alter_eq, Hc1. split; [done|].
      assert (c = c0) as -> by congruence. simpl. split; by apply prefix_app_r.
    + exists c. rewrite !list_lookup_alter_ne by done. done.
Qed.

Lemma add_fauna_loop_spec (population : list placement) (m : Map) (counts : nat * nat)
    (s : sys) :
  Map_wf m -> Forall (valid_loc m) population ->
  exists m' new_H new_C,
    add_fauna_loop population m counts s
    = Ok ((m', last_counts population counts),
          mkSys _ (gen s)
            (next_id s + count_population "Herbivore" population
             + count_population "Carnivore" population))
    /\ shape m' = shape m
    /\ geography <$> cells_array m' = geography <$> cells_array m
    /\ fodder <$> cells_array m' = fodder <$> cells_array m
    /\ herbivores_of (cells_array m') ≡ₚ herbivores_of (cells_array m) ++ new_H
    /\ carnivores_of (cells_array m') ≡ₚ carnivores_of (cells_array m) ++ new_C
    /\ length new_H = count_population "Herbivore" population
    /\ length new_C = count_population "Carnivore" population
    /\ created (next_id s)
         (next_id s + count_population "Herbivore" population
          + count_population "Carnivore" population) (new_H ++ new_C)
    /\ Forall (fun a => exists d f, d ∈ population /\ f ∈ pop d /\ made_from f a)
         (new_H ++ new_C)
    /\ (forall i c, cells_array m !! i = Some c ->
          exists c', cells_array m' !! i = Some c'
            /\ animal_list c `prefix_of` animal_list c'
            /\ Carnivores_list c `prefix_of` Carnivores_list c').
Proof.
  intros Hwf Hvalid. revert m counts s Hwf Hvalid.
  induction population as [|d rest IH]; intros m counts s Hwf Hvalid.
  - exists m, [], []. unfold count_population, last_counts. simpl.
    rewrite !app_nil_r, !Nat.add_0_r.
    split; [by destruct s|]. repeat (split; [done|]).
    split; [by split; [constructor|apply NoDup_nil_2]|]. split; [constructor|].
    intros i c Hi. by exists c.
  - apply Forall_cons in Hvalid as [Hd Hvalid]. cbn [add_fauna_loop].
    destruct (add_fauna_pop_spec (pop d) 0 0 [] [] s) as (nH & nC & Hpop & HmH & HmC & Hcr).
    erewrite M_bind_run; [|exact Hpop]. cbn beta iota.
    destruct Hd as [Hd1 Hd2].
    destruct (flat_index_spec m ((loc d).1 - 1, (loc d).2 - 1)%Z Hwf Hd1 Hd2)
      as (k & Hk & _ & Hklt).
    erewrite lift_bind_run; [|exact Hk]. simpl app.
    destruct (arrivals (cells_array m) k nH nC Hklt) as (Hg & Hf & HpH & HpC & Hpre).
    cbv zeta in Hg, Hf, HpH, HpC, Hpre.
    set (cells' := alter _ k (alter _ k (cells_array m))) in *.
    set (s1 := mkSys _ _ _).
    destruct (IH (with_cells m cells')
                (0 + count_species "Herbivore" (pop d), 0 + count_species "Carnivore" (pop d))%nat
                s1) as (m' & rH & rC & Hrun & Hsh & Hg' & Hf' & HpH' & HpC' & HlH & HlC
                        & Hcr' & Hmade & Hpre').
    { unfold Map_wf in *. simpl. unfold cells'. by rewrite !length_alter. }
    { exact Hvalid. }
    exists m', (nH ++ rH), (nC ++ rC). rewrite Hrun. simpl in *.
    unfold count_population. simpl. fold (count_population "Herbivore" rest).
    fold (count_population "Carnivore" rest).
    split; [|split; [done|split; [congruence|split; [congruence|]]]].
    { do 2 f_equal.
      - f_equal. unfold last_counts. simpl. destruct rest as [|d' rest']; [done|].
        rewrite last_cons_cons.
        destruct (last (d' :: rest')) eqn:Hl; [done|]. by apply last_None in Hl.
      - f_equal. lia. }
    split; [by rewrite HpH', HpH, app_assoc|]. split; [by rewrite HpC', HpC, app_assoc|].
    assert (length nH = count_species "Herbivore" (pop d)) as HnH.
    { apply Forall2_length in HmH. by rewrite <- HmH. }
    assert (length nC = count_species "Carnivore" (pop d)) as HnC.
    { apply Forall2_length in HmC. by rewrite <- HmC. }
    split; [rewrite length_app; lia|]. split; [rewrite length_app; lia|]. split; [|split].
    + apply (created_perm _ _ ((nH ++ nC) ++ (rH ++ rC))).
      { rewrite <- !app_assoc. apply Permutation_app_head.
        rewrite !app_assoc. apply Permutation_app_tail, Permutation_app_comm. }
      eapply (created_app _ (next_id s + count_species "Herbivore" (pop d)
                             + count_species "Carnivore" (pop d))); [lia|done|].
      replace (next_id s + (count_species "Herbivore" (pop d)
                            + count_population "Herbivore" rest)
               + (count_species "Carnivore" (pop d) + count_population "Carnivore" rest))%nat
        with (next_id s + count_species "Herbivore" (pop d)
              + count_species "Carnivore" (pop d)
              + count_population "Herbivore" rest + count_population "Carnivore" rest)%nat
        by lia.
      exact Hcr'.
    + assert (Forall (fun a => exists d0 f, d0 ∈ d :: rest /\ f ∈ pop d0 /\ made_from f a)
                ((nH ++ nC) ++ (rH ++ rC))) as Hall.
      { apply Forall_app. split.
        - apply Forall_app. split.
          + clear -HmH. apply Forall_forall. intros a Ha.
            apply list_elem_of_lookup in Ha as [i Hi].
            destruct (Forall2_lookup_r _ _ _ _ _ HmH Hi) as (f & Hf & Hm).
            exists d, f. split; [by left|]. split; [|done].
            apply list_elem_of_lookup_2 in Hf. by apply list_elem_of_filter in Hf as [_ ?].
          + clear -HmC. apply Forall_forall. intros a Ha.
            apply list_elem_of_lookup in Ha as [i Hi].
            destruct (Forall2_lookup_r _ _ _ _ _ HmC Hi) as (f & Hf & Hm).
            exists d, f. split; [by left|]. split; [|done].
            apply list_elem_of_lookup_2 in Hf. by apply list_elem_of_filter in Hf as [_ ?].
        - eapply Forall_impl; [exact Hmade|]. simpl.
          intros a (d0 & f & Hd0 & Hf0 & Hm). exists d0, f. split; [by right|done]. }
      assert ((nH ++ rH) ++ nC ++ rC ≡ₚ (nH ++ nC) ++ rH ++ rC) as Hp.
      { rewrite <- !app_assoc. apply Permutation_app_head.
        rewrite !app_assoc. apply Permutation_app_tail, Permutation_app_comm. }
      by rewrite Hp.
    + intros i c Hi. destruct (Hpre i c Hi) as (c1 & Hc1 & Hp1 & Hp2).
      destruct (Hpre' i c1 Hc1) as (c2 & Hc2 & Hp3 & Hp4).
      exists c2. split; [done|]. split; by etrans.
Qed.

Lemma add_fauna_loop_error (population : list placement) (m : Map) (counts : nat * nat)
    (s : sys) :
  Map_wf m -> Exists (fun d => ¬ valid_loc m d) population ->
  add_fauna_loop population m counts s = Raise IndexError.
Proof.
  intros Hwf Hbad. revert m counts s Hwf Hbad.
  induction population as [|d rest IH]; intros m counts s Hwf Hbad; [by inversion Hbad|].
  cbn [add_fauna_loop].
  destruct (add_fauna_pop_spec (pop d) 0 0 [] [] s) as (nH & nC & Hpop & _).
  erewrite M_bind_run; [|exact Hpop]. cbn beta iota.
  destruct (decide ((- Z.of_nat (shape m).1 <= (loc d).1 - 1 < Z.of_nat (shape m).1)%Z
                    /\ (- Z.of_nat (shape m).2 <= (loc d).2 - 1 < Z.of_nat (shape m).2)%Z))
    as [[Hd1 Hd2]|Hd].
  - destruct (flat_index_spec m ((loc d).1 - 1, (loc d).2 - 1)%Z Hwf Hd1 Hd2)
      as (k & Hk & _ & Hklt).
    erewrite lift_bind_run; [|exact Hk]. apply IH.
    + unfold Map_wf in *. simpl. by rewrite !length_alter.
    + inversion Hbad as [? ? Hh|? ? Ht]; subst; [|done]. by destruct Hh.
  - apply M_bind_raise.
    by rewrite (flat_index_error m ((loc d).1 - 1, (loc d).2 - 1)%Z Hd).
Qed.


End Seeding.


Section Herd.
Context `{RS : RandomSource}.















End Herd.

Section Year.
Context `{RS : RandomSource}.

(** ** Steps that change one list of a cell *)



(** ** Births *)





(** ** Feeding *)

Context {HL : RandomLaws RS}.





(** ** Ageing and death *)




End Year.






Section Migrating.
Context `{RS : RandomSource}.

(** ** [Map.migrate] creates nothing and leaves the Water cells alone *)









Context {HL : RandomLaws RS}.


End Migrating.

Section Phases.
Context `{RS : RandomSource}.





Context {HL : RandomLaws RS}.


End Phases.






Section Years.
Context `{RS : RandomSource}.




Context {HL : RandomLaws RS}.





End Years.

(** ** The default tables and the sample source *)






Lemma getitem_error {A} (l : list A) (i : nat) (e : exn) :
  getitem l i = Raise e -> e = IndexError.
Proof. unfold getitem. destruct (l !! i); [done|]. by intros [= <-]. Qed.

Lemma check_island_map_error (island_map : string) (e : exn) :
  check_island_map island_map = Raise e -> e = ValueError \/ e = IndexError.
Proof.
  unfold check_island_map. intros H.
  destruct (decide (1 < length _)%nat); [left; by injection H as <-|].
  destruct (mapM (fun row => getitem row 0) _) as [first_column|e1] eqn:H1; simpl in H.
  - destruct (mapM (fun row => getitem row (length row - 1)) _)
      as [last_column|e2] eqn:H2; simpl in H.
    + destruct (decide (Exists _ _)); [left; by injection H as <-|].
      destruct (decide (Forall _ _)); [done|left; by injection H as <-].
    + injection H as ->. apply mapM_raises in H2 as (x & _ & Hx).
      right. by eapply getitem_error.
  - injection H as ->. apply mapM_raises in H1 as (x & _ & Hx).
    right. by eapply getitem_error.
Qed.

Lemma check_island_map_rows (island_map : string) :
  check_island_map island_map = Ok () ->
  Forall (fun row => length row = length (default [] (head (lines_of island_map))))
    (lines_of island_map).
Proof.
  unfold check_island_map. intros H.
  destruct (decide (1 < length _)%nat) as [|Hsame]; [done|]. clear H.
  pose proof (split_lines_nonempty (String.list_ascii_of_string island_map) []) as Hne.
  fold (lines_of island_map) in Hne.
  destruct (lines_of island_map) as [|row0 rest]; [done|]. simpl.
  apply Forall_forall. intros row Hrow.
  apply (remove_dups_short (length <$> row0 :: rest)); [done| |].
  - by apply list_elem_of_fmap_2.
  - apply list_elem_of_fmap_2. by left.
Qed.

Lemma check_island_map_letters (island_map : string) :
  check_island_map island_map = Ok () ->
  Forall (fun c => c ∈ geography_dict_keys) (concat (lines_of island_map)).
Proof.
  unfold check_island_map. intros H.
  destruct (decide (1 < length _)%nat); [done|].
  inv_rbind H as first_column Hfirst. inv_rbind H as last_column Hlast.
  destruct (decide (Exists _ _)); [done|].
  by destruct (decide (Forall _ _)).
Qed.

Lemma Map_init_run (island_map : string) :
  check_island_map island_map = Ok () ->
  exists m, Map_init island_map = Ok m /\ Map_wf m
    /\ island_map_array m = concat (lines_of island_map)
    /\ Forall (fun c => fodder c = 0%R /\ residents_of c = []) (cells_array m).
Proof.
  intros Hrows%check_island_map_rows. unfold Map_init.
  destruct (decide (Forall _ _)) as [_|]; [|done].
  eexists. split; [done|]. unfold Map_wf, island_map_array. simpl.
  split; [|split].
  - by rewrite length_fmap, (concat_uniform_length _ _ Hrows).
  - rewrite <- list_fmap_compose. by apply list_fmap_id.
  - apply Forall_fmap. by apply Forall_true.
Qed.

Section Start.
Context `{RS : RandomSource}.

Lemma animals_of_empty (cells : list Cell) :
  Forall (fun c => residents_of c = []) cells ->
  herbivores_of cells = [] /\ carnivores_of cells = [].
Proof.
  unfold herbivores_of, carnivores_of.
  induction 1 as [|c l Hc _ [IH1 IH2]]; [done|].
  unfold residents_of in Hc. apply app_eq_nil in Hc as [Hh Hcn].
  by rewrite !fmap_cons, !concat_cons, Hh, Hcn, IH1, IH2.
Qed.

Lemma herd_ok_created (cells : list Cell) (new_H new_C : list Animal)
    (population : list placement) (n : nat) (s' : sys) :
  herbivores_of cells ≡ₚ new_H -> carnivores_of cells ≡ₚ new_C ->
  created n (next_id s') (new_H ++ new_C) ->
  Forall (fun a => exists d f, d ∈ population /\ f ∈ pop d /\ made_from f a)
    (new_H ++ new_C) ->
  weighed population -> herd_ok cells s'.
Proof.
  intros HpH HpC [Hids Hnd] Hmade Hw.
  assert (animals_of cells ≡ₚ new_H ++ new_C) as Hp
    by (by rewrite animals_of_species, HpH, HpC).
  split; [|split].
  - rewrite Hp. eapply Forall_impl; [exact Hmade|].
    intros a (d & f & Hd & Hf & _ & Hwa & _).
    unfold weighed in Hw. rewrite Forall_forall in Hw. specialize (Hw d Hd).
    rewrite Forall_forall in Hw. destruct (Hw f Hf) as (w & Hfw & Hle).
    exists w. split; [congruence|done].
  - by rewrite Hp.
  - rewrite Hp. eapply Forall_impl; [exact Hids|]. intros a Ha. simpl in Ha. lia.
Qed.

(** X16: [BioSim.__init__] raises what the check of the map raises, a
    ValueError or an IndexError; on an accepted map it raises IndexError when
    a record of the population lies off the grid; with the population on
    the grid it raises what the constructor of [Graphics] raises, a KeyError
    when a histogram specification lacks ['max'] or ['delta']. When every
    specification has both keys, a positive bin width and at most a million
    bins, as with the default [hist_specs=None], it returns a simulation in
    year 0 that keeps
    [vis_years] and [img_years] as given, whose map has the letters of the
    text, no fodder and exactly the animals of the population, with the
    counters of the last record; if every weight given is a number that is
    not negative, the island is sound. *)
Theorem BioSim_init_outcome (island_map : string) (ini_pop : list placement)
    (opts : options) (s : sys) :
  (forall e, check_island_map island_map = Raise e ->
     BioSim_init island_map ini_pop opts s = Raise e
     /\ (e = ValueError \/ e = IndexError))
  /\ (check_island_map island_map = Ok () ->
      exists m,
        Map_init island_map = Ok m
        /\ (Exists (fun d => ¬ valid_loc m d) ini_pop ->
            BioSim_init island_map ini_pop opts s = Raise IndexError)
        /\ (Forall (valid_loc m) ini_pop ->
            (forall e, Graphics_init island_map (opt_hist_specs opts) = Raise e ->
               BioSim_init island_map ini_pop opts s = Raise e)
            /\ (Exists lacking_spec (default [] (opt_hist_specs opts)) ->
                BioSim_init island_map ini_pop opts s = Raise KeyError)
            /\ (Forall complete_spec (default [] (opt_hist_specs opts)) ->
                exists self s',
                  BioSim_init island_map ini_pop opts s = Ok (self, s')
                  /\ year self = 0%nat
                  /\ vis_years self = opt_vis_years opts
                  /\ img_years self = opt_img_years opts
                  /\ Map_wf (_map_instance self)
                  /\ shape (_map_instance self) = shape m
                  /\ island_map_array (_map_instance self) = concat (lines_of island_map)
                  /\ Forall (fun c => fodder c = 0%R) (cells_array (_map_instance self))
                  /\ length (herbivores_of (cells_array (_map_instance self)))
                     = count_population "Herbivore" ini_pop
                  /\ length (carnivores_of (cells_array (_map_instance self)))
                     = count_population "Carnivore" ini_pop
                  /\ (_herbivores_num self, _carnivores_num self)
                     = last_counts ini_pop (0, 0)%nat
                  /\ gen s' = gen s
                  /\ (weighed ini_pop ->
                      herd_ok (cells_array (_map_instance self)) s')))).
Proof.
  split.
  - intros e He. split; [|by eapply check_island_map_error].
    unfold BioSim_init. unfold mbind, M_bind, lift. by rewrite He.
  - intros Hcheck.
    destruct (Map_init_run island_map Hcheck) as (m & Hm & Hwf & Hletters & Hbare).
    exists m. split; [done|].
    set (self0 := mkBioSim 0 m 0 0 [] [] [] [] (opt_vis_years opts) (opt_img_years opts)).
    assert (BioSim_init island_map ini_pop opts s
            = (add_population self0 ini_pop ≫=
               (fun '(self, (h, c)) =>
                  _ ← lift (Graphics_init island_map (opt_hist_specs opts));
                  mret (mkBioSim (_year self) (_map_instance self) h c [] [] [] []
                          (opt_vis_years opts) (opt_img_years opts)))) s)
      as Hinit.
    { unfold BioSim_init.
      erewrite lift_bind_run; [|exact Hcheck]. erewrite lift_bind_run; [|exact Hm]. done. }
    split.
    + intros Hbad. rewrite Hinit. unfold add_population. cbn [_map_instance self0].
      assert (add_fauna m ini_pop s = Raise IndexError) as Hadd.
      { unfold add_fauna. destruct (decide (length ini_pop = 0)%nat) as [Hnil|_].
        - destruct ini_pop; [by inversion Hbad|done].
        - by apply add_fauna_loop_error. }
      unfold mbind, M_bind. by rewrite Hadd.
    + intros Hvalid.
      destruct (add_fauna_loop_spec ini_pop m (0, 0)%nat s Hwf Hvalid)
        as (m' & nH & nC & Hrun & Hsh & Hg & Hf & HpH & HpC & HlH & HlC & Hcr & Hmade & _).
      set (s1 := mkSys _ (gen s)
                   (next_id s + count_population "Herbivore" ini_pop
                    + count_population "Carnivore" ini_pop)) in *.
      assert (add_fauna m ini_pop s = Ok ((m', last_counts ini_pop (0, 0)%nat), s1))
        as Hadd.
      { unfold add_fauna. destruct (decide (length ini_pop = 0)%nat) as [Hnil|_]; [|done].
        destruct ini_pop; [|done]. exact Hrun. }
      destruct (last_counts ini_pop (0, 0)%nat) as [h c] eqn:Hcounts.
      assert (BioSim_init island_map ini_pop opts s
              = (_ ← lift (Graphics_init island_map (opt_hist_specs opts));
                 mret (mkBioSim 0 m' h c [] [] [] []
                         (opt_vis_years opts) (opt_img_years opts))) s1) as Hgraph.
      { rewrite Hinit. unfold add_population. cbn [_map_instance _year self0].
        unfold mbind at 1, M_bind at 1. unfold mbind at 1, M_bind at 1.
        rewrite Hadd. done. }
      assert (forall e, Graphics_init island_map (opt_hist_specs opts) = Raise e ->
                BioSim_init island_map ini_pop opts s = Raise e) as Hraise.
      { intros e He. rewrite Hgraph. unfold mbind, M_bind, lift. by rewrite He. }
      split; [|split].
      { exact Hraise. }
      { intros Hlack. apply Hraise. by apply Graphics_init_lacking. }
      intros Hspecs.
      destruct (Graphics_init_run island_map (opt_hist_specs opts)
                  (check_island_map_letters _ Hcheck) Hspecs) as [g Hgr].
      destruct (animals_of_empty (cells_array m)) as [HeH HeC].
      { eapply Forall_impl; [exact Hbare|]. by intros c0 [_ Hc0]. }
      rewrite HeH in HpH. rewrite HeC in HpC. simpl in HpH, HpC.
      eexists (mkBioSim 0 m' h c [] [] [] [] (opt_vis_years opts) (opt_img_years opts)), s1.
      split.
      { rewrite Hgraph. erewrite lift_bind_run; [|exact Hgr]. done. }
      cbn [_map_instance _herbivores_num _carnivores_num year _year vis_years img_years].
      split; [done|]. split; [done|]. split; [done|]. split.
      { unfold Map_wf in *. rewrite Hsh, <- Hwf.
        by rewrite <- (length_fmap geography), Hg, length_fmap. }
      split; [done|]. split; [unfold island_map_array in *; congruence|].
      split.
      { assert (Forall (fun x => x = 0%R) (fodder <$> cells_array m')) as H0.
        { rewrite Hf. apply Forall_fmap. eapply Forall_impl; [exact Hbare|].
          by intros c0 [Hc0 _]. }
        by apply Forall_fmap in H0. }
      split; [by rewrite HpH|]. split; [by rewrite HpC|]. split; [done|]. split; [done|].
      intros Hw. by eapply herd_ok_created.
Qed.

End Start.

Lemma BioSim_init_outcome_witness :
  (exists self s',
     BioSim_init (RS := sample_source) small_island two_records default_options sample_sys
     = Ok (self, s')
     /\ herd_ok (cells_array (_map_instance self)) s')
  /\ BioSim_init (RS := sample_source) small_island two_records
       (mkOptions 1 (Some [("weight", [("max", 80%R)])]) None) sample_sys
     = Raise KeyError.
Proof.
  assert (forall m, Map_init small_island = Ok m -> Forall (valid_loc m) two_records)
    as Hvalid.
  { intros m Hm. assert (shape m = (3, 3)%nat) as Hshape.
    { unfold Map_init in Hm. destruct (decide _); [|done]. by injection Hm as <-. }
    unfold valid_loc. rewrite Hshape. repeat constructor; simpl; lia. }
  split.
  - destruct (proj2 (BioSim_init_outcome (RS := sample_source) small_island two_records
                       default_options sample_sys) ltac:(vm_compute; reflexivity))
      as (m & Hm & _ & Hgood).
    destruct (Hgood (Hvalid m Hm)) as (_ & _ & Hreturns).
    destruct Hreturns
      as (self & s' & Hrun & _ & _ & _ & _ & _ & _ & _ & _ & _ & _ & _ & Hok).
    { constructor. }
    exists self, s'. split; [exact Hrun|]. apply Hok.
    repeat constructor; eexists; (split; [reflexivity|lra]).
  - destruct (proj2 (BioSim_init_outcome (RS := sample_source) small_island two_records
                       (mkOptions 1 (Some [("weight", [("max", 80%R)])]) None)
                       sample_sys) ltac:(vm_compute; reflexivity))
      as (m & Hm & _ & Hgood).
    destruct (Hgood (Hvalid m Hm)) as (_ & Hlack & _).
    apply Hlack. constructor. right. reflexivity.
Defined.
